(** * MSF AI Finance: the valuation engine, the filing filter and the
      scenario presets, embedded from the TypeScript sources

    Sources embedded here:
    - [src/lib/valuation/calculations.ts]  (the valuation engine),
    - [src/components/valuation/ValuationDashboard.tsx]  (the blended
      summary figure),
    - [src/lib/valuation/edgarXbrl.ts]  ([pickAnnual]),
    - [src/context/ScenarioContext.tsx] and the presets module
      ([applyScenario], [SCENARIO_PRESETS]).

    ** The model of a JavaScript [number]

    A JavaScript number is a binary64 float.  The embedding keeps the
    three special values ([NaN], [+Infinity], [-Infinity]) and the way
    they propagate through arithmetic and comparisons, and it takes the
    finite values to be exact rationals: rounding and overflow of finite
    results are not modelled, decimal literals such as [1.15] denote the
    exact decimal, and there is a single zero.  Every statement below is
    a statement about this exact arithmetic. *)

From Stdlib Require Import Ascii String QArith Qround Qminmax Qabs Qpower Lia Lqa.
From Stdlib Require Import Permutation.
From Stdlib Require OrderedTypeEx.
From stdpp Require Import gmap strings list fin_maps.

Set Default Proof Using "Type".

(** ** JavaScript numbers *)

Module Js.

Inductive number : Type :=
  | Fin (q : Q)
  | PInf
  | NInf
  | NaN.

#[global] Arguments Fin q%_Q.

Definition Qltb (a b : Q) : bool := negb (Qle_bool b a).
Definition Qis0 (a : Q) : bool := Qeq_bool a 0.

(** [isFinite(x)] *)
Definition isFinite (x : number) : bool :=
  match x with Fin _ => true | _ => false end.

(** Truthiness of a number: [0] and [NaN] are falsy. *)
Definition truthy (x : number) : bool :=
  match x with
  | Fin q => negb (Qis0 q)
  | PInf | NInf => true
  | NaN => false
  end.

Definition nneg (x : number) : number :=
  match x with
  | Fin q => Fin (- q)
  | PInf => NInf
  | NInf => PInf
  | NaN => NaN
  end.

Definition nadd (x y : number) : number :=
  match x, y with
  | NaN, _ | _, NaN => NaN
  | Fin a, Fin b => Fin (a + b)
  | PInf, NInf | NInf, PInf => NaN
  | PInf, _ | _, PInf => PInf
  | NInf, _ | _, NInf => NInf
  end.

Definition nsub (x y : number) : number := nadd x (nneg y).

(** Sign of a value that is not [NaN]: [Lt] negative, [Eq] zero, [Gt] positive. *)
Definition nsign (x : number) : comparison :=
  match x with
  | Fin q => (q ?= 0)%Q
  | PInf => Gt
  | NInf => Lt
  | NaN => Eq
  end.

Definition inf_of_sign (s : comparison) : number :=
  match s with Gt => PInf | Lt => NInf | Eq => NaN end.

Definition sign_mul (s t : comparison) : comparison :=
  match s, t with
  | Eq, _ | _, Eq => Eq
  | Gt, Gt | Lt, Lt => Gt
  | _, _ => Lt
  end.

Definition nmul (x y : number) : number :=
  match x, y with
  | NaN, _ | _, NaN => NaN
  | Fin a, Fin b => Fin (a * b)
  | _, _ => inf_of_sign (sign_mul (nsign x) (nsign y))
  end.

(** Division: a finite non-zero value over zero is an infinity of the
    sign of the numerator, [0/0] and [Infinity/Infinity] are [NaN], and
    a finite value over an infinity is zero. *)
Definition ndiv (x y : number) : number :=
  match x, y with
  | NaN, _ | _, NaN => NaN
  | Fin a, Fin b =>
      if Qis0 b then inf_of_sign (a ?= 0)%Q else Fin (a / b)
  | Fin _, _ => Fin 0
  | _, Fin b =>
      match (b ?= 0)%Q with
      | Lt => nneg x
      | _ => x
      end
  | _, _ => NaN
  end.

(** Comparisons; every comparison with [NaN] is [false]. *)
Definition nlt (x y : number) : bool :=
  match x, y with
  | NaN, _ | _, NaN => false
  | Fin a, Fin b => Qltb a b
  | _, NInf => false
  | NInf, _ => true
  | PInf, _ => false
  | _, PInf => true
  end.

Definition nle (x y : number) : bool :=
  match x, y with
  | NaN, _ | _, NaN => false
  | Fin a, Fin b => Qle_bool a b
  | NInf, _ => true
  | _, PInf => true
  | _, _ => false
  end.

Definition ngt (x y : number) : bool := nlt y x.
Definition nge (x y : number) : bool := nle y x.

(** [Math.max] and [Math.min] of two numbers. *)
Definition nmax (x y : number) : number :=
  match x, y with
  | NaN, _ | _, NaN => NaN
  | _, _ => if nlt x y then y else x
  end.

Definition nmin (x y : number) : number :=
  match x, y with
  | NaN, _ | _, NaN => NaN
  | _, _ => if nlt y x then y else x
  end.

(** [x ** k] for a whole exponent [k]: [x ** 0] is [1] for every [x],
    also for [NaN]; a negative power of zero is [+Infinity]. *)
Definition npow_int (x : number) (k : Z) : number :=
  if (k =? 0)%Z then Fin 1 else
  match x with
  | NaN => NaN
  | Fin q =>
      if (k <? 0)%Z && Qis0 q then PInf else Fin (Qpower q k)
  | PInf => if (k <? 0)%Z then Fin 0 else PInf
  | NInf =>
      if (k <? 0)%Z then Fin 0
      else if Z.odd k then NInf else PInf
  end.

(** Equality of numbers up to the representation of a rational. *)
Definition num_eq (x y : number) : Prop :=
  match x, y with
  | Fin a, Fin b => a == b
  | PInf, PInf | NInf, NInf | NaN, NaN => True
  | _, _ => False
  end.

Definition num_eqb (x y : number) : bool :=
  match x, y with
  | Fin a, Fin b => Qeq_bool a b
  | PInf, PInf | NInf, NInf | NaN, NaN => true
  | _, _ => false
  end.

(** An array element read at a possibly out-of-range index:
    [None] stands for [undefined]. *)
Definition arr_get {A : Type} (l : list A) (i : Z) : option A :=
  if (i <? 0)%Z then None else nth_error l (Z.to_nat i).

(** [undefined] used as an operand of arithmetic converts to [NaN]. *)
Definition to_number (o : option number) : number :=
  match o with Some x => x | None => NaN end.

(** [arr.reduce((acc, x, i) => f(acc, x, i), init)] *)
Fixpoint reduce_from {A B : Type} (f : B -> A -> nat -> B)
    (i : nat) (l : list A) (acc : B) : B :=
  match l with
  | [] => acc
  | x :: l' => reduce_from f (S i) l' (f acc x i)
  end.

Definition reduce_i {A B : Type} (f : B -> A -> nat -> B) (l : list A) (init : B) : B :=
  reduce_from f 0 l init.

(** [arr.map((x, i) => f(x, i))] *)
Fixpoint map_from {A B : Type} (f : A -> nat -> B) (i : nat) (l : list A) : list B :=
  match l with
  | [] => []
  | x :: l' => f x i :: map_from f (S i) l'
  end.

Definition map_i {A B : Type} (f : A -> nat -> B) (l : list A) : list B :=
  map_from f 0 l.

Definition of_nat (n : nat) : number := Fin (inject_Z (Z.of_nat n)).

End Js.

Export Js.

Declare Scope js_scope.
Delimit Scope js_scope with js.
Bind Scope js_scope with number.
Infix "+" := nadd : js_scope.
Infix "-" := nsub : js_scope.
Infix "*" := nmul : js_scope.
Infix "/" := ndiv : js_scope.
Infix "<?" := nlt : js_scope.
Infix "<=?" := nle : js_scope.
Infix ">?" := ngt : js_scope.
Infix ">=?" := nge : js_scope.
Infix "=n=" := num_eq (at level 70, no associativity).

(** A stable sort driven by a JavaScript comparator: [x] moves behind
    [y] only when [cmp x y > 0], so elements that compare equal keep
    their order ([Array.prototype.sort] is stable). *)
Fixpoint sort_insert {A : Type} (cmp : A -> A -> number) (x : A) (l : list A) : list A :=
  match l with
  | [] => [x]
  | y :: l' => if (cmp x y >? Fin 0)%js then y :: sort_insert cmp x l' else x :: l
  end.

Definition js_sort {A : Type} (cmp : A -> A -> number) (l : list A) : list A :=
  fold_right (sort_insert cmp) [] l.

(** ** Types of the valuation engine ([types/valuation]) *)

(** The fields of [Baseline] that the engine reads. *)
Record Baseline : Type := {
  revenue : number;
  cogs : number;
  sga : number;
  da_total : number;
  interest_expense : number;
  ebitda_margin : number;
  tax_rate : number;
  payout_ratio : number;
  plowback_ratio : number;
  net_borrowing : number;
  shares_diluted : number;
  net_debt : number;
  total_debt : number;
  current_price : number;
  eps : number;
  adj_eps : number;
  dps : number;
  bvps : number;
  roe : number;
  ocf : number;
  adj_ebitda : number;
}.

(** A value stored in a field of a plain JavaScript object. *)
Inductive jsval : Type :=
  | JNum (x : number)
  | JStr (s : string).

(** An [Assumptions] object.  The code builds these objects by object
    spread and reads some fields through [??], so it is kept as the
    finite map from field names to values that it is at run time. *)
Abbreviation Assumptions := (gmap string jsval).

(** [a.k] read as a number: a missing field is [undefined], which
    arithmetic and comparisons treat as [NaN].  (The declared type
    gives every field read this way the type [number].) *)
Definition fld (a : Assumptions) (k : string) : number :=
  match a !! k with
  | Some (JNum x) => x
  | _ => NaN
  end.

(** [a.k ?? d] *)
Definition fld_or (a : Assumptions) (k : string) (d : number) : number :=
  match a !! k with
  | Some (JNum x) => x
  | _ => d
  end.

Inductive Signal : Type := BUY | HOLD | SELL | NA.

#[global] Instance Signal_eq_dec : EqDecision Signal.
Proof. solve_decision. Defined.

Record SignalRow : Type := {
  method : string;
  intrinsicValue : number;
  (** the percentage that the code renders with [toFixed(1)], or
      [None] for the text ["N/A"] *)
  vsMarket : option number;
  signal : Signal;
}.

Record ProFormaRow : Type := {
  pf_year : number;
  pf_revenue : number;
  pf_cogs : number;
  pf_gross_profit : number;
  pf_sga : number;
  pf_da : number;
  pf_op_inc : number;
  pf_interest : number;
  pf_pretax : number;
  pf_tax : number;
  pf_net_income : number;
  pf_ebitda : number;
  pf_capex : number;
  pf_fcff : number;
  pf_fcfe : number;
  pf_dividends : number;
  pf_ebitda_margin : number;
}.

Record RIProjectionRow : Type := {
  ri_year : number;
  bvps_start : number;
  eps_proj : number;
  required_return : number;
  ri : number;
  pv_ri : number;
}.

Record Comp : Type := {
  ev_ebitda : number;
  ev_rev : number;
  pe : number;
  peg : number;
  pb : number;
  pcf : option number;
}.

Record Acquisition : Type := {
  acq_rev : number;
  acq_margin : number;
  acq_mult : number;
}.

(** ** The valuation engine ([lib/valuation/calculations.ts]) *)

(** The length that [Array.from({ length: x }, ...)] gives the new
    array; [None] when it throws [RangeError] (a length of 2^32 or more). *)
Definition array_length (x : number) : option nat :=
  match x with
  | Fin q =>
      let z := Qfloor q in
      if (z <=? 0)%Z then Some 0%nat
      else if (z <? 2 ^ 32)%Z then Some (Z.to_nat z) else None
  | PInf => None
  | NInf | NaN => Some 0%nat
  end.

Definition buildGrowthSchedule (a : Assumptions) : option (list number) :=
  let yr1_g := fld a "yr1_g" in
  let yr2_g := fld a "yr2_g" in
  let yr3_g := fld a "yr3_g" in
  let lt_g := fld a "lt_g" in
  let proj_years_n := fld a "proj_years_n" in
  match array_length proj_years_n with
  | None => None
  | Some len =>
      Some (List.map (fun i : nat =>
        if (i =? 0)%nat then yr1_g
        else if (i =? 1)%nat then yr2_g
        else if (i =? 2)%nat then yr3_g
        else
          let fade := ((of_nat i - Fin 2) / nmax (proj_years_n - Fin 3) (Fin 1))%js in
          (yr3_g + fade * (lt_g - yr3_g))%js) (seq 0 len))
  end.

Definition buildProforma (B : Baseline) (growthRates : list number) (a : Assumptions)
    : list ProFormaRow :=
  let cogs_pct := if truthy (revenue B) then (cogs B / revenue B)%js else Fin 0.55 in
  let sga_pct := if truthy (revenue B) then (sga B / revenue B)%js else Fin 0.20 in
  let da_pct := if truthy (revenue B) then (da_total B / revenue B)%js else Fin 0.03 in
  let int_pct := if truthy (revenue B) then (interest_expense B / revenue B)%js else Fin 0.025 in
  map_i (fun (_ : number) (i : nat) =>
    let rev := (revenue B *
      fold_left (fun acc g => acc * (Fin 1 + g)) (firstn (i + 1) growthRates) (Fin 1))%js in
    let marginProg := (of_nat (i + 1) / of_nat (length growthRates))%js in
    let ebitdaM :=
      (ebitda_margin B + marginProg * (fld a "target_ebitda_m" - ebitda_margin B))%js in
    let cogs := (rev * cogs_pct)%js in
    let gp := (rev - cogs)%js in
    let sga := (rev * sga_pct)%js in
    let op_inc := (gp - sga)%js in
    let da := (rev * da_pct)%js in
    let ebitda := (op_inc + da)%js in
    let interest := (rev * int_pct)%js in
    let pretax := (op_inc - interest)%js in
    let tax := if (pretax >? Fin 0)%js then (pretax * tax_rate B)%js else Fin 0 in
    let ni := (pretax - tax)%js in
    let capex := (rev * fld a "capex_pct")%js in
    let fcff := (op_inc * (Fin 1 - tax_rate B) + da - capex)%js in
    let fcfe := (fcff - interest * (Fin 1 - tax_rate B))%js in
    let dividends := if (ni >? Fin 0)%js then (ni * payout_ratio B)%js else Fin 0 in
    {| pf_year := (Fin 2025 + of_nat i)%js;
       pf_revenue := rev;
       pf_cogs := cogs;
       pf_gross_profit := gp;
       pf_sga := sga;
       pf_da := da;
       pf_op_inc := op_inc;
       pf_interest := interest;
       pf_pretax := pretax;
       pf_tax := tax;
       pf_net_income := ni;
       pf_ebitda := ebitda;
       pf_capex := capex;
       pf_fcff := fcff;
       pf_fcfe := fcfe;
       pf_dividends := dividends;
       pf_ebitda_margin := if truthy rev then (ebitda / rev)%js else Fin 0 |})
    growthRates.

Record DcfResult : Type := {
  pps : number;
  ev : number;
  pvFcfs : number;
  pvTv : number;
}.

Definition dcfPrice (fcfs : list number) (terminalVal discountRate netDebt shares : number)
    : DcfResult :=
  let dfs := map_i (fun (_ : number) (i : nat) =>
    (Fin 1 / npow_int (Fin 1 + discountRate) (Z.of_nat (i + 1)))%js) fcfs in
  let pvFcfs := reduce_i (fun acc f i =>
    (acc + f * to_number (arr_get dfs (Z.of_nat i)))%js) fcfs (Fin 0) in
  let pvTv := (terminalVal * to_number (arr_get dfs (Z.of_nat (length dfs) - 1)))%js in
  let ev := (pvFcfs + pvTv)%js in
  let pps := if truthy shares then ((ev - netDebt) / shares)%js else Fin 0 in
  {| pps := pps; ev := ev; pvFcfs := pvFcfs; pvTv := pvTv |}.

Definition assignSignal (intrinsic market : number) : Signal :=
  if negb (truthy market) || (market <=? Fin 0)%js then NA
  else if (intrinsic >? market * Fin 1.15)%js then BUY
  else if (intrinsic <? market * Fin 0.85)%js then SELL
  else HOLD.

Record WaccResult : Type := {
  wacc : number;
  ke : number;
  kd_after_tax : number;
}.

Definition computeWACC (rf beta erp kd T marketCapE totalDebtD : number) : WaccResult :=
  let ke := (rf + beta * erp)%js in
  let kd_after_tax := (kd * (Fin 1 - T))%js in
  let V := (marketCapE + totalDebtD)%js in
  if (V <=? Fin 0)%js then {| wacc := ke; ke := ke; kd_after_tax := kd_after_tax |}
  else
    let wacc := ((marketCapE / V) * ke + (totalDebtD / V) * kd_after_tax)%js in
    {| wacc := wacc; ke := ke; kd_after_tax := kd_after_tax |}.

Record FcfeResult : Type := {
  pps_fcfe : number;
  ev_fcfe : number;
  fcfes : list number;
}.

Definition computeFCFE (proforma : list ProFormaRow) (B : Baseline) (a : Assumptions)
    (ke : number) : FcfeResult :=
  let T := if truthy (fld a "tax_rate") then fld a "tax_rate" else tax_rate B in
  let netBorrowPerYear := (net_borrowing B / nmax (of_nat (length proforma)) (Fin 1))%js in
  let fcfes := List.map (fun r =>
    (pf_fcff r - pf_interest r * (Fin 1 - T) + netBorrowPerYear)%js) proforma in
  let g := fld a "terminal_g" in
  let n := length proforma in
  if (ke <=? g)%js then {| pps_fcfe := Fin 0; ev_fcfe := Fin 0; fcfes := fcfes |}
  else
    let tv := ((to_number (arr_get fcfes (Z.of_nat n - 1)) * (Fin 1 + g)) / (ke - g))%js in
    let pvFcfes := reduce_i (fun acc f i =>
      (acc + f / npow_int (Fin 1 + ke) (Z.of_nat (i + 1)))%js) fcfes (Fin 0) in
    let pvTv := (tv / npow_int (Fin 1 + ke) (Z.of_nat n))%js in
    let equityValue := (pvFcfes + pvTv)%js in
    let pps_fcfe :=
      if (shares_diluted B >? Fin 0)%js then (equityValue / shares_diluted B)%js else Fin 0 in
    let ev_fcfe := (equityValue + net_debt B)%js in
    {| pps_fcfe := pps_fcfe; ev_fcfe := ev_fcfe; fcfes := fcfes |}.

(** The variables that the loop of [computeRI] updates. *)
Record RiLoop : Type := {
  bvps_t : number;
  sumPvRi : number;
  eps_t : number;
  riRows_acc : list RIProjectionRow;
}.

Definition ri_loop_body (ke plowback : number) (st : RiLoop) (g_i : number) (i : nat) : RiLoop :=
  let eps_t := (eps_t st * (Fin 1 + g_i))%js in
  let required_return := (ke * bvps_t st)%js in
  let ri := (eps_t - required_return)%js in
  let pv_ri := (ri / npow_int (Fin 1 + ke) (Z.of_nat (i + 1)))%js in
  {| riRows_acc := riRows_acc st ++
       [{| ri_year := (Fin 2025 + of_nat i)%js;
           bvps_start := bvps_t st;
           eps_proj := eps_t;
           required_return := required_return;
           ri := ri;
           pv_ri := pv_ri |}];
     sumPvRi := (sumPvRi st + pv_ri)%js;
     bvps_t := (bvps_t st + eps_t * plowback)%js;
     eps_t := eps_t |}.

(** [computeRI]; [None] when it throws: the growth schedule cannot be
    allocated, or the terminal value reads [.ri] of a row that does not
    exist (an empty schedule with [ke > g]). *)
Definition computeRI (B : Baseline) (a : Assumptions) (ke : number)
    : option (number * list RIProjectionRow) :=
  if (eps B <=? Fin 0)%js || (bvps B <=? Fin 0)%js || (ke <=? Fin 0)%js
  then Some (Fin 0, [])
  else
    let plowback :=
      if (plowback_ratio B >? Fin 0)%js then plowback_ratio B
      else (Fin 1 - payout_ratio B)%js in
    match buildGrowthSchedule a with
    | None => None
    | Some growthRates =>
        let n := length growthRates in
        let g := fld a "terminal_g" in
        let st := reduce_i (ri_loop_body ke plowback) growthRates
          {| bvps_t := bvps B; sumPvRi := Fin 0; eps_t := eps B; riRows_acc := [] |} in
        let riRows := riRows_acc st in
        let ri_terminal :=
          if (ke >? g)%js then
            match arr_get riRows (Z.of_nat n - 1) with
            | None => None
            | Some last => Some ((ri last * (Fin 1 + g)) / (ke - g))%js
            end
          else Some (Fin 0) in
        match ri_terminal with
        | None => None
        | Some ri_terminal =>
            let pv_terminal_ri := (ri_terminal / npow_int (Fin 1 + ke) (Z.of_nat n))%js in
            Some ((bvps B + sumPvRi st + pv_terminal_ri)%js, riRows)
        end
    end.

Definition computeHModelDDM (B : Baseline) (a : Assumptions) (ke : number) : number :=
  let D0 := dps B in
  let gL := fld a "terminal_g" in
  let gS := fld a "yr1_g" in
  let H := fld_or a "hl" (Fin 2.5) in
  let r := ke in
  if (D0 <=? Fin 0)%js || (r <=? gL)%js then Fin 0
  else
    let p0 := ((D0 * (Fin 1 + gL)) / (r - gL) + (D0 * H * (gS - gL)) / (r - gL))%js in
    nmax (Fin 0) p0.

Definition computeJustifiedPE (B : Baseline) (a : Assumptions) (ke : number)
    : number * number (* pps_jpe, justifiedPE *) :=
  let roe := if (roe B >? Fin 0)%js then roe B else Fin 0.10 in
  let b := if (plowback_ratio B >? Fin 0)%js then plowback_ratio B
           else (Fin 1 - payout_ratio B)%js in
  let g := nmin (roe * b)%js (ke - Fin 0.001)%js in
  let r := ke in
  if (r <=? g)%js then (Fin 0, Fin 0)
  else
    let payout := (Fin 1 - b)%js in
    let justifiedPE := (payout / (r - g))%js in
    let forwardEps := (eps B * (Fin 1 + fld a "yr1_g"))%js in
    let pps_jpe := (justifiedPE * forwardEps)%js in
    (pps_jpe, justifiedPE).

Definition computeJustifiedPB (B : Baseline) (a : Assumptions) (ke : number)
    : number * number (* pps_jpb, justifiedPB *) :=
  let roe := if (roe B >? Fin 0)%js then roe B else Fin 0.10 in
  let b := if (plowback_ratio B >? Fin 0)%js then plowback_ratio B
           else (Fin 1 - payout_ratio B)%js in
  let g := nmin (roe * b)%js (ke - Fin 0.001)%js in
  let r := ke in
  if (r <=? g)%js || (bvps B <=? Fin 0)%js then (Fin 0, Fin 0)
  else
    let justifiedPB := ((roe - g) / (r - g))%js in
    let pps_jpb := (justifiedPB * bvps B)%js in
    (pps_jpb, justifiedPB).

Definition computePCF (B : Baseline) (medianPcf : number)
    : number * number (* pps_pcf, cfoPerShare *) :=
  if (shares_diluted B <=? Fin 0)%js || (ocf B <=? Fin 0)%js then (Fin 0, Fin 0)
  else
    let cfoPerShare := (ocf B / shares_diluted B)%js in
    let pps_pcf := (medianPcf * cfoPerShare)%js in
    (pps_pcf, cfoPerShare).

Record Segment : Type := {
  seg_revenue : number;
  adj_op_margin : number;
}.

(** The interface [ComputedValuations]; its field names are those of
    the source, inside a module of their own. *)
Module CV.
Record t : Type := {
  pps_fcff : number;
  ev_fcff : number;
  pvFcfs : number;
  pvTv : number;
  pps_fcfe : number;
  ev_fcfe : number;
  pps_ri : number;
  pps_hddm : number;
  pps_jpe : number;
  pps_jpb : number;
  pps_pcf : number;
  wacc_calc : number;
  ke_calc : number;
  kd_after_tax : number;
  pps_ddm : number;
  pps_ebitda : number;
  pps_rev : number;
  pps_pe : number;
  pps_peg : number;
  pps_pb : number;
  pps_sotp : number;
  justifiedPE : number;
  justifiedPB : number;
  cfoPerShare : number;
  riRows : list RIProjectionRow;
  signalRows : list SignalRow;
  finalSignal : Signal;
  buys : nat;
  holds : nat;
  sells : nat;
  medianPE : number;
  medianEvm : number;
  medianEvRev : number;
  medianPeg : number;
  medianPb : number;
  medianPcf : number;
  epsCAGR : number;
  proforma : list ProFormaRow;
  growthSchedule : list number;
  sotvEV : number;
}.
End CV.

(** The peer median of [computeAll]. *)
Definition median (arr : list number) : number :=
  let s := js_sort (fun x y => (x - y)%js) (List.filter isFinite arr) in
  if (length s =? 0)%nat then Fin 0
  else
    let m := (length s / 2)%nat in
    if (length s mod 2 =? 0)%nat
    then ((to_number (arr_get s (Z.of_nat m - 1)) + to_number (arr_get s (Z.of_nat m))) / Fin 2)%js
    else to_number (arr_get s (Z.of_nat m)).

(** The object [counts] of [computeAll], with its keys in insertion
    order: [acc[sig] = (acc[sig] || 0) + 1]. *)
Fixpoint count_bump (sig : Signal) (acc : list (Signal * nat)) : list (Signal * nat) :=
  match acc with
  | [] => [(sig, 1%nat)]
  | (s, n) :: acc' =>
      if decide (s = sig) then (s, S n) :: acc' else (s, n) :: count_bump sig acc'
  end.

Fixpoint count_get (sig : Signal) (acc : list (Signal * nat)) : option nat :=
  match acc with
  | [] => None
  | (s, n) :: acc' => if decide (s = sig) then Some n else count_get sig acc'
  end.

Definition count_votes (rows : list SignalRow) : list (Signal * nat) :=
  fold_left (fun acc r =>
    if decide (signal r = NA) then acc else count_bump (signal r) acc) rows [].

Definition signal_table (B : Baseline) (signalValues : list (string * number)) : list SignalRow :=
  List.map (fun '(method, v) =>
    {| method := method;
       intrinsicValue := v;
       vsMarket :=
         if (current_price B >? Fin 0)%js
         then Some (((v / current_price B) - Fin 1) * Fin 100)%js
         else None;
       signal := assignSignal v (current_price B) |})
    (List.filter (fun '(_, v) => (v >? Fin 0)%js) signalValues).

Section Engine.

(** [x ** y] where [y] is not a finite whole number: the values of
    [Math.pow] there are not rational, and the engine is parametric in
    them. *)
Variable pow_other : number -> number -> number.

Definition npow (x y : number) : number :=
  match y with
  | Fin e =>
      if Qeq_bool (inject_Z (Qfloor e)) e then npow_int x (Qfloor e)
      else pow_other x y
  | _ => pow_other x y
  end.

(** [computeAll]; [None] when it throws (no projection year, so that
    [proforma[proforma.length - 1]] is [undefined], or an array that
    cannot be allocated). *)
Definition computeAll (B : Baseline) (comps : list (string * Comp))
    (segments : list (string * Segment)) (acquisitions : list (string * Acquisition))
    (histEPS : list number) (a : Assumptions) : option CV.t :=
  let compArr := List.map snd comps in
  let medianPE := median (List.map pe compArr) in
  let medianEvm := median (List.map ev_ebitda compArr) in
  let medianEvRev := median (List.map ev_rev compArr) in
  let medianPeg := median (List.map peg compArr) in
  let medianPb := median (List.map pb compArr) in
  let medianPcf := median (List.map (fun c =>
    match pcf c with Some x => x | None => Fin 15 end) compArr) in
  let hist0 := to_number (arr_get histEPS 0) in
  let epsCAGR :=
    if (2 <=? length histEPS)%nat && (hist0 >? Fin 0)%js
    then (npow (to_number (arr_get histEPS (Z.of_nat (length histEPS) - 1)) / hist0)
               (Fin 1 / nmax (of_nat (length histEPS) - Fin 1) (Fin 1)) - Fin 1)%js
    else Fin 0.05 in
  match buildGrowthSchedule a with
  | None => None
  | Some growthSchedule =>
  let proforma := buildProforma B growthSchedule a in
  let fcffs := List.map pf_fcff proforma in
  match arr_get proforma (Z.of_nat (length proforma) - 1) with
  | None => None
  | Some lastRow =>
  let lastEbitda := pf_ebitda lastRow in
  let marketCap := (current_price B * shares_diluted B)%js in
  let w := computeWACC
    (fld_or a "rf" (Fin 0.043))
    (fld_or a "beta" (Fin 1.0))
    (fld_or a "erp" (Fin 0.055))
    (fld_or a "cost_of_debt" (Fin 0.045))
    (fld_or a "tax_rate" (tax_rate B))
    marketCap
    (total_debt B) in
  let wacc_calc := wacc w in
  let ke_calc := ke w in
  let ke := if (ke_calc >? Fin 0)%js then ke_calc else fld a "cost_of_equity" in
  let tvFcff :=
    if (fld a "wacc" >? fld a "terminal_g")%js
    then ((to_number (arr_get fcffs (Z.of_nat (length fcffs) - 1)) * (Fin 1 + fld a "terminal_g"))
          / (fld a "wacc" - fld a "terminal_g"))%js
    else (lastEbitda * fld a "exit_mult")%js in
  let dcf := dcfPrice fcffs tvFcff (fld a "wacc") (net_debt B) (shares_diluted B) in
  let divProj := List.map (fun r =>
    if truthy (shares_diluted B) then (pf_dividends r / shares_diluted B)%js else Fin 0)
    proforma in
  let pvDivs := reduce_i (fun acc d i =>
    (acc + d / npow_int (Fin 1 + fld a "cost_of_equity") (Z.of_nat (i + 1)))%js)
    divProj (Fin 0) in
  let finalDiv :=
    (to_number (arr_get divProj (Z.of_nat (length divProj) - 1)) * (Fin 1 + fld a "terminal_g"))%js in
  let tvDdm :=
    if (fld a "cost_of_equity" >? fld a "terminal_g")%js
    then (finalDiv / (fld a "cost_of_equity" - fld a "terminal_g"))%js
    else Fin 0 in
  let pvTvDdm := (tvDdm / npow (Fin 1 + fld a "cost_of_equity")%js (fld a "proj_years_n"))%js in
  let pps_ddm := if (dps B >? Fin 0)%js then (pvDivs + pvTvDdm)%js else Fin 0 in
  let pps_ebitda :=
    if truthy (shares_diluted B)
    then ((adj_ebitda B * medianEvm - net_debt B) / shares_diluted B)%js else Fin 0 in
  let pps_rev :=
    if truthy (shares_diluted B)
    then ((revenue B * medianEvRev - net_debt B) / shares_diluted B)%js else Fin 0 in
  let pps_pe := (medianPE * adj_eps B)%js in
  let pegGrowth := if (epsCAGR >? Fin 0)%js then epsCAGR else Fin 0.05 in
  let pps_peg := (medianPeg * pegGrowth * Fin 100 * adj_eps B)%js in
  let pps_pb := (medianPb * bvps B)%js in
  let sotvEV :=
    if negb (length acquisitions =? 0)%nat
    then fold_left (fun sum d => (sum + acq_rev d * acq_margin d * acq_mult d)%js)
           (List.map snd acquisitions) (Fin 0)
    else (adj_ebitda B * medianEvm)%js in
  let pps_sotp :=
    if truthy (shares_diluted B)
    then ((sotvEV - net_debt B) / shares_diluted B)%js else Fin 0 in
  let fcfe := computeFCFE proforma B a ke in
  match computeRI B a ke with
  | None => None
  | Some (pps_ri, riRows) =>
  let pps_hddm := computeHModelDDM B a ke in
  let '(pps_jpe, justifiedPE) := computeJustifiedPE B a ke in
  let '(pps_jpb, justifiedPB) := computeJustifiedPB B a ke in
  let '(pps_pcf, cfoPerShare) := computePCF B medianPcf in
  let signalValues : list (string * number) :=
    [ ("FCFF (DCF)", pps dcf);
      ("FCFE (DCF)", pps_fcfe fcfe);
      ("Residual Income", pps_ri);
      ("DDM (2-Stage)", pps_ddm);
      ("H-Model DDM", pps_hddm);
      ("EBITDA Multiple", pps_ebitda);
      ("Revenue Multiple", pps_rev);
      ("P/E Multiple", pps_pe);
      ("Justified P/E", pps_jpe);
      ("Justified P/B", pps_jpb);
      ("PEG", pps_peg);
      ("P/B", pps_pb);
      ("P/CF", pps_pcf);
      ("SOTP", pps_sotp) ] in
  let signalRows := signal_table B signalValues in
  let counts := count_votes signalRows in
  let finalSignal :=
    match js_sort (fun x y => (of_nat (snd y) - of_nat (snd x))%js) counts with
    | (s, _) :: _ => s
    | [] => HOLD
    end in
  Some {|
    CV.pps_fcff := pps dcf; CV.ev_fcff := ev dcf; CV.pvFcfs := pvFcfs dcf; CV.pvTv := pvTv dcf;
    CV.pps_fcfe := pps_fcfe fcfe; CV.ev_fcfe := ev_fcfe fcfe;
    CV.pps_ri := pps_ri; CV.riRows := riRows;
    CV.pps_hddm := pps_hddm;
    CV.pps_jpe := pps_jpe; CV.justifiedPE := justifiedPE;
    CV.pps_jpb := pps_jpb; CV.justifiedPB := justifiedPB;
    CV.pps_pcf := pps_pcf; CV.cfoPerShare := cfoPerShare;
    CV.wacc_calc := wacc_calc; CV.ke_calc := ke_calc; CV.kd_after_tax := kd_after_tax w;
    CV.pps_ddm := pps_ddm; CV.pps_ebitda := pps_ebitda; CV.pps_rev := pps_rev;
    CV.pps_pe := pps_pe; CV.pps_peg := pps_peg; CV.pps_pb := pps_pb; CV.pps_sotp := pps_sotp;
    CV.signalRows := signalRows; CV.finalSignal := finalSignal;
    CV.buys := default 0%nat (count_get BUY counts);
    CV.holds := default 0%nat (count_get HOLD counts);
    CV.sells := default 0%nat (count_get SELL counts);
    CV.medianPE := medianPE; CV.medianEvm := medianEvm; CV.medianEvRev := medianEvRev;
    CV.medianPeg := medianPeg; CV.medianPb := medianPb; CV.medianPcf := medianPcf;
    CV.epsCAGR := epsCAGR; CV.proforma := proforma; CV.growthSchedule := growthSchedule;
    CV.sotvEV := sotvEV |}
  end end end.

End Engine.

(** ** The blended summary of the dashboard
    ([components/valuation/ValuationDashboard.tsx], [summaryData]) *)

Record SummaryData : Type := {
  sd_intrinsicValue : number;
  sd_marketPrice : number;
  sd_upsidePercent : number;
  sd_dcf : number;
  sd_multiplesAvg : number;
}.

Definition summaryData (B : Baseline) (computed : CV.t) : SummaryData :=
  let multiplesAvg :=
    (fold_left (fun a b => a + b)
       [CV.pps_ebitda computed; CV.pps_rev computed; CV.pps_pe computed;
        CV.pps_peg computed; CV.pps_pb computed] (Fin 0) / Fin 5)%js in
  let intrinsic :=
    (CV.pps_fcff computed * Fin 0.35 + multiplesAvg * Fin 0.45
     + CV.pps_sotp computed * Fin 0.20)%js in
  let upsidePct :=
    if (current_price B >? Fin 0)%js
    then (((intrinsic / current_price B) - Fin 1) * Fin 100)%js else Fin 0 in
  {| sd_intrinsicValue := intrinsic;
     sd_marketPrice := current_price B;
     sd_upsidePercent := upsidePct;
     sd_dcf := CV.pps_fcff computed;
     sd_multiplesAvg := multiplesAvg |}.

(** ** The annual-entry filter ([lib/valuation/edgarXbrl.ts]) *)

(** [XbrlUnit]; the optional fields are options, and the field [end]
    is spelled [end_]. *)
Record XbrlUnit : Type := {
  accn : string;
  cik : number;
  entityName : string;
  loc : string;
  end_ : string;
  val : number;
  form : option string;
  filed : option string;
  fy : option jsval;
  fp : option string;
  frame : option string;
  start : option string;
}.

(** Truthiness of an optional string: [undefined] and [""] are falsy. *)
Definition str_truthy (o : option string) : bool :=
  match o with
  | Some s => negb (String.eqb s "")
  | None => false
  end.

(** [s > t] on strings (lexicographic on the character codes). *)
Definition str_gt (s t : string) : bool :=
  match String.compare s t with Gt => true | _ => false end.

Definition isAnnualForm (form : option string) : bool :=
  match form with
  | Some f =>
      String.eqb f "10-K" || String.eqb f "10-K/A" || String.eqb f "20-F" || String.eqb f "40-F"
  | None => false
  end.

(** A JavaScript [Map] keyed by strings, in insertion order: [set] on
    a key that is present replaces the value in place. *)
Fixpoint map_get {V : Type} (k : string) (m : list (string * V)) : option V :=
  match m with
  | [] => None
  | (k', v) :: m' => if String.eqb k' k then Some v else map_get k m'
  end.

Fixpoint map_set {V : Type} (k : string) (v : V) (m : list (string * V)) : list (string * V) :=
  match m with
  | [] => [(k, v)]
  | (k', v') :: m' => if String.eqb k' k then (k', v) :: m' else (k', v') :: map_set k v m'
  end.

Section Xbrl.

(** [new Date(s).getTime()]: milliseconds since the epoch, [NaN] for
    a text that is not a date. *)
Variable date_getTime : string -> number.

(** [s.localeCompare(t)] *)
Variable localeCompare : string -> string -> number.

(** The duration in days between [v.start] and [v.end]. *)
Definition duration_days (v : XbrlUnit) : number :=
  ((date_getTime (end_ v) - date_getTime (default "" (start v))) / Fin 86400000)%js.

(** The predicate of the [filter] in [pickAnnual]. *)
Definition annual_entry (v : XbrlUnit) : bool :=
  if negb (isAnnualForm (form v)) then false
  else if negb (str_truthy (start v)) || negb (str_truthy (Some (end_ v))) then false
  else
    let days := duration_days v in
    (days >=? Fin 300)%js && (days <=? Fin 400)%js.

(** [entry.filed ?? ""] *)
Definition filed_or_empty (entry : XbrlUnit) : string := default "" (filed entry).

(** One step of the deduplication loop of [pickAnnual]. *)
Definition dedup_step (byYearEnd : list (string * XbrlUnit)) (entry : XbrlUnit)
    : list (string * XbrlUnit) :=
  match map_get (end_ entry) byYearEnd with
  | None => map_set (end_ entry) entry byYearEnd
  | Some existing =>
      if str_gt (filed_or_empty entry) (filed_or_empty existing)
      then map_set (end_ entry) entry byYearEnd
      else byYearEnd
  end.

Definition pickAnnual (values : list XbrlUnit) : list XbrlUnit :=
  let annuals := List.filter annual_entry values in
  let byYearEnd := fold_left dedup_step annuals [] in
  js_sort (fun a b => localeCompare (end_ a) (end_ b)) (List.map snd byYearEnd).

End Xbrl.

(** An instance of the date parser on the texts [YYYY-MM-DD] (read as
    midnight UTC), used for the worked examples. *)
Definition digit_of (c : ascii) : option Z :=
  let n := Z.of_N (N_of_ascii c) in
  if (48 <=? n)%Z && (n <=? 57)%Z then Some (n - 48)%Z else None.

Definition days_from_civil (y m d : Z) : Z :=
  let y' := if (m <=? 2)%Z then (y - 1)%Z else y in
  let era := (y' / 400)%Z in
  let yoe := (y' - era * 400)%Z in
  let mp := if (m >? 2)%Z then (m - 3)%Z else (m + 9)%Z in
  let doy := ((153 * mp + 2) / 5 + d - 1)%Z in
  let doe := (yoe * 365 + yoe / 4 - yoe / 100 + doy)%Z in
  (era * 146097 + doe - 719468)%Z.

Definition iso_getTime (s : string) : number :=
  match list_ascii_of_string s with
  | [y1; y2; y3; y4; "-"%char; m1; m2; "-"%char; d1; d2] =>
      match digit_of y1, digit_of y2, digit_of y3, digit_of y4,
            digit_of m1, digit_of m2, digit_of d1, digit_of d2 with
      | Some a, Some b, Some c, Some d, Some e, Some f, Some g, Some h =>
          let y := (a * 1000 + b * 100 + c * 10 + d)%Z in
          let m := (e * 10 + f)%Z in
          let dd := (g * 10 + h)%Z in
          if (1 <=? m)%Z && (m <=? 12)%Z && (1 <=? dd)%Z && (dd <=? 31)%Z
          then Fin (inject_Z (days_from_civil y m dd * 86400000))
          else NaN
      | _, _, _, _, _, _, _, _ => NaN
      end
  | _ => NaN
  end.

(** An instance of the comparator: the order of the character codes. *)
Definition code_compare (s t : string) : number :=
  match String.compare s t with
  | Lt => Fin (-1)
  | Eq => Fin 0
  | Gt => Fin 1
  end.

(** ** Scenario presets and the scenario state
    (the presets module and [context/ScenarioContext.tsx]) *)

Inductive ScenarioKey : Type := Base | Bull | Bear.

Definition scenario_label (s : ScenarioKey) : string :=
  match s with Base => "Base" | Bull => "Bull" | Bear => "Bear" end.

(** An object literal: later entries of the same key win. *)
Definition obj (fields : list (string * jsval)) : gmap string jsval :=
  list_to_map (rev fields).

Definition SCENARIO_PRESETS (s : ScenarioKey) : gmap string jsval :=
  match s with
  | Base => obj
      [ ("yr1_g", JNum (Fin 0.025));
        ("yr2_g", JNum (Fin 0.035));
        ("yr3_g", JNum (Fin 0.040));
        ("lt_g", JNum (Fin 0.030));
        ("terminal_g", JNum (Fin 0.025));
        ("wacc", JNum (Fin 0.085));
        ("cost_of_equity", JNum (Fin 0.085));
        ("target_ebitda_m", JNum (Fin 0.270));
        ("capex_pct", JNum (Fin 0.025));
        ("exit_mult", JNum (Fin 14.0));
        ("beta", JNum (Fin 1.0));
        ("tax_rate", JNum (Fin 0.21));
        ("rf", JNum (Fin 0.043));
        ("erp", JNum (Fin 0.055));
        ("cost_of_debt", JNum (Fin 0.045));
        ("hl", JNum (Fin 2.5)) ]
  | Bull => obj
      [ ("yr1_g", JNum (Fin 0.045));
        ("yr2_g", JNum (Fin 0.055));
        ("yr3_g", JNum (Fin 0.060));
        ("lt_g", JNum (Fin 0.045));
        ("terminal_g", JNum (Fin 0.030));
        ("wacc", JNum (Fin 0.075));
        ("cost_of_equity", JNum (Fin 0.075));
        ("target_ebitda_m", JNum (Fin 0.300));
        ("capex_pct", JNum (Fin 0.020));
        ("exit_mult", JNum (Fin 17.0));
        ("beta", JNum (Fin 0.85));
        ("tax_rate", JNum (Fin 0.21));
        ("rf", JNum (Fin 0.043));
        ("erp", JNum (Fin 0.055));
        ("cost_of_debt", JNum (Fin 0.040));
        ("hl", JNum (Fin 2.5)) ]
  | Bear => obj
      [ ("yr1_g", JNum (Fin 0.005));
        ("yr2_g", JNum (Fin 0.010));
        ("yr3_g", JNum (Fin 0.020));
        ("lt_g", JNum (Fin 0.020));
        ("terminal_g", JNum (Fin 0.020));
        ("wacc", JNum (Fin 0.100));
        ("cost_of_equity", JNum (Fin 0.100));
        ("target_ebitda_m", JNum (Fin 0.230));
        ("capex_pct", JNum (Fin 0.030));
        ("exit_mult", JNum (Fin 11.0));
        ("beta", JNum (Fin 1.2));
        ("tax_rate", JNum (Fin 0.21));
        ("rf", JNum (Fin 0.043));
        ("erp", JNum (Fin 0.055));
        ("cost_of_debt", JNum (Fin 0.050));
        ("hl", JNum (Fin 2.5)) ]
  end.

(** [{ ...lower, ...upper }]: the fields of [upper] win. *)
Definition spread (lower upper : gmap string jsval) : gmap string jsval := upper ∪ lower.

Definition DEFAULT_ASSUMPTIONS : Assumptions :=
  spread (SCENARIO_PRESETS Base)
    (obj [ ("scenario", JStr "Base");
           ("proj_years_n", JNum (Fin 5));
           ("n_sims", JNum (Fin 5000));
           ("ddm_g", JNum (Fin 0.035)) ]).

(** The state update of [applyScenario]:
    [{ ...prev, ...SCENARIO_PRESETS[s], scenario: s }]. *)
Definition applyScenario (prev : Assumptions) (s : ScenarioKey) : Assumptions :=
  <["scenario" := JStr (scenario_label s)]> (spread prev (SCENARIO_PRESETS s)).

(** The state update of [setAssumption]: [{ ...prev, [key]: value }]. *)
Definition setAssumption (prev : Assumptions) (key : string) (value : jsval) : Assumptions :=
  <[key := value]> prev.

(** ** The present-value formulas as the specification words them

    The discount factor of the 1-indexed year [i] is [1 / (1 + r) ^ i],
    and the present value of the explicit cashflows is the sum of each
    cashflow times the factor of its year, added up from the first
    year on. *)

Definition spec_discount_factor (r : number) (i : nat) : number :=
  (Fin 1 / npow_int (Fin 1 + r) (Z.of_nat i))%js.

Fixpoint spec_pv_from (r : number) (year : nat) (cfs : list number) (acc : number) : number :=
  match cfs with
  | [] => acc
  | cf :: rest =>
      spec_pv_from r (S year) rest (acc + cf * spec_discount_factor r year)%js
  end.

Definition spec_pv_cashflows (r : number) (cfs : list number) : number :=
  spec_pv_from r 1 cfs (Fin 0).

(** [min(x, ke - 0.001)] on rationals: the growth rate of
    [computeJustifiedPE] after its cap. *)
Definition capped_growth (x ke : Q) : Q :=
  (if Qltb (ke - 0.001) x then ke - 0.001 else x)%Q.

(** ** The invariant of the deduplication loop of [pickAnnual]

    After the entries [seen] have gone through the loop, the map has
    one binding per period end, every binding holds an entry of [seen]
    under its own period end, and every entry of [seen] finds a binding
    for its period end whose entry was filed no earlier. *)
Definition dedup_inv (seen : list XbrlUnit) (m : list (string * XbrlUnit)) : Prop :=
  List.NoDup (List.map fst m) /\
  (forall k v, In (k, v) m -> end_ v = k /\ In v seen) /\
  (forall e, In e seen ->
     exists v, In (end_ e, v) m /\ str_gt (filed_or_empty e) (filed_or_empty v) = false).

(** Filings for the worked examples: a 10-K for the calendar year
    [y]-01-01 to [y]-12-31 with a value and a filing date, an amended
    filing, and a quarterly 10-Q. *)
Definition annualEntry (v : Q) (y_start y_end : string) (form0 filed0 : string) : XbrlUnit := {|
  accn := "0001234562023"; cik := Fin 12345; entityName := "Test Corp"; loc := "US-DE";
  end_ := y_end; val := Fin v; form := Some form0; filed := Some filed0;
  fy := None; fp := None; frame := None; start := Some y_start |}.

(** Four filings for the period ending 2023-12-31: a 10-Q for the
    full year, a 10-K for the second half only, and two 10-K filings
    for the full year, the second filed later. *)
Definition filings_2023 : list XbrlUnit :=
  [ annualEntry 250000 "2023-01-01" "2023-12-31" "10-Q" "2024-01-10";
    annualEntry 400000 "2023-07-01" "2023-12-31" "10-K" "2024-01-12";
    annualEntry 900000 "2023-01-01" "2023-12-31" "10-K" "2024-01-15";
    annualEntry 1000000 "2023-01-01" "2023-12-31" "10-K" "2024-02-28" ].

(** ** The FCFF valuation on rationals

    The formulas of [buildGrowthSchedule], [buildProforma] and
    [dcfPrice] written over the rationals.  The theorems below show
    that the code computes these values on finite inputs, and compare
    them between scenario presets. *)

(** The growth rate of projection year [i] (from 0) for the inputs
    [yr1_g], [yr2_g], [yr3_g], [lt_g] and [proj_years_n]. *)
Definition growth_rate_q (y1 y2 y3 lt p : Q) (i : nat) : Q :=
  if (i =? 0)%nat then y1
  else if (i =? 1)%nat then y2
  else if (i =? 2)%nat then y3
  else
    (y3 + (inject_Z (Z.of_nat i) - 2) / (if Qltb (p - 3) 1 then 1 else p - 3) * (lt - y3))%Q.

(** Compounding: the product of [1 + g] over the rates, times [acc]. *)
Definition compound_q (gs : list Q) (acc : Q) : Q :=
  fold_left (fun acc g => acc * (1 + g))%Q gs acc.

(** The FCFF of a year whose revenue is [rev], with the baseline
    figures [R] (revenue), [C] (COGS), [S] (SG&A), [D] (D&A), the tax
    rate [T] and the CapEx share [cx]. *)
Definition fcff_q (R C S D T cx rev : Q) : Q :=
  ((rev - rev * (C / R) - rev * (S / R)) * (1 - T) + rev * (D / R) - rev * cx)%Q.

(** The free cash flow per unit of revenue. *)
Definition fcff_margin_q (R C S D T cx : Q) : Q :=
  ((1 - C / R - S / R) * (1 - T) + D / R - cx)%Q.

(** The discount factor of the 1-indexed year [y]. *)
Definition df_q (r : Q) (y : nat) : Q := (1 / Qpower (1 + r) (Z.of_nat y))%Q.

(** The present value of cashflows from year [y] on, added to [acc]. *)
Fixpoint pv_q (r : Q) (y : nat) (cfs : list Q) (acc : Q) : Q :=
  match cfs with
  | [] => acc
  | cf :: rest => pv_q r (S y) rest (acc + cf * df_q r y)%Q
  end.

(** The FCFF price per share on rationals: the present value of the
    cashflows [fs] at the rate [w], plus the discounted Gordon terminal
    value of the last cashflow at the terminal growth [g], less the net
    debt [nd], per share. *)
Definition fcff_price_q (fs : list Q) (g w nd sh : Q) : Q :=
  ((pv_q w 1 fs 0 + List.last fs 0 * (1 + g) / (w - g) * df_q w (length fs) - nd) / sh)%Q.

(** The FCFF block of [computeAll]: the terminal value and the call
    of [dcfPrice], for a given pro-forma and final-year EBITDA. *)
Definition fcff_dcf (B : Baseline) (a : Assumptions) (proforma : list ProFormaRow)
    (lastEbitda : number) : DcfResult :=
  let fcffs := List.map pf_fcff proforma in
  let tvFcff :=
    if (fld a "wacc" >? fld a "terminal_g")%js
    then ((to_number (arr_get fcffs (Z.of_nat (length fcffs) - 1)) * (Fin 1 + fld a "terminal_g"))
          / (fld a "wacc" - fld a "terminal_g"))%js
    else (lastEbitda * fld a "exit_mult")%js in
  dcfPrice fcffs tvFcff (fld a "wacc") (net_debt B) (shares_diluted B).

(** The number of rows of a signal table that carry the signal [s]. *)
Definition count_signal (s : Signal) (rows : list SignalRow) : nat :=
  length (List.filter (fun r => bool_decide (signal r = s)) rows).

(** The votes that a result of [computeAll] reports for a signal
    (["N/A"] is never counted). *)
Definition votes (cv : CV.t) (s : Signal) : nat :=
  match s with
  | BUY => CV.buys cv
  | HOLD => CV.holds cv
  | SELL => CV.sells cv
  | NA => 0%nat
  end.

(** The fourteen model values of a result, under the names and in
    the order of [signalValues] in [computeAll]. *)
Definition model_values (cv : CV.t) : list (string * number) :=
  [ ("FCFF (DCF)", CV.pps_fcff cv); ("FCFE (DCF)", CV.pps_fcfe cv);
    ("Residual Income", CV.pps_ri cv); ("DDM (2-Stage)", CV.pps_ddm cv);
    ("H-Model DDM", CV.pps_hddm cv); ("EBITDA Multiple", CV.pps_ebitda cv);
    ("Revenue Multiple", CV.pps_rev cv); ("P/E Multiple", CV.pps_pe cv);
    ("Justified P/E", CV.pps_jpe cv); ("Justified P/B", CV.pps_jpb cv);
    ("PEG", CV.pps_peg cv); ("P/B", CV.pps_pb cv);
    ("P/CF", CV.pps_pcf cv); ("SOTP", CV.pps_sotp cv) ].

(** The rows that the loop of [computeRI] pushes from year index [k]
    on, when it enters the year with the book value [bv] and the
    earnings [ep] per share: the loop written as a recursive function. *)
Fixpoint ri_rows_from (ke plowback : number) (k : nat) (bv ep : number) (gs : list number)
    : list RIProjectionRow :=
  match gs with
  | [] => []
  | g :: gs' =>
      let ep' := (ep * (Fin 1 + g))%js in
      {| ri_year := (Fin 2025 + of_nat k)%js;
         bvps_start := bv;
         eps_proj := ep';
         required_return := (ke * bv)%js;
         ri := (ep' - ke * bv)%js;
         pv_ri := ((ep' - ke * bv) / npow_int (Fin 1 + ke) (Z.of_nat (k + 1)))%js |}
      :: ri_rows_from ke plowback (S k) (bv + ep' * plowback)%js ep' gs'
  end.

(** A list of numbers in ascending order. *)
Fixpoint ascending (l : list number) : Prop :=
  match l with
  | [] => True
  | x :: l' => List.Forall (fun y => (x <=? y)%js = true) l' /\ ascending l'
  end.

(** ** The headline signal of the dashboard
    ([components/ui/infinite-slider.tsx], [ValuationDashboard.tsx]) *)

(** [deriveSummarySignal]; its result type [SummarySignal] is [Signal]
    without ["N/A"]. *)
Definition deriveSummarySignal (upsidePct : number) : Signal :=
  if (upsidePct >? Fin 15)%js then BUY
  else if (upsidePct <? Fin (-10))%js then SELL
  else HOLD.

(** The field [signal] of the summary of the dashboard. *)
Definition summarySignal (B : Baseline) (computed : CV.t) : Signal :=
  deriveSummarySignal (sd_upsidePercent (summaryData B computed)).

(** ** Concepts and series ([lib/valuation/edgarXbrl.ts]) *)

(** [XbrlConcept]: [units] maps the name of a unit to its entries. *)
Record XbrlConcept : Type := {
  label : string;
  description : string;
  units : gmap string (list XbrlUnit);
}.

Section XbrlSeries.

Variable date_getTime : string -> number.
Variable localeCompare : string -> string -> number.

(** [firstConcept]: the loop over [names], with [continue] as the
    recursive call on the remaining names. *)
Fixpoint firstConcept (gaap : gmap string XbrlConcept) (names : list string) (unit : string)
    : list XbrlUnit :=
  match names with
  | [] => []
  | name :: names' =>
      match gaap !! name with
      | None => firstConcept gaap names' unit
      | Some concept =>
          match units concept !! unit with
          | None => firstConcept gaap names' unit
          | Some vals =>
              if (length vals =? 0)%nat then firstConcept gaap names' unit
              else
                let annual := pickAnnual date_getTime localeCompare vals in
                if (0 <? length annual)%nat then annual
                else firstConcept gaap names' unit
          end
      end
  end.

End XbrlSeries.

(** A list in the order of a JavaScript comparator: no entry compares
    above ([> 0]) an entry behind it. *)
Fixpoint sorted_by {A : Type} (cmp : A -> A -> number) (l : list A) : Prop :=
  match l with
  | [] => True
  | x :: l' => List.Forall (fun y => (cmp x y >? Fin 0)%js = false) l' /\ sorted_by cmp l'
  end.

(** Three annual filings, the latest year first. *)
Definition filings_by_year : list XbrlUnit :=
  [ annualEntry 3600000 "2023-01-01" "2023-12-31" "10-K" "2024-02-15";
    annualEntry 3000000 "2021-01-01" "2021-12-31" "10-K" "2022-02-15";
    annualEntry 3300000 "2022-01-01" "2022-12-31" "10-K" "2023-02-15" ].

(** [Math.abs] *)
Definition nabs (x : number) : number :=
  match x with
  | Fin q => Fin (Qabs q)
  | PInf | NInf => PInf
  | NaN => NaN
  end.

(** [x !== y] on numbers: [NaN] differs from every number, itself
    included. *)
Definition strict_ne (x y : number) : bool :=
  match x, y with
  | Fin a, Fin b => negb (Qeq_bool a b)
  | PInf, PInf | NInf, NInf => false
  | _, _ => true
  end.

Section XbrlAlign.

Variable date_getTime : string -> number.

(** [candidates.sort(cmp)] in [pickInstant].  The comparator there
    never answers [0], so it is not a consistent comparator and
    ECMAScript leaves the order of the result to the engine: the sort
    is a parameter, of which the theorems assume only that it reorders
    its array. *)
Variable sort_with : (XbrlUnit -> XbrlUnit -> number) -> list XbrlUnit -> list XbrlUnit.

(** The distance in milliseconds between the period end of [v] and
    the date [target]. *)
Definition end_diff (target : number) (v : XbrlUnit) : number :=
  nabs (date_getTime (end_ v) - target)%js.

(** The predicate of the [filter] in [pickInstant]. *)
Definition instant_candidate (fyDate : number) (v : XbrlUnit) : bool :=
  if negb (isAnnualForm (form v)) then false
  else if negb (str_truthy (Some (end_ v))) then false
  else (end_diff fyDate v <=? Fin 7 * Fin 86400000)%js.

(** [{ ...c, end: fyEnd }] *)
Definition with_end (c : XbrlUnit) (fyEnd : string) : XbrlUnit :=
  {| accn := accn c; cik := cik c; entityName := entityName c; loc := loc c;
     end_ := fyEnd; val := val c; form := form c; filed := filed c;
     fy := fy c; fp := fp c; frame := frame c; start := start c |}.

(** The zero placeholder of [pickInstant]. *)
Definition placeholder (fyEnd : string) : XbrlUnit :=
  {| accn := ""; cik := Fin 0; entityName := ""; loc := "";
     end_ := fyEnd; val := Fin 0; form := None; filed := None;
     fy := None; fp := None; frame := None; start := None |}.

Definition pickInstant (values : list XbrlUnit) (fyEnds : list string) : list XbrlUnit :=
  List.map (fun fyEnd =>
    let fyDate := date_getTime fyEnd in
    let candidates := List.filter (instant_candidate fyDate) values in
    if (0 <? length candidates)%nat then
      let sorted := sort_with (fun a b =>
        if str_gt (filed_or_empty b) (filed_or_empty a) then Fin 1 else Fin (-1)) candidates in
      match sorted with
      | c :: _ => with_end c fyEnd
      | [] => placeholder fyEnd
      end
    else placeholder fyEnd) fyEnds.

Fixpoint firstConceptInstant (gaap : gmap string XbrlConcept) (names : list string)
    (fyEnds : list string) (unit : string) : list number :=
  match names with
  | [] => List.map (fun _ => Fin 0) fyEnds
  | name :: names' =>
      match gaap !! name with
      | None => firstConceptInstant gaap names' fyEnds unit
      | Some concept =>
          match units concept !! unit with
          | None => firstConceptInstant gaap names' fyEnds unit
          | Some vals =>
              if (length vals =? 0)%nat then firstConceptInstant gaap names' fyEnds unit
              else
                let instant := pickInstant vals fyEnds in
                if existsb (fun v => strict_ne (val v) (Fin 0)) instant
                then List.map val instant
                else firstConceptInstant gaap names' fyEnds unit
          end
      end
  end.

(** The variables that the loop of [alignToMaster] updates. *)
Record AlignLoop : Type := {
  closest : option XbrlUnit;
  minDiff : number;
}.

Definition align_step (target tolerance : number) (st : AlignLoop) (v : XbrlUnit) : AlignLoop :=
  let diff := end_diff target v in
  if (diff <? minDiff st)%js && (diff <=? tolerance * Fin 86400000)%js
  then {| closest := Some v; minDiff := diff |}
  else st.

(** [alignToMaster] of [fetchXbrlFundamentals], with the dates of the
    master timeline as a parameter. *)
Definition alignToMaster (masterDates : list string) (arr : list XbrlUnit) (tolerance : number)
    : list number :=
  List.map (fun d =>
    let target := date_getTime d in
    let st := fold_left (align_step target tolerance) arr
                {| closest := None; minDiff := PInf |} in
    match closest st with
    | Some c => val c
    | None => Fin 0
    end) masterDates.

End XbrlAlign.

(** What the loop of [alignToMaster] knows after the entries [seen]:
    no entry seen is closer to the target than the closest one, which
    is within the tolerance, and the entries seen before it that are
    within the tolerance are strictly farther. *)
Definition align_inv (date_getTime : string -> number) (target : number) (t : Q)
    (seen : list XbrlUnit) (st : AlignLoop) : Prop :=
  match closest st with
  | None =>
      minDiff st = PInf /\
      forall w, In w seen -> (end_diff date_getTime target w <=? Fin t * Fin 86400000)%js = false
  | Some c =>
      minDiff st = end_diff date_getTime target c /\
      (end_diff date_getTime target c <=? Fin t * Fin 86400000)%js = true /\
      (forall w, In w seen ->
         (end_diff date_getTime target w <? end_diff date_getTime target c)%js = false) /\
      exists pre post, seen = pre ++ c :: post /\
        forall w, In w pre ->
          (end_diff date_getTime target w <=? Fin t * Fin 86400000)%js = true ->
          (end_diff date_getTime target c <? end_diff date_getTime target w)%js = true
  end.

(** The ratios that [fetchXbrlFundamentals] derives for the current
    period: the tax rate, the payout ratio and the book value per
    share of each year. *)
Definition tax_rate_curr (ebit_curr int_curr tax_curr : number) : number :=
  let pretaxApprox := (ebit_curr - int_curr)%js in
  if (pretaxApprox >? Fin 0)%js
  then nmin (Fin 0.5) (nmax (Fin 0) (tax_curr / pretaxApprox)%js)
  else Fin 0.21.

Definition payout_curr (eps_curr dps_curr : number) : number :=
  if (eps_curr >? Fin 0)%js && (dps_curr >? Fin 0)%js
  then nmin (Fin 1) (dps_curr / eps_curr)%js
  else Fin 0.

Definition bvpsVals (equityVals sdDilVals sharesInstVals : list number) : list number :=
  map_i (fun eq i =>
    let sdDil := to_number (arr_get sdDilVals (Z.of_nat i)) in
    let sharesInst := to_number (arr_get sharesInstVals (Z.of_nat i)) in
    let sh := if truthy sdDil then sdDil else if truthy sharesInst then sharesInst else Fin 1 in
    if (sh >? Fin 0)%js then (eq / sh)%js else Fin 0) equityVals.

(** Entries for the worked examples of the alignment: an annual
    figure and two balance-sheet figures close to the end of 2023. *)
Definition instantEntry (v : Q) (e filed0 : string) : XbrlUnit := {|
  accn := "0001234562023"; cik := Fin 12345; entityName := "Test Corp"; loc := "US-DE";
  end_ := e; val := Fin v; form := Some "10-K"; filed := Some filed0;
  fy := None; fp := None; frame := None; start := None |}.

(** ** Sample inputs for the worked examples *)

(** A company with revenue 1000, an EBITDA margin of 35%, 100 diluted
    shares quoted at 30, and a book value of 12 per share. *)
Definition sampleBaseline : Baseline := {|
  revenue := Fin 1000; cogs := Fin 500; sga := Fin 200; da_total := Fin 50;
  interest_expense := Fin 20; ebitda_margin := Fin 0.35; tax_rate := Fin 0.21;
  payout_ratio := Fin 0.5; plowback_ratio := Fin 0.5; net_borrowing := Fin 0;
  shares_diluted := Fin 100; net_debt := Fin 200; total_debt := Fin 300;
  current_price := Fin 30; eps := Fin 2; adj_eps := Fin 2; dps := Fin 1;
  bvps := Fin 12; roe := Fin 0.2; ocf := Fin 250; adj_ebitda := Fin 350 |}.

(** The same company with another book value per share and another
    diluted share count. *)
Definition sampleWith (bvps0 shares0 : number) : Baseline := {|
  revenue := revenue sampleBaseline; cogs := cogs sampleBaseline;
  sga := sga sampleBaseline; da_total := da_total sampleBaseline;
  interest_expense := interest_expense sampleBaseline;
  ebitda_margin := ebitda_margin sampleBaseline; tax_rate := tax_rate sampleBaseline;
  payout_ratio := payout_ratio sampleBaseline;
  plowback_ratio := plowback_ratio sampleBaseline;
  net_borrowing := net_borrowing sampleBaseline;
  shares_diluted := shares0; net_debt := net_debt sampleBaseline;
  total_debt := total_debt sampleBaseline; current_price := current_price sampleBaseline;
  eps := eps sampleBaseline; adj_eps := adj_eps sampleBaseline; dps := dps sampleBaseline;
  bvps := bvps0; roe := roe sampleBaseline; ocf := ocf sampleBaseline;
  adj_ebitda := adj_ebitda sampleBaseline |}.

(** One peer with every multiple quoted. *)
Definition sampleComps : list (string * Comp) :=
  [("PEER", {| ev_ebitda := Fin 10; ev_rev := Fin 2; pe := Fin 15;
               peg := Fin 1.5; pb := Fin 3; pcf := None |})].

(** * Facts about the number model *)

Section NumberFacts.

Lemma Qltb_lt (a b : Q) : Qltb a b = true <-> (a < b)%Q.
Proof.
  unfold Qltb. rewrite negb_true_iff. split.
  - intros H. apply Qnot_le_lt. intros Hle.
    apply Qle_bool_iff in Hle. congruence.
  - intros H. destruct (Qle_bool b a) eqn:E; [|reflexivity].
    apply Qle_bool_iff in E. exfalso. exact (Qlt_not_le _ _ H E).
Qed.

Lemma Qltb_ge (a b : Q) : Qltb a b = false <-> (b <= a)%Q.
Proof.
  unfold Qltb. rewrite negb_false_iff. apply Qle_bool_iff.
Qed.

Lemma Qle_bool_gt (a b : Q) : Qle_bool a b = false <-> (b < a)%Q.
Proof.
  rewrite <- Qltb_lt. unfold Qltb. destruct (Qle_bool a b); simpl; intuition congruence.
Qed.

Lemma Qis0_true (a : Q) : Qis0 a = true <-> (a == 0)%Q.
Proof. apply Qeq_bool_iff. Qed.

Lemma Qis0_false (a : Q) : Qis0 a = false <-> ~ (a == 0)%Q.
Proof.
  unfold Qis0. split.
  - intros H E. apply Qeq_bool_iff in E. congruence.
  - intros H. destruct (Qeq_bool a 0) eqn:E; [|reflexivity].
    apply Qeq_bool_iff in E. contradiction.
Qed.

Lemma ndiv_fin (a b : Q) : ~ (b == 0)%Q -> (Fin a / Fin b)%js = Fin (a / b).
Proof. intros H. simpl. apply Qis0_false in H. rewrite H. reflexivity. Qed.

Lemma nlt_fin (a b : Q) : (Fin a <? Fin b)%js = true <-> (a < b)%Q.
Proof. apply Qltb_lt. Qed.

Lemma nle_fin (a b : Q) : (Fin a <=? Fin b)%js = true <-> (a <= b)%Q.
Proof. apply Qle_bool_iff. Qed.

Lemma nlt_fin_false (a b : Q) : (Fin a <? Fin b)%js = false <-> (b <= a)%Q.
Proof. apply Qltb_ge. Qed.

Lemma nle_fin_false (a b : Q) : (Fin a <=? Fin b)%js = false <-> (b < a)%Q.
Proof. apply Qle_bool_gt. Qed.

Lemma num_eq_refl (x : number) : x =n= x.
Proof. destruct x; simpl; auto. reflexivity. Qed.

Lemma num_eqb_eq (x y : number) : num_eqb x y = true <-> x =n= y.
Proof.
  destruct x, y; simpl; try (split; [discriminate | contradiction]); try tauto.
  apply Qeq_bool_iff.
Qed.

Lemma nadd_fin (a b : Q) : (Fin a + Fin b)%js = Fin (a + b).
Proof. reflexivity. Qed.

Lemma nsub_fin (a b : Q) : (Fin a - Fin b)%js = Fin (a - b).
Proof. reflexivity. Qed.

Lemma nmul_fin (a b : Q) : (Fin a * Fin b)%js = Fin (a * b).
Proof. reflexivity. Qed.

Lemma nmin_fin (a b : Q) : nmin (Fin a) (Fin b) = Fin (if Qltb b a then b else a).
Proof. unfold nmin, nlt. destruct (Qltb b a); reflexivity. Qed.

Lemma nmax_fin (a b : Q) : nmax (Fin a) (Fin b) = Fin (if Qltb a b then b else a).
Proof. unfold nmax, nlt. destruct (Qltb a b); reflexivity. Qed.

Lemma if_fin (c : bool) (a b : Q) : (if c then Fin a else Fin b) = Fin (if c then a else b).
Proof. destruct c; reflexivity. Qed.

Lemma nlt_irrefl (x : number) : (x <? x)%js = false.
Proof.
  destruct x; simpl; auto. apply Qltb_ge. apply Qle_refl.
Qed.

End NumberFacts.

(** * Signal classification *)

Lemma assignSignal_market_pos (intrinsic market : number) :
  (market >? Fin 0)%js = true ->
  assignSignal intrinsic market =
    if (intrinsic >? market * Fin 1.15)%js then BUY
    else if (intrinsic <? market * Fin 0.85)%js then SELL else HOLD.
Proof.
  intros Hm. unfold assignSignal.
  destruct market as [m| | |]; simpl in Hm; try discriminate.
  - apply Qltb_lt in Hm.
    assert (H0 : Qis0 m = false) by (apply Qis0_false; lra).
    assert (H1 : Qle_bool m 0 = false) by (apply Qle_bool_gt; lra).
    simpl. rewrite H0, H1. reflexivity.
  - reflexivity.
Qed.

(** Above a positive market price the BUY band and the SELL band are disjoint. *)
Lemma bands_disjoint (intrinsic market : number) :
  (market >? Fin 0)%js = true ->
  (intrinsic >? market * Fin 1.15)%js = true ->
  (intrinsic <? market * Fin 0.85)%js = false.
Proof.
  intros Hm Hb.
  destruct market as [m| | |]; simpl in Hm; try discriminate.
  - apply Qltb_lt in Hm.
    destruct intrinsic as [v| | |]; simpl in *; try reflexivity; try discriminate.
    apply Qltb_lt in Hb. apply Qltb_ge. nra.
  - destruct intrinsic; simpl in *; try reflexivity; discriminate.
Qed.

(** C6, as the specification states it, fails for a market price that
    is [NaN] (a missing price): such a price is not [<= 0], and the
    estimate is neither above [market * 1.15] nor below
    [market * 0.85], so the claim's "otherwise" makes the signal
    ["HOLD"]; the code answers ["N/A"]. *)
Lemma assignSignal_nan_price_counterexample :
  (NaN <=? Fin 0)%js = false /\
  (Fin 100 >? NaN * Fin 1.15)%js = false /\
  (Fin 100 <? NaN * Fin 0.85)%js = false /\
  assignSignal (Fin 100) NaN = NA /\
  assignSignal (Fin 100) NaN <> HOLD.
Proof. repeat split; try reflexivity. discriminate. Qed.

(** C6, amended.  [assignSignal] answers ["N/A"] exactly when the
    market price is not above zero: for every price that is [<= 0],
    and also for a price that is [NaN] (a missing price).  For a
    market price above zero it answers ["BUY"] exactly when
    [intrinsic > market * 1.15], ["SELL"] exactly when
    [intrinsic < market * 0.85], and ["HOLD"] in the remaining case;
    the three boundary examples of the specification evaluate as it
    says.  (The products are those of the number model, exact
    rationals.) *)
Theorem assignSignal_bands :
  (forall intrinsic market : number,
     assignSignal intrinsic market = NA <-> (market >? Fin 0)%js = false) /\
  (forall intrinsic market : number,
     (market <=? Fin 0)%js = true -> assignSignal intrinsic market = NA) /\
  (forall intrinsic : number, assignSignal intrinsic NaN = NA) /\
  (forall intrinsic market : number,
     (market >? Fin 0)%js = true ->
     (assignSignal intrinsic market = BUY <-> (intrinsic >? market * Fin 1.15)%js = true) /\
     (assignSignal intrinsic market = SELL <-> (intrinsic <? market * Fin 0.85)%js = true) /\
     (assignSignal intrinsic market = HOLD <->
        (intrinsic >? market * Fin 1.15)%js = false /\
        (intrinsic <? market * Fin 0.85)%js = false)) /\
  assignSignal (Fin 115.01) (Fin 100) = BUY /\
  assignSignal (Fin 114.99) (Fin 100) = HOLD /\
  assignSignal (Fin 100) (Fin 0) = NA.
Proof.
  split; [|split; [|split; [|split; [|repeat split; reflexivity]]]].
  - intros intrinsic market. split.
    + intros Hna. destruct (market >? Fin 0)%js eqn:Hm; [|reflexivity].
      rewrite (assignSignal_market_pos _ _ Hm) in Hna.
      destruct (intrinsic >? market * Fin 1.15)%js; [discriminate Hna|].
      destruct (intrinsic <? market * Fin 0.85)%js; discriminate Hna.
    + intros Hm. unfold assignSignal.
      destruct market as [m| | |]; simpl in Hm; try discriminate; try reflexivity.
      apply Qltb_ge in Hm. simpl.
      assert (H1 : Qle_bool m 0 = true) by (apply Qle_bool_iff; exact Hm).
      rewrite H1. rewrite orb_true_r. reflexivity.
  - intros intrinsic market H. unfold assignSignal. rewrite H.
    rewrite orb_true_r. reflexivity.
  - intros intrinsic. reflexivity.
  - intros intrinsic market Hm.
    rewrite (assignSignal_market_pos _ _ Hm).
    pose proof (bands_disjoint intrinsic market Hm) as Hd.
    destruct (intrinsic >? market * Fin 1.15)%js eqn:Hb.
    + rewrite (Hd eq_refl). repeat split; intros; try discriminate; try reflexivity.
      destruct H; discriminate.
    + destruct (intrinsic <? market * Fin 0.85)%js eqn:Hs;
        repeat split; intros; try discriminate; try reflexivity.
      destruct H; discriminate.
Qed.

(** The band theorem at a quoted price of 100: an estimate of 120 is a
    BUY, one of 80 a SELL and one of 100 a HOLD; at a price of [-3] and
    at a missing price there is no signal. *)
Lemma assignSignal_bands_witness :
  assignSignal (Fin 120) (Fin 100) = BUY /\
  assignSignal (Fin 80) (Fin 100) = SELL /\
  assignSignal (Fin 100) (Fin 100) = HOLD /\
  assignSignal (Fin 100) (Fin (-3)) = NA /\
  assignSignal (Fin 100) NaN = NA.
Proof.
  destruct assignSignal_bands as [Hiff [Hna [_ [Hpos _]]]].
  assert (Hm : (Fin 100 >? Fin 0)%js = true) by reflexivity.
  split; [|split; [|split; [|split]]].
  - apply (proj1 (Hpos (Fin 120) (Fin 100) Hm)). reflexivity.
  - apply (proj1 (proj2 (Hpos (Fin 80) (Fin 100) Hm))). reflexivity.
  - apply (proj2 (proj2 (Hpos (Fin 100) (Fin 100) Hm))). split; reflexivity.
  - apply Hna. reflexivity.
  - apply (Hiff (Fin 100) NaN). reflexivity.
Defined.

(** * Discounted cash flow: [dcfPrice] *)

Section ArrayFacts.

Context {A B : Type}.

Lemma map_from_length (f : A -> nat -> B) (k : nat) (l : list A) :
  length (map_from f k l) = length l.
Proof.
  revert k. induction l as [|x l IH]; intros k; simpl; [reflexivity|].
  rewrite IH. reflexivity.
Qed.

Lemma map_from_nth (f : A -> nat -> B) (l : list A) :
  forall k i, nth_error (map_from f k l) i
              = option_map (fun x => f x (k + i)%nat) (nth_error l i).
Proof.
  induction l as [|x l IH]; intros k i.
  - destruct i; reflexivity.
  - destruct i as [|i]; simpl.
    + rewrite Nat.add_0_r. reflexivity.
    + rewrite IH. rewrite Nat.add_succ_r. reflexivity.
Qed.

Lemma map_from_In (f : A -> nat -> B) (l : list A) (y : B) :
  forall k, In y (map_from f k l) -> exists x i, y = f x i.
Proof.
  induction l as [|x l IH]; intros k Hin; simpl in Hin; [contradiction|].
  destruct Hin as [<- | Hin]; [exists x, k; reflexivity | exact (IH _ Hin)].
Qed.

Lemma arr_get_nat (l : list A) (i : nat) : arr_get l (Z.of_nat i) = nth_error l i.
Proof.
  unfold arr_get.
  destruct (Z.of_nat i <? 0)%Z eqn:E; [apply Z.ltb_lt in E; lia|].
  rewrite Nat2Z.id. reflexivity.
Qed.

Lemma arr_get_last (l : list A) (x : A) :
  arr_get (l ++ [x]) (Z.of_nat (length (l ++ [x])) - 1) = Some x.
Proof.
  rewrite length_app. simpl.
  replace (Z.of_nat (length l + 1) - 1)%Z with (Z.of_nat (length l)) by lia.
  rewrite arr_get_nat. rewrite nth_error_app2 by lia.
  rewrite Nat.sub_diag. reflexivity.
Qed.

Lemma arr_get_empty (i : Z) : arr_get (@nil A) i = None.
Proof.
  unfold arr_get. destruct (i <? 0)%Z; [reflexivity|].
  destruct (Z.to_nat i); reflexivity.
Qed.

End ArrayFacts.

(** The array [dfs] of [dcfPrice]. *)
Definition dcf_dfs (r : number) (fcfs : list number) : list number :=
  map_i (fun (_ : number) (i : nat) =>
    (Fin 1 / npow_int (Fin 1 + r) (Z.of_nat (i + 1)))%js) fcfs.

Lemma dcf_dfs_get (r : number) (fcfs : list number) (i : nat) (x : number) :
  nth_error fcfs i = Some x ->
  arr_get (dcf_dfs r fcfs) (Z.of_nat i) = Some (spec_discount_factor r (S i)).
Proof.
  intros H. rewrite arr_get_nat. unfold dcf_dfs, map_i.
  rewrite map_from_nth, H. simpl.
  unfold spec_discount_factor. rewrite Nat.add_1_r. reflexivity.
Qed.

(** Every index that the reduction of [dcfPrice] reads in [dfs] is in
    range, so the reduction is the sum of the specification. *)
Lemma dcf_reduce_spec (r : number) (pre suf : list number) (acc : number) :
  reduce_from (fun acc f i =>
      (acc + f * to_number (arr_get (dcf_dfs r (pre ++ suf)) (Z.of_nat i)))%js)
    (length pre) suf acc
  = spec_pv_from r (S (length pre)) suf acc.
Proof.
  revert pre acc. induction suf as [|x suf IH]; intros pre acc; simpl; [reflexivity|].
  rewrite (dcf_dfs_get r (pre ++ x :: suf) (length pre) x).
  2:{ rewrite nth_error_app2 by lia. rewrite Nat.sub_diag. reflexivity. }
  simpl to_number.
  replace (pre ++ x :: suf) with ((pre ++ [x]) ++ suf)
    by (rewrite <- app_assoc; reflexivity).
  specialize (IH (pre ++ [x])).
  rewrite length_app in IH. simpl in IH. rewrite Nat.add_1_r in IH.
  apply IH.
Qed.

Lemma dcfPrice_pvFcfs (fcfs : list number) (tv r nd sh : number) :
  pvFcfs (dcfPrice fcfs tv r nd sh) = spec_pv_cashflows r fcfs.
Proof.
  unfold dcfPrice, spec_pv_cashflows, reduce_i. simpl.
  exact (dcf_reduce_spec r [] fcfs (Fin 0)).
Qed.

Lemma dcfPrice_pvTv (fcfs : list number) (tv r nd sh : number) :
  fcfs <> [] ->
  pvTv (dcfPrice fcfs tv r nd sh) = (tv * spec_discount_factor r (length fcfs))%js.
Proof.
  intros Hne.
  change (pvTv (dcfPrice fcfs tv r nd sh))
    with (tv * to_number (arr_get (dcf_dfs r fcfs)
                            (Z.of_nat (length (dcf_dfs r fcfs)) - 1)))%js.
  assert (Hlen : length (dcf_dfs r fcfs) = length fcfs)
    by apply map_from_length.
  rewrite Hlen.
  destruct (length fcfs) as [|n] eqn:En.
  - destruct fcfs; [contradiction | discriminate].
  - replace (Z.of_nat (S n) - 1)%Z with (Z.of_nat n) by lia.
    destruct (nth_error fcfs n) as [x|] eqn:Ex.
    + rewrite (dcf_dfs_get r fcfs n x Ex). reflexivity.
    + apply nth_error_None in Ex. lia.
Qed.

Lemma dcfPrice_ev (fcfs : list number) (tv r nd sh : number) :
  ev (dcfPrice fcfs tv r nd sh)
  = (pvFcfs (dcfPrice fcfs tv r nd sh) + pvTv (dcfPrice fcfs tv r nd sh))%js.
Proof. reflexivity. Qed.

Lemma dcfPrice_pps (fcfs : list number) (tv r nd sh : number) :
  pps (dcfPrice fcfs tv r nd sh)
  = if truthy sh then ((ev (dcfPrice fcfs tv r nd sh) - nd) / sh)%js else Fin 0.
Proof. reflexivity. Qed.

(** C4, as the specification states it, fails: with one cashflow of 100,
    no terminal value, a zero rate, no net debt and a share count of
    [-1] (which is [<= 0]) the price is [-100], not [0]. *)
Lemma dcfPrice_negative_shares_counterexample :
  (Fin (-1) <=? Fin 0)%js = true /\
  pps (dcfPrice [Fin 100] (Fin 0) (Fin 0) (Fin 0) (Fin (-1))) = Fin (-100) /\
  ~ (pps (dcfPrice [Fin 100] (Fin 0) (Fin 0) (Fin 0) (Fin (-1))) =n= Fin 0).
Proof.
  split; [reflexivity|]. split; [reflexivity|].
  change (~ (-100 == 0)%Q). intros H. discriminate H.
Qed.

(** C4, amended.  The present value of the explicit cashflows is the
    sum of each cashflow times [1 / (1 + r) ^ i] for its 1-indexed year
    [i]; for a non-empty cashflow list the present value of the
    terminal value is the terminal value times the factor of the final
    year; the enterprise value is the sum of the two; and the price
    per share is [(EV - netDebt) / shares] whenever [shares] is truthy,
    which includes every negative share count, and [0] whenever
    [shares] is [0] or [NaN].  (A price of [0] can also come out of the
    division, at a share count that is not zero.) *)
Theorem dcfPrice_formula (fcfs : list number) (tv r nd sh : number) :
  let res := dcfPrice fcfs tv r nd sh in
  pvFcfs res = spec_pv_cashflows r fcfs /\
  (fcfs <> [] -> pvTv res = (tv * spec_discount_factor r (length fcfs))%js) /\
  ev res = (pvFcfs res + pvTv res)%js /\
  (truthy sh = true -> pps res = ((ev res - nd) / sh)%js) /\
  (truthy sh = false -> pps res = Fin 0) /\
  (forall q : Q, sh = Fin q -> (q < 0)%Q -> pps res = ((ev res - nd) / Fin q)%js) /\
  (forall q : Q, sh = Fin q -> (q == 0)%Q -> pps res = Fin 0) /\
  (sh = NaN -> pps res = Fin 0).
Proof.
  intros res.
  split; [apply dcfPrice_pvFcfs|].
  split; [intros Hne; apply dcfPrice_pvTv; exact Hne|].
  split; [reflexivity|].
  subst res. rewrite dcfPrice_pps.
  split; [intros ->; reflexivity|].
  split; [intros ->; reflexivity|].
  split; [|split].
  - intros q -> Hq. simpl truthy.
    assert (H0 : Qis0 q = false) by (apply Qis0_false; lra).
    rewrite H0. reflexivity.
  - intros q -> Hq. simpl truthy.
    apply Qis0_true in Hq. rewrite Hq. reflexivity.
  - intros ->. reflexivity.
Qed.

(** The formula at a two-year projection with 50 shares. *)
Lemma dcfPrice_formula_witness :
  let res := dcfPrice [Fin 110; Fin 121] (Fin 1210) (Fin 0.1) (Fin 100) (Fin 50) in
  pvFcfs res =n= Fin 200 /\ pvTv res =n= Fin 1000 /\ ev res =n= Fin 1200 /\ pps res =n= Fin 22.
Proof.
  assert (Hne : [Fin 110; Fin 121] <> []) by discriminate.
  destruct (dcfPrice_formula [Fin 110; Fin 121] (Fin 1210) (Fin 0.1) (Fin 100) (Fin 50))
    as (H1 & H2 & H3 & H4 & _).
  cbv zeta. rewrite (H4 eq_refl), H3, H1, (H2 Hne).
  vm_compute. repeat split; reflexivity.
Defined.

(** The price per share can be [0] at a share count that is not zero:
    one cashflow of 100, no terminal value, a zero rate, a net debt of
    100 and 5 shares. *)
Lemma dcfPrice_zero_price_with_shares :
  truthy (Fin 5) = true /\
  pps (dcfPrice [Fin 100] (Fin 0) (Fin 0) (Fin 100) (Fin 5)) =n= Fin 0.
Proof. split; reflexivity. Qed.

(** C10.  On the empty cashflow array the final-year factor is read
    from an empty array: whatever the terminal value, rate and net debt
    are, [pvTv] and the enterprise value are [NaN] (the sum of no
    cashflows is [0]), and the price per share is [NaN] for every
    truthy share count, in particular for every finite non-zero one;
    the price is the sentinel [0] only where the guard on [shares]
    gives it. *)
Theorem dcfPrice_empty_cashflows (tv r nd sh : number) :
  let res := dcfPrice [] tv r nd sh in
  pvFcfs res = Fin 0 /\
  pvTv res = NaN /\
  ev res = NaN /\
  pps res = (if truthy sh then NaN else Fin 0) /\
  (forall q : Q, sh = Fin q -> ~ (q == 0)%Q -> pps res = NaN) /\
  (pps res = Fin 0 <-> truthy sh = false).
Proof.
  assert (Htv : pvTv (dcfPrice [] tv r nd sh) = NaN).
  { unfold dcfPrice. simpl. destruct tv; reflexivity. }
  assert (Hev : ev (dcfPrice [] tv r nd sh) = NaN).
  { rewrite dcfPrice_ev, Htv, dcfPrice_pvFcfs. reflexivity. }
  assert (Hpps : pps (dcfPrice [] tv r nd sh) = if truthy sh then NaN else Fin 0).
  { rewrite dcfPrice_pps, Hev. destruct (truthy sh); [|reflexivity].
    destruct nd, sh; reflexivity. }
  cbv zeta. rewrite Hpps.
  split; [reflexivity|]. split; [exact Htv|]. split; [exact Hev|].
  split; [reflexivity|]. split.
  - intros q -> Hq. simpl. apply Qis0_false in Hq. rewrite Hq. reflexivity.
  - destruct (truthy sh); split; intros H; try reflexivity; discriminate.
Qed.

(** * Cost of capital: [computeWACC] *)






(** * Justified P/E: [computeJustifiedPE] *)

Lemma capped_growth_below (x ke : Q) : (capped_growth x ke <= ke - 0.001)%Q.
Proof.
  unfold capped_growth. destruct (Qltb (ke - 0.001) x) eqn:E.
  - apply Qle_refl.
  - apply Qltb_ge in E. exact E.
Qed.

(** The denominator [ke - g] never shrinks when [ke] grows, and it
    grows strictly once the larger [ke] is past the cap. *)
Lemma capped_gap_mono (x ke1 ke2 : Q) :
  (ke1 < ke2)%Q ->
  (ke1 - capped_growth x ke1 <= ke2 - capped_growth x ke2)%Q /\
  ((x + 0.001 < ke2)%Q -> (ke1 - capped_growth x ke1 < ke2 - capped_growth x ke2)%Q).
Proof.
  intros Hlt. unfold capped_growth.
  destruct (Qltb (ke1 - 0.001) x) eqn:E1; destruct (Qltb (ke2 - 0.001) x) eqn:E2.
  - apply Qltb_lt in E1, E2. split; [lra | intros Hcap; lra].
  - apply Qltb_lt in E1. apply Qltb_ge in E2. split; [lra | intros Hcap; lra].
  - apply Qltb_ge in E1. apply Qltb_lt in E2. split; [lra | intros Hcap; lra].
  - apply Qltb_ge in E1, E2. split; [lra | intros Hcap; lra].
Qed.

(** [computeJustifiedPE] on a baseline with finite ROE, plowback and
    payout ratios and EPS, at a finite cost of equity. *)
Lemma computeJustifiedPE_fin (B : Baseline) (a : Assumptions) (vroe vb vp veps vg ke : Q) :
  roe B = Fin vroe -> plowback_ratio B = Fin vb -> payout_ratio B = Fin vp ->
  eps B = Fin veps -> fld a "yr1_g" = Fin vg ->
  let roe' := (if Qltb 0 vroe then vroe else 0.10)%Q in
  let b' := (if Qltb 0 vb then vb else 1 - vp)%Q in
  let g := capped_growth (roe' * b') ke in
  computeJustifiedPE B a (Fin ke)
  = (Fin ((1 - b') / (ke - g) * (veps * (1 + vg))), Fin ((1 - b') / (ke - g))).
Proof.
  intros Hroe Hb Hp Heps Hg roe' b' g.
  pose proof (capped_growth_below (roe' * b') ke) as Hcap. fold g in Hcap.
  unfold computeJustifiedPE. rewrite Hroe, Hb, Hp, Heps, Hg.
  unfold ngt. change (Fin 0 <? Fin vroe)%js with (Qltb 0 vroe).
  change (Fin 0 <? Fin vb)%js with (Qltb 0 vb).
  rewrite !nsub_fin, !if_fin, !nmul_fin, nmin_fin, !nadd_fin, !nmul_fin.
  fold roe' b'. fold (capped_growth (roe' * b') ke). fold g.
  assert (Hle : (Fin ke <=? Fin g)%js = false) by (apply nle_fin_false; lra).
  rewrite Hle, !nsub_fin.
  assert (Hnz : ~ (ke - g == 0)%Q) by lra.
  rewrite ndiv_fin by exact Hnz. reflexivity.
Qed.

(** A quotient with a positive numerator falls when its positive
    denominator grows. *)
Lemma quotient_antitone (p d1 d2 : Q) :
  (0 < p)%Q -> (0 < d1)%Q ->
  ((d1 <= d2)%Q -> (p / d2 <= p / d1)%Q) /\ ((d1 < d2)%Q -> (p / d2 < p / d1)%Q).
Proof.
  intros Hp Hd1. split; intros Hd.
  - assert (Hd2 : (0 < d2)%Q) by lra.
    apply Qle_shift_div_l; [exact Hd1|].
    assert (Hq : (p / d2 * d1 == p * (d1 / d2))%Q) by (field; lra).
    rewrite Hq.
    assert (H1 : (d1 / d2 <= 1)%Q) by (apply Qle_shift_div_r; lra).
    nra.
  - assert (Hd2 : (0 < d2)%Q) by lra.
    apply Qlt_shift_div_l; [exact Hd1|].
    assert (Hq : (p / d2 * d1 == p * (d1 / d2))%Q) by (field; lra).
    rewrite Hq.
    assert (H1 : (d1 / d2 < 1)%Q) by (apply Qlt_shift_div_r; lra).
    nra.
Qed.

(** C7, as the specification states it, fails while the growth cap
    binds: with ROE 20% and plowback 50% (so ROE x plowback = 10%) the
    costs of equity 5% and 8% both give the justified P/E
    [0.5 / 0.001 = 500], so the lower cost of equity does not give a
    strictly larger one. *)
Lemma computeJustifiedPE_cap_counterexample :
  (Fin 0.05 <? Fin 0.08)%js = true /\
  snd (computeJustifiedPE sampleBaseline (SCENARIO_PRESETS Base) (Fin 0.05)) =n= Fin 500 /\
  snd (computeJustifiedPE sampleBaseline (SCENARIO_PRESETS Base) (Fin 0.08)) =n= Fin 500 /\
  (snd (computeJustifiedPE sampleBaseline (SCENARIO_PRESETS Base) (Fin 0.08))
   <? snd (computeJustifiedPE sampleBaseline (SCENARIO_PRESETS Base) (Fin 0.05)))%js = false.
Proof. vm_compute. repeat split; reflexivity. Qed.

(** C7, amended.  In exact arithmetic (the rationals of the number
    model; the rounding of binary64 is not modelled): hold the baseline
    ROE, plowback and payout ratios, EPS and the year-1 growth fixed
    (all finite), with a payout [1 - b] above zero, and take two costs
    of equity [ke1 < ke2].  The justified P/E at [ke1] is never below
    the one at [ke2], and it is strictly larger as soon as [ke2]
    exceeds [ROE x plowback + 0.001], that is, as soon as the cap
    [g <= ke - 0.001] does not bind at [ke2]; the implied price is then
    strictly larger too when the forward EPS is positive. *)
Theorem computeJustifiedPE_monotone (B : Baseline) (a : Assumptions)
    (vroe vb vp veps vg ke1 ke2 : Q) :
  roe B = Fin vroe -> plowback_ratio B = Fin vb -> payout_ratio B = Fin vp ->
  eps B = Fin veps -> fld a "yr1_g" = Fin vg ->
  ((if Qltb 0 vb then vb else 1 - vp) < 1)%Q ->
  (ke1 < ke2)%Q ->
  let pe1 := snd (computeJustifiedPE B a (Fin ke1)) in
  let pe2 := snd (computeJustifiedPE B a (Fin ke2)) in
  let price1 := fst (computeJustifiedPE B a (Fin ke1)) in
  let price2 := fst (computeJustifiedPE B a (Fin ke2)) in
  (pe2 <=? pe1)%js = true /\
  (((if Qltb 0 vroe then vroe else 0.10) * (if Qltb 0 vb then vb else 1 - vp) + 0.001 < ke2)%Q ->
     (pe2 <? pe1)%js = true /\
     ((0 < veps * (1 + vg))%Q -> (price2 <? price1)%js = true)).
Proof.
  intros Hroe Hb Hp Heps Hg Hpay Hlt. cbv zeta.
  rewrite !(computeJustifiedPE_fin B a vroe vb vp veps vg _ Hroe Hb Hp Heps Hg).
  cbv zeta. simpl fst. simpl snd.
  set (roe' := (if Qltb 0 vroe then vroe else 0.10)%Q) in *.
  set (b' := (if Qltb 0 vb then vb else 1 - vp)%Q) in *.
  set (d1 := (ke1 - capped_growth (roe' * b') ke1)%Q).
  set (d2 := (ke2 - capped_growth (roe' * b') ke2)%Q).
  assert (Hd1 : (0 < d1)%Q)
    by (pose proof (capped_growth_below (roe' * b') ke1); unfold d1; lra).
  destruct (capped_gap_mono (roe' * b') ke1 ke2 Hlt) as [Hmono Hstrict].
  fold d1 d2 in Hmono, Hstrict.
  assert (Hpos : (0 < 1 - b')%Q) by lra.
  destruct (quotient_antitone (1 - b') d1 d2 Hpos Hd1) as [Hq1 Hq2].
  split.
  - apply nle_fin. apply Hq1. exact Hmono.
  - intros Hcap. specialize (Hq2 (Hstrict Hcap)). split.
    + apply nlt_fin. exact Hq2.
    + intros Hfwd. apply nlt_fin. nra.
Qed.

(** With ROE 20% and plowback 50% the costs of equity 11% and 12% are
    both past the cap, and the justified P/E falls from 50 to 25. *)
Lemma computeJustifiedPE_monotone_witness :
  (snd (computeJustifiedPE sampleBaseline (SCENARIO_PRESETS Base) (Fin 0.12))
   <? snd (computeJustifiedPE sampleBaseline (SCENARIO_PRESETS Base) (Fin 0.11)))%js = true /\
  (fst (computeJustifiedPE sampleBaseline (SCENARIO_PRESETS Base) (Fin 0.12))
   <? fst (computeJustifiedPE sampleBaseline (SCENARIO_PRESETS Base) (Fin 0.11)))%js = true.
Proof.
  destruct (computeJustifiedPE_monotone sampleBaseline (SCENARIO_PRESETS Base)
              0.2 0.5 0.5 2 0.025 0.11 0.12
              eq_refl eq_refl eq_refl eq_refl eq_refl eq_refl eq_refl) as [_ H].
  destruct (H eq_refl) as [H1 H2].
  split; [exact H1 | exact (H2 eq_refl)].
Defined.

(** * The pro-forma projection: [buildProforma] *)

(** [buildProforma] computes the gliding margin [ebitdaM] and then
    never uses it: the rows do not depend on [target_ebitda_m] (nor on
    anything of the assumptions besides [capex_pct]). *)
Lemma buildProforma_ignores_target (B : Baseline) (growthRates : list number)
    (a a' : Assumptions) :
  fld a "capex_pct" = fld a' "capex_pct" ->
  buildProforma B growthRates a = buildProforma B growthRates a'.
Proof.
  intros H. unfold buildProforma. cbv zeta. rewrite H. reflexivity.
Qed.

(** The cost ratios of every projected row are those of the baseline:
    with a finite non-zero baseline revenue, each row's COGS, SG&A, D&A
    and interest are its revenue times the baseline ratio. *)
Lemma buildProforma_ratios (B : Baseline) (growthRates : list number) (a : Assumptions)
    (row : ProFormaRow) :
  truthy (revenue B) = true ->
  In row (buildProforma B growthRates a) ->
  pf_cogs row = (pf_revenue row * (cogs B / revenue B))%js /\
  pf_sga row = (pf_revenue row * (sga B / revenue B))%js /\
  pf_da row = (pf_revenue row * (da_total B / revenue B))%js /\
  pf_interest row = (pf_revenue row * (interest_expense B / revenue B))%js /\
  pf_ebitda row = (pf_revenue row - pf_cogs row - pf_sga row + pf_da row)%js.
Proof.
  intros Hrev Hin. unfold buildProforma in Hin. rewrite Hrev in Hin.
  apply map_from_In in Hin. destruct Hin as (x & i & ->).
  cbn [pf_cogs pf_sga pf_da pf_interest pf_ebitda pf_revenue].
  repeat split; reflexivity.
Qed.

(** The last element of a list of rows, as [rows[rows.length - 1]]. *)
Lemma last_row_get (rows : list ProFormaRow) (r : ProFormaRow) :
  arr_get (rows ++ [r]) (Z.of_nat (length (rows ++ [r])) - 1) = Some r.
Proof. apply arr_get_last. Qed.

(** C2 (the code departs from the claim).  For the sample company
    (revenue 1000, COGS 500, SG&A 200, D&A 50, hence a baseline EBITDA
    margin of 35%) under the default assumptions (five projection
    years, [target_ebitda_m] = 27%), every projected row keeps the cost
    ratios of the baseline and reports an EBITDA margin of 35%: the
    margin of the final year is 35%, not the target of 27%. *)
Theorem buildProforma_margin_stays_at_baseline :
  exists growthRates rows last,
    buildGrowthSchedule DEFAULT_ASSUMPTIONS = Some growthRates /\
    buildProforma sampleBaseline growthRates DEFAULT_ASSUMPTIONS = rows ++ [last] /\
    length (rows ++ [last]) = 5%nat /\
    ebitda_margin sampleBaseline = Fin 0.35 /\
    fld DEFAULT_ASSUMPTIONS "target_ebitda_m" = Fin 0.270 /\
    forallb (fun r => num_eqb (pf_ebitda_margin r) (Fin 0.35)) (rows ++ [last]) = true /\
    num_eqb (pf_ebitda_margin last) (Fin 0.35) = true /\
    num_eqb (pf_ebitda_margin last) (fld DEFAULT_ASSUMPTIONS "target_ebitda_m") = false.
Proof.
  pose (gs := default [] (buildGrowthSchedule DEFAULT_ASSUMPTIONS)).
  pose (all := buildProforma sampleBaseline gs DEFAULT_ASSUMPTIONS).
  exists gs, (removelast all), (List.last all (hd (Build_ProFormaRow NaN NaN NaN NaN NaN NaN
    NaN NaN NaN NaN NaN NaN NaN NaN NaN NaN NaN) all)).
  vm_compute. repeat split; reflexivity.
Qed.

(** * Scenario presets: [applyScenario] *)

Lemma preset_omits (s : ScenarioKey) :
  SCENARIO_PRESETS s !! "proj_years_n" = None /\
  SCENARIO_PRESETS s !! "n_sims" = None /\
  SCENARIO_PRESETS s !! "ddm_g" = None /\
  SCENARIO_PRESETS s !! "scenario" = None.
Proof. destruct s; vm_compute; repeat split; reflexivity. Qed.

(** A field that the preset does not carry, other than the label,
    keeps the value of the previous state. *)
Lemma applyScenario_outside_preset (prev : Assumptions) (s : ScenarioKey) (k : string) :
  k <> "scenario" -> SCENARIO_PRESETS s !! k = None ->
  applyScenario prev s !! k = prev !! k.
Proof.
  intros Hk Hnone. unfold applyScenario, spread.
  rewrite lookup_insert_ne by congruence.
  apply lookup_union_r. exact Hnone.
Qed.

(** A field that the preset carries takes the value of the preset. *)
Lemma applyScenario_inside_preset (prev : Assumptions) (s : ScenarioKey) (k : string) (v : jsval) :
  SCENARIO_PRESETS s !! k = Some v ->
  applyScenario prev s !! k = Some v.
Proof.
  intros Hsome. unfold applyScenario, spread.
  assert (Hk : k <> "scenario").
  { intros ->. destruct (preset_omits s) as (_ & _ & _ & H). congruence. }
  rewrite lookup_insert_ne by congruence.
  apply lookup_union_Some_l. exact Hsome.
Qed.

(** C9.  For every previous state and every scenario key, the state
    after [applyScenario] has the fields [proj_years_n], [n_sims] and
    [ddm_g] of the previous state: no preset object carries them.
    Every field outside the preset other than the label is kept, every
    field of the preset takes the preset's value, and the label is the
    key applied. *)
Theorem applyScenario_frame (prev : Assumptions) (s : ScenarioKey) :
  applyScenario prev s !! "proj_years_n" = prev !! "proj_years_n" /\
  applyScenario prev s !! "n_sims" = prev !! "n_sims" /\
  applyScenario prev s !! "ddm_g" = prev !! "ddm_g" /\
  (forall k : string, k <> "scenario" -> SCENARIO_PRESETS s !! k = None ->
     applyScenario prev s !! k = prev !! k) /\
  (forall (k : string) (v : jsval), SCENARIO_PRESETS s !! k = Some v ->
     applyScenario prev s !! k = Some v) /\
  applyScenario prev s !! "scenario" = Some (JStr (scenario_label s)).
Proof.
  destruct (preset_omits s) as (Hn & Hs & Hd & _).
  repeat split.
  - apply applyScenario_outside_preset; [discriminate | exact Hn].
  - apply applyScenario_outside_preset; [discriminate | exact Hs].
  - apply applyScenario_outside_preset; [discriminate | exact Hd].
  - intros k Hk Hnone. apply applyScenario_outside_preset; assumption.
  - intros k v Hsome. apply applyScenario_inside_preset; assumption.
  - unfold applyScenario. apply lookup_insert_eq.
Qed.

(** Switching the default state (five projection years, 5000
    simulations) to the Bear preset keeps those and moves the WACC to
    10%. *)
Lemma applyScenario_frame_witness :
  applyScenario DEFAULT_ASSUMPTIONS Bear !! "proj_years_n" = Some (JNum (Fin 5)) /\
  applyScenario DEFAULT_ASSUMPTIONS Bear !! "n_sims" = Some (JNum (Fin 5000)) /\
  applyScenario DEFAULT_ASSUMPTIONS Bear !! "ddm_g" = Some (JNum (Fin 0.035)) /\
  applyScenario DEFAULT_ASSUMPTIONS Bear !! "wacc" = Some (JNum (Fin 0.100)).
Proof.
  destruct (applyScenario_frame DEFAULT_ASSUMPTIONS Bear) as (Hn & Hs & Hd & _ & Hin & _).
  rewrite Hn, Hs, Hd.
  split; [reflexivity|]. split; [reflexivity|]. split; [reflexivity|].
  apply Hin. reflexivity.
Defined.

(** * The annual-entry filter: [pickAnnual] *)

Section SortFacts.

Context {A : Type} (cmp : A -> A -> number).

Lemma sort_insert_perm (x : A) (l : list A) : Permutation (sort_insert cmp x l) (x :: l).
Proof.
  induction l as [|y l IH]; cbn [sort_insert]; [reflexivity|].
  destruct (cmp x y >? Fin 0)%js; [|reflexivity].
  rewrite IH. apply perm_swap.
Qed.

(** Whatever the comparator answers, sorting only reorders. *)
Lemma js_sort_perm (l : list A) : Permutation (js_sort cmp l) l.
Proof.
  induction l as [|x l IH]; cbn [js_sort fold_right]; [reflexivity|].
  rewrite sort_insert_perm. apply perm_skip. exact IH.
Qed.

End SortFacts.

Section StringOrder.

Lemma str_gt_irrefl (s : string) : str_gt s s = false.
Proof.
  unfold str_gt.
  assert (H : String.compare s s = Eq) by (apply OrderedTypeEx.String_as_OT.cmp_eq; reflexivity).
  rewrite H. reflexivity.
Qed.

Lemma str_gt_lt (s t : string) : str_gt s t = true <-> OrderedTypeEx.String_as_OT.lt t s.
Proof.
  unfold str_gt. rewrite <- OrderedTypeEx.String_as_OT.cmp_lt.
  unfold OrderedTypeEx.String_as_OT.cmp.
  rewrite (String.compare_antisym t s).
  destruct (String.compare s t); simpl; split; intros H; try reflexivity; discriminate.
Qed.

(** [a <= b] and [b < c] give [a <= c]. *)
Lemma str_le_lt_trans (a b c : string) :
  str_gt a b = false -> str_gt c b = true -> str_gt a c = false.
Proof.
  intros Hab Hcb. apply str_gt_lt in Hcb.
  destruct (str_gt a c) eqn:Hac; [|reflexivity].
  apply str_gt_lt in Hac.
  pose proof (OrderedTypeEx.String_as_OT.lt_trans _ _ _ Hcb Hac) as Hba.
  apply str_gt_lt in Hba. congruence.
Qed.

End StringOrder.

Section MapFacts.

Context {V : Type}.
Implicit Types (m : list (string * V)) (k : string) (v : V).

Lemma map_get_In m k v : map_get k m = Some v -> In (k, v) m.
Proof.
  induction m as [|[k' v'] m IH]; simpl; [discriminate|].
  destruct (String.eqb k' k) eqn:E.
  - apply String.eqb_eq in E. intros [= <-]. left. congruence.
  - intros H. right. exact (IH H).
Qed.

Lemma map_get_None m k : map_get k m = None -> ~ In k (List.map fst m).
Proof.
  induction m as [|[k' v'] m IH]; simpl; [tauto|].
  destruct (String.eqb k' k) eqn:E; [discriminate|].
  apply String.eqb_neq in E. intros H [Hk | Hin]; [congruence | exact (IH H Hin)].
Qed.

Lemma map_get_NoDup m k v : List.NoDup (List.map fst m) -> In (k, v) m -> map_get k m = Some v.
Proof.
  induction m as [|[k' v'] m IH]; simpl; [tauto|].
  intros Hnd [Heq | Hin].
  - injection Heq as -> ->. rewrite String.eqb_refl. reflexivity.
  - apply List.NoDup_cons_iff in Hnd. destruct Hnd as [Hnotin Hnd].
    destruct (String.eqb k' k) eqn:E.
    + apply String.eqb_eq in E. subst k'. exfalso. apply Hnotin.
      apply (in_map fst) in Hin. exact Hin.
    + exact (IH Hnd Hin).
Qed.

Lemma map_set_fresh m k v : map_get k m = None -> map_set k v m = m ++ [(k, v)].
Proof.
  induction m as [|[k' v'] m IH]; simpl; [reflexivity|].
  destruct (String.eqb k' k); [discriminate|].
  intros H. rewrite (IH H). reflexivity.
Qed.

Lemma map_set_keys m k v x : map_get k m = Some x -> List.map fst (map_set k v m) = List.map fst m.
Proof.
  induction m as [|[k' v'] m IH]; simpl; [discriminate|].
  destruct (String.eqb k' k); [reflexivity|].
  intros H. simpl. rewrite (IH H). reflexivity.
Qed.

Lemma map_set_In m k v k0 v0 :
  In (k0, v0) (map_set k v m) -> (k0 = k /\ v0 = v) \/ In (k0, v0) m.
Proof.
  induction m as [|[k' v'] m IH]; simpl.
  - intros [[= <- <-] | []]. left. split; reflexivity.
  - destruct (String.eqb k' k) eqn:E; simpl.
    + apply String.eqb_eq in E. subst k'.
      intros [[= <- <-] | Hin]; [left; split; reflexivity | right; right; exact Hin].
    + intros [Heq | Hin]; [right; left; exact Heq|].
      destruct (IH Hin) as [H | H]; [left; exact H | right; right; exact H].
Qed.

Lemma map_set_has m k v x : map_get k m = Some x -> In (k, v) (map_set k v m).
Proof.
  induction m as [|[k' v'] m IH]; simpl; [discriminate|].
  destruct (String.eqb k' k) eqn:E.
  - apply String.eqb_eq in E. subst k'. intros _. left. reflexivity.
  - intros H. right. exact (IH H).
Qed.

Lemma map_set_keeps m k v k0 v0 : k0 <> k -> In (k0, v0) m -> In (k0, v0) (map_set k v m).
Proof.
  intros Hne. induction m as [|[k' v'] m IH]; simpl; [tauto|].
  intros [Heq | Hin].
  - injection Heq as -> ->.
    destruct (String.eqb k0 k) eqn:E; [apply String.eqb_eq in E; contradiction|].
    left. reflexivity.
  - destruct (String.eqb k' k); right; [exact Hin | exact (IH Hin)].
Qed.

End MapFacts.

Section PickAnnual.

Variable date_getTime : string -> number.
Variable localeCompare : string -> string -> number.

(** What the filter of [pickAnnual] accepts. *)
Lemma annual_entry_spec (v : XbrlUnit) :
  annual_entry date_getTime v = true <->
  isAnnualForm (form v) = true /\
  str_truthy (start v) = true /\
  end_ v <> "" /\
  (duration_days date_getTime v >=? Fin 300)%js = true /\
  (duration_days date_getTime v <=? Fin 400)%js = true.
Proof.
  unfold annual_entry. cbv zeta.
  assert (Hend : str_truthy (Some (end_ v)) = true <-> end_ v <> "").
  { simpl. rewrite negb_true_iff. apply String.eqb_neq. }
  set (f := isAnnualForm (form v)).
  set (s := str_truthy (start v)).
  set (t := str_truthy (Some (end_ v))) in *.
  set (lo := (duration_days date_getTime v >=? Fin 300)%js).
  set (hi := (duration_days date_getTime v <=? Fin 400)%js).
  rewrite <- Hend.
  destruct f, s, t, lo, hi; simpl; intuition congruence.
Qed.

Lemma NoDup_snoc {A : Type} (l : list A) (x : A) :
  List.NoDup l -> ~ In x l -> List.NoDup (l ++ [x]).
Proof.
  induction l as [|y l IH]; simpl; intros Hnd Hx.
  - constructor; [intros [] | constructor].
  - apply List.NoDup_cons_iff in Hnd. destruct Hnd as [Hy Hnd].
    constructor.
    + intros Hin. apply in_app_or in Hin. destruct Hin as [Hin | [-> | []]]; tauto.
    + apply IH; tauto.
Qed.

Lemma dedup_inv_empty : dedup_inv [] [].
Proof.
  repeat split.
  - constructor.
  - destruct H.
  - destruct H.
  - intros e [].
Qed.

Lemma dedup_inv_step (seen : list XbrlUnit) (m : list (string * XbrlUnit)) (e : XbrlUnit) :
  dedup_inv seen m -> dedup_inv (seen ++ [e]) (dedup_step m e).
Proof.
  intros (Hnd & Hb & Hc). unfold dedup_step.
  destruct (map_get (end_ e) m) as [existing|] eqn:Hget.
  - destruct (str_gt (filed_or_empty e) (filed_or_empty existing)) eqn:Hgt.
    + (* the newer filing replaces the binding *)
      split; [|split].
      * rewrite (map_set_keys m (end_ e) e existing Hget). exact Hnd.
      * intros k v Hin. apply map_set_In in Hin. destruct Hin as [[-> ->] | Hin].
        -- split; [reflexivity | apply in_or_app; right; left; reflexivity].
        -- destruct (Hb k v Hin) as [H1 H2]. split; [exact H1 | apply in_or_app; left; exact H2].
      * intros e0 Hin. apply in_app_or in Hin. destruct Hin as [Hin | [<- | []]].
        -- destruct (Hc e0 Hin) as (v0 & Hv0 & Hle).
           destruct (String.eqb (end_ e0) (end_ e)) eqn:Ek.
           ++ apply String.eqb_eq in Ek. exists e. split.
              ** rewrite Ek. exact (map_set_has m (end_ e) e existing Hget).
              ** rewrite Ek in Hv0.
                 pose proof (map_get_NoDup m (end_ e) v0 Hnd Hv0) as Hv0'.
                 assert (v0 = existing) by congruence. subst v0.
                 exact (str_le_lt_trans _ _ _ Hle Hgt).
           ++ apply String.eqb_neq in Ek. exists v0. split; [|exact Hle].
              apply map_set_keeps; assumption.
        -- exists e. split; [exact (map_set_has m (end_ e) e existing Hget)|].
           apply str_gt_irrefl.
    + (* the binding stays *)
      split; [exact Hnd | split].
      * intros k v Hin. destruct (Hb k v Hin) as [H1 H2].
        split; [exact H1 | apply in_or_app; left; exact H2].
      * intros e0 Hin. apply in_app_or in Hin. destruct Hin as [Hin | [<- | []]].
        -- exact (Hc e0 Hin).
        -- exists existing. split; [exact (map_get_In m _ _ Hget) | exact Hgt].
  - (* a period end seen for the first time *)
    rewrite (map_set_fresh m (end_ e) e Hget).
    split; [|split].
    + rewrite map_app. simpl.
      apply NoDup_snoc; [exact Hnd | exact (map_get_None m _ Hget)].
    + intros k v Hin. apply in_app_or in Hin. destruct Hin as [Hin | [[= <- <-] | []]].
      * destruct (Hb k v Hin) as [H1 H2]. split; [exact H1 | apply in_or_app; left; exact H2].
      * split; [reflexivity | apply in_or_app; right; left; reflexivity].
    + intros e0 Hin. apply in_app_or in Hin. destruct Hin as [Hin | [<- | []]].
      * destruct (Hc e0 Hin) as (v0 & Hv0 & Hle). exists v0.
        split; [apply in_or_app; left; exact Hv0 | exact Hle].
      * exists e. split; [apply in_or_app; right; left; reflexivity | apply str_gt_irrefl].
Qed.

Lemma dedup_inv_fold (l seen : list XbrlUnit) (m : list (string * XbrlUnit)) :
  dedup_inv seen m -> dedup_inv (seen ++ l) (fold_left dedup_step l m).
Proof.
  revert seen m. induction l as [|e l IH]; intros seen m Hinv; simpl.
  - rewrite app_nil_r. exact Hinv.
  - replace (seen ++ e :: l) with ((seen ++ [e]) ++ l) by (rewrite <- app_assoc; reflexivity).
    apply IH. apply dedup_inv_step. exact Hinv.
Qed.

End PickAnnual.

Lemma NoDup_map_unique {A B : Type} (f : A -> B) (l : list A) (x y : A) :
  List.NoDup (List.map f l) -> In x l -> In y l -> f x = f y -> x = y.
Proof.
  induction l as [|z l IH]; simpl; [tauto|].
  intros Hnd Hx Hy Hf. apply List.NoDup_cons_iff in Hnd. destruct Hnd as [Hz Hnd].
  destruct Hx as [-> | Hx], Hy as [-> | Hy].
  - reflexivity.
  - exfalso. apply Hz. rewrite Hf. apply in_map. exact Hy.
  - exfalso. apply Hz. rewrite <- Hf. apply in_map. exact Hx.
  - exact (IH Hnd Hx Hy Hf).
Qed.

(** A value strictly below a bound is not at or above it, and the
    same on the other side. *)
Lemma nlt_not_nge (x b : number) : (x <? b)%js = true -> (x >=? b)%js = false.
Proof.
  unfold nge. destruct x as [p| | |], b as [q| | |]; simpl; try discriminate; try reflexivity.
  intros H. apply Qltb_lt in H. apply Qle_bool_gt. exact H.
Qed.

Lemma ngt_not_nle (x b : number) : (x >? b)%js = true -> (x <=? b)%js = false.
Proof.
  unfold ngt. destruct x as [p| | |], b as [q| | |]; simpl; try discriminate; try reflexivity.
  intros H. apply Qltb_lt in H. apply Qle_bool_gt. exact H.
Qed.

(** The state of the deduplication map at the end of [pickAnnual]. *)
Lemma pickAnnual_dedup (date_getTime : string -> number) (values : list XbrlUnit) :
  dedup_inv (List.filter (annual_entry date_getTime) values)
            (fold_left dedup_step (List.filter (annual_entry date_getTime) values) []).
Proof.
  exact (dedup_inv_fold (List.filter (annual_entry date_getTime) values) [] []
           dedup_inv_empty).
Qed.

Lemma dedup_values_ends (seen : list XbrlUnit) (m : list (string * XbrlUnit)) :
  dedup_inv seen m -> List.map end_ (List.map snd m) = List.map fst m.
Proof.
  intros (_ & Hb & _). induction m as [|[k v] m IH]; simpl; [reflexivity|].
  destruct (Hb k v (or_introl eq_refl)) as [-> _].
  rewrite IH; [reflexivity|].
  intros k' v' Hin. apply Hb. right. exact Hin.
Qed.

(** The forms that [isAnnualForm] accepts are the four annual-report
    variants, and no other form (nor a missing one). *)
Lemma isAnnualForm_forms (f : option string) :
  isAnnualForm f = true <->
  f = Some "10-K" \/ f = Some "10-K/A" \/ f = Some "20-F" \/ f = Some "40-F".
Proof.
  destruct f as [f|]; cbn [isAnnualForm].
  - rewrite !orb_true_iff, !String.eqb_eq. split.
    + intros [[[-> | ->] | ->] | ->]; tauto.
    + intros [H | [H | [H | H]]]; injection H as ->; tauto.
  - split; [discriminate|]. intros [H | [H | [H | H]]]; discriminate H.
Qed.

Lemma str_truthy_some (o : option string) :
  str_truthy o = true <-> exists s, o = Some s /\ s <> "".
Proof.
  destruct o as [s|]; cbn [str_truthy].
  - rewrite negb_true_iff, String.eqb_neq. split.
    + intros H. exists s. split; [reflexivity | exact H].
    + intros (s' & [= <-] & H). exact H.
  - split; [discriminate|]. intros (s & H & _). discriminate H.
Qed.

(** The filter of [pickAnnual], spelled out: an annual form, a start
    and an end date, and between 300 and 400 days from start to end,
    a day being 86 400 000 milliseconds. *)
Lemma annual_entry_explicit (date_getTime : string -> number) (v : XbrlUnit) :
  annual_entry date_getTime v = true <->
  (form v = Some "10-K" \/ form v = Some "10-K/A" \/
   form v = Some "20-F" \/ form v = Some "40-F") /\
  exists s, start v = Some s /\ s <> "" /\ end_ v <> "" /\
    (((date_getTime (end_ v) - date_getTime s) / Fin 86400000) >=? Fin 300)%js = true /\
    (((date_getTime (end_ v) - date_getTime s) / Fin 86400000) <=? Fin 400)%js = true.
Proof.
  rewrite annual_entry_spec, isAnnualForm_forms, str_truthy_some.
  unfold duration_days. split.
  - intros (Hf & (s & Hs & Hne) & He & Hlo & Hhi). split; [exact Hf|].
    exists s. rewrite Hs in Hlo, Hhi. cbn [default] in Hlo, Hhi. tauto.
  - intros (Hf & s & Hs & Hne & He & Hlo & Hhi). rewrite Hs. cbn [default].
    split; [exact Hf|]. split; [exists s; tauto|]. tauto.
Qed.

(** C8.  [pickAnnual] keeps only entries of its input whose form is
    one of the annual variants (10-K, 10-K/A, 20-F, 40-F), that report
    a start and an end date, and whose duration, the time from start
    to end in days of 86 400 000 ms, is between 300 and 400 days.  An
    entry of another form (or without a form), an entry without a
    start or an end date, and an entry whose duration is under 300 or
    over 400 days, whatever its form, is never kept.  Every input
    entry that passes the filter is represented: the result holds an
    entry with the same period end that was filed no earlier, so of
    the retained entries for one period end the one filed latest is
    kept.  The result holds one entry per period end. *)
Theorem pickAnnual_spec (date_getTime : string -> number)
    (localeCompare : string -> string -> number) (values : list XbrlUnit) :
  let result := pickAnnual date_getTime localeCompare values in
  let annual_form (r : XbrlUnit) : Prop :=
    form r = Some "10-K" \/ form r = Some "10-K/A" \/
    form r = Some "20-F" \/ form r = Some "40-F" in
  let days (s : string) (r : XbrlUnit) : number :=
    ((date_getTime (end_ r) - date_getTime s) / Fin 86400000)%js in
  (forall r, In r result ->
     In r values /\ annual_form r /\
     exists s, start r = Some s /\ s <> "" /\ end_ r <> "" /\
       (days s r >=? Fin 300)%js = true /\ (days s r <=? Fin 400)%js = true) /\
  (forall e, ~ annual_form e -> ~ In e result) /\
  (forall e, start e = None \/ start e = Some "" \/ end_ e = "" -> ~ In e result) /\
  (forall e s, start e = Some s ->
     (days s e <? Fin 300)%js = true \/ (days s e >? Fin 400)%js = true ->
     ~ In e result) /\
  (forall e s, In e values -> annual_form e ->
     start e = Some s -> s <> "" -> end_ e <> "" ->
     (days s e >=? Fin 300)%js = true -> (days s e <=? Fin 400)%js = true ->
     exists r, In r result /\ end_ r = end_ e /\
               str_gt (default "" (filed e)) (default "" (filed r)) = false) /\
  List.NoDup (List.map end_ result) /\
  (forall r1 r2, In r1 result -> In r2 result -> end_ r1 = end_ r2 -> r1 = r2).
Proof.
  intros result annual_form days.
  pose proof (pickAnnual_dedup date_getTime values) as Hinv.
  set (annuals := List.filter (annual_entry date_getTime) values) in *.
  set (m := fold_left dedup_step annuals []) in *.
  assert (Hperm : Permutation result (List.map snd m)) by apply js_sort_perm.
  assert (Hkept : forall r, In r result -> In r values /\ annual_entry date_getTime r = true).
  { intros r Hr. apply (Permutation_in _ Hperm) in Hr.
    apply in_map_iff in Hr. destruct Hr as ([k v] & <- & Hin).
    destruct Hinv as (_ & Hb & _). destruct (Hb k v Hin) as [_ Hseen].
    apply filter_In in Hseen. exact Hseen. }
  assert (Hnd : List.NoDup (List.map end_ result)).
  { apply (Permutation_NoDup (l := List.map end_ (List.map snd m))).
    - apply Permutation_map. symmetry. exact Hperm.
    - rewrite (dedup_values_ends annuals m Hinv). destruct Hinv as (H & _). exact H. }
  split; [|split; [|split; [|split; [|split; [|split]]]]].
  - intros r Hr. destruct (Hkept r Hr) as [Hin Hann].
    apply annual_entry_explicit in Hann. destruct Hann as [Hf Hs].
    split; [exact Hin|]. split; [exact Hf | exact Hs].
  - intros e Hform Hin. destruct (Hkept e Hin) as [_ Hann].
    apply annual_entry_explicit in Hann. exact (Hform (proj1 Hann)).
  - intros e Hmiss Hin. destruct (Hkept e Hin) as [_ Hann].
    apply annual_entry_explicit in Hann.
    destruct Hann as (_ & s & Hs & Hne & He & _).
    destruct Hmiss as [H | [H | H]]; congruence.
  - intros e s Hs Hdur Hin. destruct (Hkept e Hin) as [_ Hann].
    apply annual_entry_explicit in Hann.
    destruct Hann as (_ & s' & Hs' & _ & _ & Hlo & Hhi).
    assert (s' = s) by congruence. subst s'.
    destruct Hdur as [H | H].
    + apply nlt_not_nge in H. unfold days in H. congruence.
    + apply ngt_not_nle in H. unfold days in H. congruence.
  - intros e s He Hf Hs Hne Hend Hlo Hhi.
    assert (Hann : annual_entry date_getTime e = true).
    { apply annual_entry_explicit. split; [exact Hf|]. exists s. tauto. }
    assert (Hseen : In e annuals) by (apply filter_In; split; assumption).
    destruct Hinv as (_ & _ & Hc). destruct (Hc e Hseen) as (v & Hv & Hle).
    exists v. split; [|split].
    + apply (Permutation_in _ (Permutation_sym Hperm)).
      apply in_map_iff. exists (end_ e, v). split; [reflexivity | exact Hv].
    + destruct (pickAnnual_dedup date_getTime values) as (_ & Hb & _).
      destruct (Hb _ _ Hv) as [H _]. exact H.
    + exact Hle.
  - exact Hnd.
  - intros r1 r2 H1 H2 Heq. exact (NoDup_map_unique end_ result r1 r2 Hnd H1 H2 Heq).
Qed.

(** Four filings that end on 2023-12-31: a 10-Q that spans the full
    year is dropped for its form, a 10-K that spans half a year is
    dropped for its duration, and of the two full-year 10-K filings
    the one filed later, on 2024-02-28, is the one kept. *)
Lemma pickAnnual_spec_witness :
  exists r,
    In r (pickAnnual iso_getTime code_compare filings_2023) /\
    end_ r = "2023-12-31" /\
    val r = Fin 1000000 /\ filed r = Some "2024-02-28" /\
    ~ In (annualEntry 250000 "2023-01-01" "2023-12-31" "10-Q" "2024-01-10")
         (pickAnnual iso_getTime code_compare filings_2023) /\
    ~ In (annualEntry 400000 "2023-07-01" "2023-12-31" "10-K" "2024-01-12")
         (pickAnnual iso_getTime code_compare filings_2023).
Proof.
  destruct (pickAnnual_spec iso_getTime code_compare filings_2023)
    as (Hkept & Hform & _ & Hdur & Hrep & _).
  destruct (Hrep (annualEntry 1000000 "2023-01-01" "2023-12-31" "10-K" "2024-02-28")
              "2023-01-01") as (r & Hr & Hend & Hfiled).
  - right. right. right. left. reflexivity.
  - left. reflexivity.
  - reflexivity.
  - discriminate.
  - discriminate.
  - vm_compute. reflexivity.
  - vm_compute. reflexivity.
  - exists r. split; [exact Hr|]. split; [exact Hend|].
    destruct (Hkept r Hr) as [Hin _].
    assert (Hlater : r = annualEntry 1000000 "2023-01-01" "2023-12-31" "10-K" "2024-02-28").
    { destruct Hin as [<- | [<- | [<- | [<- | []]]]];
        try (vm_compute in Hfiled; discriminate Hfiled). reflexivity. }
    split; [rewrite Hlater; reflexivity|]. split; [rewrite Hlater; reflexivity|].
    split.
    + apply Hform. intros [H | [H | [H | H]]]; discriminate H.
    + apply (Hdur (annualEntry 400000 "2023-07-01" "2023-12-31" "10-K" "2024-01-12")
               "2023-07-01" eq_refl).
      left. vm_compute. reflexivity.
Defined.

(** * The FCFF price under the scenario presets *)

Section PresetFields.

Variable prev : Assumptions.
Variable s : ScenarioKey.

Lemma fld_applyScenario_preset (k : string) (x : number) :
  SCENARIO_PRESETS s !! k = Some (JNum x) -> fld (applyScenario prev s) k = x.
Proof.
  intros H. unfold fld. rewrite (applyScenario_inside_preset prev s k _ H). reflexivity.
Qed.

Lemma fld_applyScenario_years :
  fld (applyScenario prev s) "proj_years_n" = fld prev "proj_years_n".
Proof.
  unfold fld. rewrite applyScenario_outside_preset; [reflexivity | discriminate |].
  apply preset_omits.
Qed.

End PresetFields.

(** A length that [Array.from] accepts comes from a finite number
    whose floor it is. *)
Lemma array_length_pos (x : number) (n : nat) :
  array_length x = Some (S n) ->
  exists p : Q, x = Fin p /\ (inject_Z (Z.of_nat (S n)) <= p)%Q.
Proof.
  destruct x as [p| | |]; simpl; try discriminate.
  intros H. exists p. split; [reflexivity|].
  destruct (Qfloor p <=? 0)%Z eqn:E0; [discriminate|].
  destruct (Qfloor p <? 2 ^ 32)%Z; [|discriminate].
  injection H as H. apply Z.leb_gt in E0.
  assert (Hz : Z.of_nat (S n) = Qfloor p) by (rewrite <- H; rewrite Z2Nat.id; lia).
  rewrite Hz. apply Qfloor_le.
Qed.

(** The growth schedule on finite inputs. *)
Lemma buildGrowthSchedule_fin (a : Assumptions) (y1 y2 y3 lt p : Q) (n : nat) :
  fld a "yr1_g" = Fin y1 -> fld a "yr2_g" = Fin y2 -> fld a "yr3_g" = Fin y3 ->
  fld a "lt_g" = Fin lt -> fld a "proj_years_n" = Fin p ->
  array_length (Fin p) = Some n ->
  buildGrowthSchedule a = Some (List.map Fin (List.map (growth_rate_q y1 y2 y3 lt p) (seq 0 n))).
Proof.
  intros H1 H2 H3 Hl Hp Hn. unfold buildGrowthSchedule.
  rewrite H1, H2, H3, Hl, Hp, Hn. f_equal. rewrite map_map.
  apply map_ext. intros i. unfold growth_rate_q.
  destruct (i =? 0)%nat; [reflexivity|].
  destruct (i =? 1)%nat; [reflexivity|].
  destruct (i =? 2)%nat; [reflexivity|].
  unfold of_nat. rewrite !nsub_fin, nmax_fin.
  assert (Hnz : ~ ((if Qltb (p - 3) 1 then 1 else p - 3) == 0)%Q).
  { destruct (Qltb (p - 3) 1) eqn:E; [lra|]. apply Qltb_ge in E. lra. }
  rewrite ndiv_fin by exact Hnz. reflexivity.
Qed.

Lemma compound_fin (gs : list Q) (acc : Q) :
  fold_left (fun acc g => (acc * (Fin 1 + g))%js) (List.map Fin gs) (Fin acc)
  = Fin (compound_q gs acc).
Proof.
  revert acc. induction gs as [|g gs IH]; intros acc; simpl; [reflexivity|].
  apply IH.
Qed.

Section ProformaFin.

Variables (B : Baseline) (a : Assumptions).
Variables (R C S D T cx : Q).
Hypothesis HR : revenue B = Fin R.
Hypothesis HC : cogs B = Fin C.
Hypothesis HS : sga B = Fin S.
Hypothesis HD : da_total B = Fin D.
Hypothesis HT : tax_rate B = Fin T.
Hypothesis Hcx : fld a "capex_pct" = Fin cx.
Hypothesis HRnz : ~ (R == 0)%Q.

(** The FCFF of projection year [i] on a finite baseline. *)
Lemma buildProforma_fcff_nth (gs : list Q) (i : nat) :
  (i < length gs)%nat ->
  nth_error (List.map pf_fcff (buildProforma B (List.map Fin gs) a)) i
  = Some (Fin (fcff_q R C S D T cx (R * compound_q (firstn (i + 1) gs) 1))).
Proof using HR HC HS HD HT Hcx HRnz.
  intros Hi. rewrite nth_error_map. unfold buildProforma, map_i.
  rewrite map_from_nth.
  destruct (nth_error (List.map Fin gs) i) as [x|] eqn:Ex.
  2:{ apply nth_error_None in Ex. rewrite length_map in Ex. lia. }
  cbn [option_map pf_fcff]. f_equal.
  rewrite HR, HC, HS, HD, HT, Hcx.
  assert (Ht : truthy (Fin R) = true) by (simpl; apply Qis0_false in HRnz; rewrite HRnz; reflexivity).
  rewrite Ht. rewrite !ndiv_fin by exact HRnz.
  rewrite Nat.add_0_l, firstn_map, compound_fin.
  reflexivity.
Qed.

Lemma buildProforma_length (growthRates : list number) :
  length (buildProforma B growthRates a) = length growthRates.
Proof using Type. unfold buildProforma, map_i. apply map_from_length. Qed.

(** The list of projected FCFFs on a finite baseline. *)
Lemma buildProforma_fcffs (gs : list Q) :
  List.map pf_fcff (buildProforma B (List.map Fin gs) a)
  = List.map Fin (List.map (fun i => fcff_q R C S D T cx (R * compound_q (firstn (i + 1) gs) 1))
                           (seq 0 (length gs))).
Proof using HR HC HS HD HT Hcx HRnz.
  apply nth_error_ext. intros i.
  destruct (Nat.lt_ge_cases i (length gs)) as [Hi | Hi].
  - rewrite (buildProforma_fcff_nth gs i Hi).
    rewrite nth_error_map, nth_error_map.
    rewrite nth_error_seq.
    destruct (i <? length gs)%nat eqn:E; [reflexivity|].
    apply Nat.ltb_ge in E. lia.
  - rewrite (proj2 (nth_error_None _ _)).
    2:{ rewrite length_map, buildProforma_length, length_map. exact Hi. }
    symmetry. apply nth_error_None. rewrite !length_map, length_seq. exact Hi.
Qed.

End ProformaFin.

(** ** Discounting on finite inputs *)

Lemma spec_discount_factor_fin (r : Q) (y : nat) :
  (0 < 1 + r)%Q -> (1 <= y)%nat ->
  spec_discount_factor (Fin r) y = Fin (df_q r y).
Proof.
  intros Hr Hy. unfold spec_discount_factor, df_q, npow_int.
  rewrite nadd_fin.
  destruct (Z.of_nat y =? 0)%Z eqn:E0; [apply Z.eqb_eq in E0; lia|].
  destruct (Z.of_nat y <? 0)%Z eqn:E1; [apply Z.ltb_lt in E1; lia|].
  simpl andb. cbv iota.
  apply ndiv_fin.
  pose proof (Qpower_0_lt (1 + r) (Z.of_nat y) Hr). lra.
Qed.

Lemma spec_pv_from_fin (r : Q) (fs : list Q) :
  (0 < 1 + r)%Q ->
  forall (y : nat) (acc : Q), (1 <= y)%nat ->
  spec_pv_from (Fin r) y (List.map Fin fs) (Fin acc) = Fin (pv_q r y fs acc).
Proof.
  intros Hr. induction fs as [|f fs IH]; intros y acc Hy;
    cbn [spec_pv_from List.map pv_q]; [reflexivity|].
  rewrite (spec_discount_factor_fin r y Hr Hy).
  rewrite nmul_fin, nadd_fin. apply IH. lia.
Qed.

(** [dcfPrice] on a non-empty list of finite cashflows, with finite
    terminal value, net debt and non-zero share count, at a rate above
    [-1]. *)
Lemma dcfPrice_fin (fs : list Q) (tv r nd sh : Q) :
  fs <> [] -> (0 < 1 + r)%Q -> ~ (sh == 0)%Q ->
  pps (dcfPrice (List.map Fin fs) (Fin tv) (Fin r) (Fin nd) (Fin sh))
  = Fin ((pv_q r 1 fs 0 + tv * df_q r (length fs) - nd) / sh).
Proof.
  intros Hne Hr Hsh.
  assert (Hne' : List.map Fin fs <> []) by (destruct fs; [contradiction | discriminate]).
  rewrite dcfPrice_pps, dcfPrice_ev, dcfPrice_pvFcfs, (dcfPrice_pvTv _ _ _ _ _ Hne').
  unfold spec_pv_cashflows.
  rewrite (spec_pv_from_fin r fs Hr 1 0 (le_n 1)).
  rewrite length_map.
  rewrite (spec_discount_factor_fin r (length fs) Hr).
  2:{ destruct fs; [contradiction | simpl; lia]. }
  simpl truthy. apply Qis0_false in Hsh. rewrite Hsh.
  rewrite nmul_fin, nadd_fin, nsub_fin.
  apply ndiv_fin. apply Qis0_false. exact Hsh.
Qed.

(** ** Comparisons on rationals *)

Lemma Qpower_nat_succ (b : Q) (y : nat) :
  ~ (b == 0)%Q -> (Qpower b (Z.of_nat (S y)) == Qpower b (Z.of_nat y) * b)%Q.
Proof.
  intros Hb. rewrite Nat2Z.inj_succ. unfold Z.succ.
  rewrite (Qpower_plus b _ _ Hb). rewrite Qpower_1_r. reflexivity.
Qed.

(** A larger positive base gives a larger power, from the first power on. *)
Lemma Qpower_base_lt (a b : Q) (y : nat) :
  (0 < a)%Q -> (a < b)%Q -> (1 <= y)%nat ->
  (Qpower a (Z.of_nat y) < Qpower b (Z.of_nat y))%Q.
Proof.
  intros Ha Hab Hy. induction y as [|y IH]; [lia|].
  destruct y as [|y].
  - change (Z.of_nat 1) with 1%Z. rewrite !Qpower_1_r. exact Hab.
  - assert (IH' := IH ltac:(lia)).
    rewrite (Qpower_nat_succ a (S y)) by lra.
    rewrite (Qpower_nat_succ b (S y)) by lra.
    pose proof (Qpower_0_lt a (Z.of_nat (S y)) Ha).
    nra.
Qed.

(** A lower rate gives a larger discount factor for every year. *)
Lemma df_q_pos (r : Q) (y : nat) : (0 < 1 + r)%Q -> (0 < df_q r y)%Q.
Proof.
  intros Hr. unfold df_q.
  pose proof (Qpower_0_lt (1 + r) (Z.of_nat y) Hr).
  apply Qlt_shift_div_l; lra.
Qed.

Lemma df_q_rate_lt (r1 r2 : Q) (y : nat) :
  (0 < 1 + r1)%Q -> (r1 < r2)%Q -> (1 <= y)%nat ->
  (df_q r2 y < df_q r1 y)%Q.
Proof.
  intros H1 H12 Hy. unfold df_q.
  assert (Hp1 : (0 < Qpower (1 + r1) (Z.of_nat y))%Q) by (apply Qpower_0_lt; lra).
  assert (Hlt : (Qpower (1 + r1) (Z.of_nat y) < Qpower (1 + r2) (Z.of_nat y))%Q)
    by (apply Qpower_base_lt; [lra | lra | exact Hy]).
  assert (H01 : (0 < 1)%Q) by lra.
  destruct (quotient_antitone 1 _ (Qpower (1 + r2) (Z.of_nat y)) H01 Hp1) as [_ H].
  exact (H Hlt).
Qed.

(** Termwise larger positive cashflows discounted at a lower rate
    have a larger present value. *)
Lemma pv_q_lt (r1 r2 : Q) (f1 f2 : list Q) :
  (0 < 1 + r1)%Q -> (r1 < r2)%Q ->
  Forall2 (fun x1 x2 => 0 < x2 /\ x2 < x1)%Q f1 f2 ->
  forall (y : nat) (acc1 acc2 : Q), (1 <= y)%nat -> (acc2 <= acc1)%Q ->
  (pv_q r2 y f2 acc2 <= pv_q r1 y f1 acc1)%Q /\
  (f1 <> [] -> (pv_q r2 y f2 acc2 < pv_q r1 y f1 acc1)%Q).
Proof.
  intros H1 H12 Hall. induction Hall as [|x1 x2 l1 l2 [Hx2 Hx] Hall IH];
    intros y acc1 acc2 Hy Hacc; simpl.
  - split; [exact Hacc | intros H; contradiction].
  - pose proof (df_q_pos r2 y ltac:(lra)) as Hd2.
    pose proof (df_q_rate_lt r1 r2 y H1 H12 Hy) as Hd.
    assert (Hstep : (acc2 + x2 * df_q r2 y < acc1 + x1 * df_q r1 y)%Q) by nra.
    destruct (IH (S y) (acc1 + x1 * df_q r1 y)%Q (acc2 + x2 * df_q r2 y)%Q
                ltac:(lia) ltac:(lra)) as [Hle Hlt].
    split; [exact Hle|]. intros _.
    destruct l1 as [|z1 l1].
    + inversion Hall; subst. simpl. exact Hstep.
    + apply Hlt. discriminate.
Qed.

(** ** Base against Bear: growth, revenue and free cash flow *)

(** Every year of the schedule grows faster under the Base preset
    than under the Bear preset, and the Bear rates stay above [-1]. *)
Lemma growth_base_above_bear (p : Q) (n i : nat) :
  (inject_Z (Z.of_nat n) <= p)%Q -> (i < n)%nat ->
  (0 < 1 + growth_rate_q 0.005 0.010 0.020 0.020 p i)%Q /\
  (growth_rate_q 0.005 0.010 0.020 0.020 p i < growth_rate_q 0.025 0.035 0.040 0.030 p i)%Q.
Proof.
  intros Hp Hi. unfold growth_rate_q.
  destruct (i =? 0)%nat eqn:E0; [split; reflexivity|].
  destruct (i =? 1)%nat eqn:E1; [split; reflexivity|].
  destruct (i =? 2)%nat eqn:E2; [split; reflexivity|].
  apply Nat.eqb_neq in E0, E1, E2.
  set (m := (if Qltb (p - 3) 1 then 1 else p - 3)%Q).
  set (qi := inject_Z (Z.of_nat i)).
  assert (Hi3 : (3 <= qi)%Q).
  { unfold qi. change 3%Q with (inject_Z 3). rewrite <- Zle_Qle. lia. }
  assert (Hin : (qi + 1 <= inject_Z (Z.of_nat n))%Q).
  { unfold qi. change 1%Q with (inject_Z 1). rewrite <- inject_Z_plus, <- Zle_Qle. lia. }
  assert (Hm : (0 < m)%Q /\ (qi - 2 <= m)%Q).
  { unfold m. destruct (Qltb (p - 3) 1) eqn:E.
    - apply Qltb_lt in E. lra.
    - apply Qltb_ge in E. lra. }
  destruct Hm as [Hm0 Hm1].
  assert (Hfade : ((qi - 2) / m <= 1)%Q) by (apply Qle_shift_div_r; lra).
  assert (Hfade0 : (0 <= (qi - 2) / m)%Q) by (apply Qle_shift_div_l; lra).
  split; nra.
Qed.

Lemma Forall2_map_seq {X : Type} (P : X -> X -> Prop) (f g : nat -> X) (n : nat) :
  (forall i, (i < n)%nat -> P (f i) (g i)) ->
  Forall2 P (List.map f (seq 0 n)) (List.map g (seq 0 n)).
Proof.
  intros H. induction n as [|n IH]; [constructor|].
  rewrite seq_S, !map_app. simpl.
  apply Forall2_app.
  - apply IH. intros i Hi. apply H. lia.
  - constructor; [apply H; lia | constructor].
Qed.

(** Compounding termwise larger rates from a larger start gives more. *)
Lemma compound_q_lt (gb gr : list Q) :
  Forall2 (fun b r => 0 < 1 + r /\ r < b)%Q gb gr ->
  forall accb accr : Q, (0 < accr)%Q -> (accr <= accb)%Q ->
  (0 < compound_q gr accr)%Q /\
  (compound_q gr accr <= compound_q gb accb)%Q /\
  (gb <> [] -> (compound_q gr accr < compound_q gb accb)%Q).
Proof.
  intros Hall. induction Hall as [|b r lb lr [Hr Hrb] Hall IH]; intros accb accr H0 Hle.
  - simpl. split; [exact H0 | split; [exact Hle | intros H; contradiction]].
  - unfold compound_q in *. simpl.
    assert (Hstep : (accr * (1 + r) < accb * (1 + b))%Q) by nra.
    assert (Hpos : (0 < accr * (1 + r))%Q) by nra.
    destruct (IH (accb * (1 + b))%Q (accr * (1 + r))%Q Hpos ltac:(lra)) as (Hp & Hl & Hs).
    split; [exact Hp | split; [exact Hl|]]. intros _.
    destruct lb as [|b' lb].
    + inversion Hall; subst. simpl. exact Hstep.
    + apply Hs. discriminate.
Qed.

(** The FCFF of a year is its revenue times the free-cash-flow margin. *)
Lemma fcff_q_factor (R C S D T cx rev : Q) :
  ~ (R == 0)%Q -> (fcff_q R C S D T cx rev == rev * fcff_margin_q R C S D T cx)%Q.
Proof. intros HR. unfold fcff_q, fcff_margin_q. field. exact HR. Qed.

Lemma fcff_margin_q_capex (R C S D T cx cx' : Q) :
  (fcff_margin_q R C S D T cx == fcff_margin_q R C S D T cx' + (cx' - cx))%Q.
Proof. unfold fcff_margin_q. ring. Qed.

Section BaseAgainstBear.

Variables (R C S D T p : Q) (n : nat).
Hypothesis HR : (0 < R)%Q.
Hypothesis Hp : (inject_Z (Z.of_nat n) <= p)%Q.
Hypothesis Hmargin : (0 < fcff_margin_q R C S D T 0.030)%Q.

(** The growth schedules of the two presets. *)
Let gb : list Q := List.map (growth_rate_q 0.025 0.035 0.040 0.030 p) (seq 0 n).
Let gr : list Q := List.map (growth_rate_q 0.005 0.010 0.020 0.020 p) (seq 0 n).

(** The projected FCFFs of the two presets. *)
Let fb : list Q :=
  List.map (fun i => fcff_q R C S D T 0.025 (R * compound_q (firstn (i + 1) gb) 1)) (seq 0 n).
Let fr : list Q :=
  List.map (fun i => fcff_q R C S D T 0.030 (R * compound_q (firstn (i + 1) gr) 1)) (seq 0 n).

Lemma growth_lists_related : Forall2 (fun b r => 0 < 1 + r /\ r < b)%Q gb gr.
Proof using Hp.
  apply (Forall2_map_seq (fun b r => 0 < 1 + r /\ r < b)%Q).
  intros i Hi. apply (growth_base_above_bear p n i Hp Hi).
Qed.

(** Year by year the Bear FCFF is positive and below the Base FCFF. *)
Lemma fcffs_base_above_bear : Forall2 (fun x1 x2 => 0 < x2 /\ x2 < x1)%Q fb fr.
Proof using HR Hp Hmargin.
  apply (Forall2_map_seq (fun x1 x2 => 0 < x2 /\ x2 < x1)%Q).
  intros i Hi.
  pose proof (Forall2_take _ _ _ (i + 1) growth_lists_related) as Htake.
  assert (Hne : firstn (i + 1) gb <> []).
  { intros Hnil. apply (f_equal (@length Q)) in Hnil.
    rewrite length_firstn in Hnil. unfold gb in Hnil.
    rewrite length_map, length_seq in Hnil. simpl in Hnil. lia. }
  destruct (compound_q_lt _ _ Htake 1 1 ltac:(lra) ltac:(lra)) as (Hc0 & _ & Hc).
  specialize (Hc Hne).
  rewrite !fcff_q_factor by lra.
  rewrite (fcff_margin_q_capex R C S D T 0.025 0.030).
  set (cr := compound_q (firstn (i + 1) gr) 1) in *.
  set (cb := compound_q (firstn (i + 1) gb) 1) in *.
  set (kr := fcff_margin_q R C S D T 0.030) in *.
  assert (H1 : (0 < R * cr)%Q) by nra.
  assert (H2 : (R * cr < R * cb)%Q) by nra.
  split; nra.
Qed.

Lemma fcffs_lengths : length fb = n /\ length fr = n.
Proof using Type.
  unfold fb, fr. rewrite !length_map, !length_seq. split; reflexivity.
Qed.

End BaseAgainstBear.

(** ** The FCFF price of [computeAll] *)

Lemma arr_get_last_some {A : Type} (l : list A) :
  l <> [] -> exists x, arr_get l (Z.of_nat (length l) - 1) = Some x.
Proof.
  intros Hne. destruct (exists_last Hne) as (l' & x & ->).
  exists x. apply arr_get_last.
Qed.

Lemma arr_get_last_fin (fs : list Q) :
  fs <> [] ->
  arr_get (List.map Fin fs) (Z.of_nat (length (List.map Fin fs)) - 1)
  = Some (Fin (List.last fs 0%Q)).
Proof.
  intros Hne. destruct (exists_last Hne) as (l' & x & ->).
  rewrite map_app. simpl List.map. rewrite arr_get_last, last_last. reflexivity.
Qed.

(** The loop of [computeRI] pushes one row per growth rate. *)
Lemma ri_loop_rows (ke plowback : number) (l : list number) :
  forall (k : nat) (st : RiLoop),
    length (riRows_acc (reduce_from (ri_loop_body ke plowback) k l st))
    = (length (riRows_acc st) + length l)%nat.
Proof.
  induction l as [|g l IH]; intros k st; simpl.
  - lia.
  - rewrite IH. unfold ri_loop_body. cbn [riRows_acc]. rewrite length_app. simpl. lia.
Qed.

(** [computeRI] returns whenever the growth schedule has a year. *)
Lemma computeRI_defined (B : Baseline) (a : Assumptions) (ke : number) (gs : list number) :
  buildGrowthSchedule a = Some gs -> gs <> [] ->
  exists r, computeRI B a ke = Some r.
Proof.
  intros Hgs Hne. unfold computeRI.
  destruct (_ || _); [eexists; reflexivity|].
  rewrite Hgs. cbv zeta.
  destruct (ke >? fld a "terminal_g")%js; [|eexists; reflexivity].
  set (st := reduce_i _ gs _).
  assert (Hrows : riRows_acc st <> []).
  { intros Hnil. apply (f_equal (@length _)) in Hnil.
    unfold st, reduce_i in Hnil. rewrite ri_loop_rows in Hnil. simpl in Hnil.
    destruct gs; [contradiction | simpl in Hnil; lia]. }
  assert (Hlen : length (riRows_acc st) = length gs).
  { unfold st, reduce_i. rewrite ri_loop_rows. reflexivity. }
  destruct (arr_get_last_some _ Hrows) as (x & Hx).
  rewrite Hlen in Hx. rewrite Hx. eexists; reflexivity.
Qed.

Section ComputeAllFcff.

Variable pow_other : number -> number -> number.
Variables (B : Baseline) (comps : list (string * Comp))
  (segments : list (string * Segment)) (acquisitions : list (string * Acquisition))
  (histEPS : list number) (a : Assumptions).

(** [computeAll] returns whenever the growth schedule has a year, and
    its FCFF price is that of the FCFF block on the pro-forma. *)
Lemma computeAll_fcff (gs : list number) :
  buildGrowthSchedule a = Some gs -> gs <> [] ->
  exists cv last,
    computeAll pow_other B comps segments acquisitions histEPS a = Some cv /\
    arr_get (buildProforma B gs a) (Z.of_nat (length (buildProforma B gs a)) - 1) = Some last /\
    CV.pps_fcff cv = pps (fcff_dcf B a (buildProforma B gs a) (pf_ebitda last)) /\
    CV.proforma cv = buildProforma B gs a /\
    CV.growthSchedule cv = gs.
Proof using Type.
  intros Hgs Hne.
  assert (Hpf : buildProforma B gs a <> []).
  { intros Hnil. apply (f_equal (@length _)) in Hnil.
    rewrite buildProforma_length in Hnil. destruct gs; [contradiction | discriminate]. }
  destruct (arr_get_last_some _ Hpf) as (last & Hlast).
  unfold computeAll. rewrite Hgs. cbv zeta. rewrite Hlast.
  match goal with
  | |- context [computeRI B a ?k] =>
      destruct (computeRI_defined B a k gs Hgs Hne) as ([pps_ri riRows] & Hri); rewrite Hri
  end.
  destruct (computeJustifiedPE _ _ _) as [pps_jpe jpe].
  destruct (computeJustifiedPB _ _ _) as [pps_jpb jpb].
  destruct (computePCF _ _) as [pps_pcf cfo].
  eexists. exists last. split; [reflexivity|]. split; [reflexivity|].
  cbn [CV.pps_fcff CV.proforma CV.growthSchedule]. repeat split; reflexivity.
Qed.

End ComputeAllFcff.

Lemma fcff_dcf_fin (B : Baseline) (a : Assumptions) (proforma : list ProFormaRow)
    (lastEbitda : number) (fs : list Q) (g w nd sh : Q) :
  List.map pf_fcff proforma = List.map Fin fs -> fs <> [] ->
  fld a "wacc" = Fin w -> fld a "terminal_g" = Fin g ->
  (g < w)%Q -> (0 < 1 + w)%Q ->
  net_debt B = Fin nd -> shares_diluted B = Fin sh -> ~ (sh == 0)%Q ->
  pps (fcff_dcf B a proforma lastEbitda) = Fin (fcff_price_q fs g w nd sh).
Proof.
  intros Hmap Hne Hw Hg Hgw Hw1 Hnd Hsh Hsh0.
  unfold fcff_dcf. cbv zeta. rewrite Hmap, Hw, Hg, Hnd, Hsh.
  assert (Hgt : (Fin w >? Fin g)%js = true) by (apply nlt_fin; exact Hgw).
  rewrite Hgt, (arr_get_last_fin fs Hne).
  cbn [to_number]. rewrite nadd_fin, nmul_fin, nsub_fin.
  rewrite ndiv_fin by lra.
  rewrite (dcfPrice_fin fs _ w nd sh Hne Hw1 Hsh0). reflexivity.
Qed.

Lemma Forall2_last_rel {X : Type} (P : X -> X -> Prop) (l1 l2 : list X) (d1 d2 : X) :
  Forall2 P l1 l2 -> l1 <> [] -> P (List.last l1 d1) (List.last l2 d2).
Proof.
  intros Hall. induction Hall as [|x1 x2 l1 l2 Hx Hall IH]; intros Hne; [contradiction|].
  destruct Hall as [|y1 y2 l1 l2 Hy Hall].
  - exact Hx.
  - change (P (List.last (y1 :: l1) d1) (List.last (y2 :: l2) d2)).
    apply IH. discriminate.
Qed.

Lemma Forall2_above_pos (fb fr : list Q) :
  Forall2 (fun x1 x2 => 0 < x2 /\ x2 < x1)%Q fb fr ->
  forall q, In q fb -> (0 < q)%Q.
Proof.
  intros Hall. induction Hall as [|x1 x2 l1 l2 [H0 Hx] Hall IH]; intros q Hin.
  - destruct Hin.
  - destruct Hin as [<- | Hin]; [lra | exact (IH q Hin)].
Qed.

(** With termwise larger positive cashflows, the Base rate 8.5% and
    terminal growth 2.5% price the firm above the Bear rate 10% and
    terminal growth 2%, per share of a positive share count. *)
Lemma fcff_price_q_lt (fb fr : list Q) (nd sh : Q) :
  Forall2 (fun x1 x2 => 0 < x2 /\ x2 < x1)%Q fb fr -> fb <> [] -> (0 < sh)%Q ->
  (fcff_price_q fr 0.020 0.100 nd sh < fcff_price_q fb 0.025 0.085 nd sh)%Q.
Proof.
  intros Hall Hne Hsh. unfold fcff_price_q.
  assert (H085 : (0 < 1 + 0.085)%Q) by reflexivity.
  assert (Hrate : (0.085 < 0.100)%Q) by reflexivity.
  destruct (pv_q_lt 0.085 0.100 fb fr H085 Hrate Hall 1 0 0 (le_n 1) (Qle_refl 0))
    as [_ Hpv]. specialize (Hpv Hne).
  destruct (Forall2_last_rel _ fb fr 0%Q 0%Q Hall Hne) as [Hl0 Hll].
  assert (Hlen : length fb = length fr) by (eapply Forall2_length; exact Hall).
  rewrite <- Hlen.
  assert (Hy : (1 <= length fb)%nat) by (destruct fb; [contradiction | simpl; lia]).
  pose proof (df_q_pos 0.100 (length fb) ltac:(reflexivity)) as Hd0.
  pose proof (df_q_rate_lt 0.085 0.100 (length fb) H085 Hrate Hy) as Hd.
  set (lb := List.last fb 0%Q) in *. set (lr := List.last fr 0%Q) in *.
  set (db := df_q 0.085 (length fb)) in *. set (dr := df_q 0.100 (length fb)) in *.
  set (pb := pv_q 0.085 1 fb 0) in *. set (pr := pv_q 0.100 1 fr 0) in *.
  assert (Etb : (lb * (1 + 0.025) / (0.085 - 0.025) * db == lb * db * (205 # 12))%Q) by (field).
  assert (Etr : (lr * (1 + 0.020) / (0.100 - 0.020) * dr == lr * dr * (51 # 4))%Q) by (field).
  assert (Hprod : (lr * dr < lb * db)%Q) by nra.
  assert (Hprod0 : (0 < lr * dr)%Q) by nra.
  assert (Hev : (pr + lr * (1 + 0.020) / (0.100 - 0.020) * dr - nd
                 < pb + lb * (1 + 0.025) / (0.085 - 0.025) * db - nd)%Q).
  { rewrite Etb, Etr. nra. }
  apply Qlt_shift_div_l; [exact Hsh|].
  unfold Qdiv at 1.
  rewrite <- Qmult_assoc, (Qmult_comm (/ sh)), Qmult_inv_r by lra.
  rewrite Qmult_1_r. exact Hev.
Qed.

(** The FCFF price of [computeAll] in closed form, for a finite
    baseline with non-zero revenue and share count and finite
    assumptions with at least one projection year, [wacc] above
    [terminal_g] and above [-1]. *)
Lemma computeAll_fcff_fin (pow_other : number -> number -> number)
    (B : Baseline) (comps : list (string * Comp)) (segments : list (string * Segment))
    (acquisitions : list (string * Acquisition)) (histEPS : list number) (a : Assumptions)
    (R C SGA D T nd sh y1 y2 y3 lt g w cx p : Q) (n : nat) :
  revenue B = Fin R -> cogs B = Fin C -> sga B = Fin SGA -> da_total B = Fin D ->
  tax_rate B = Fin T -> net_debt B = Fin nd -> shares_diluted B = Fin sh ->
  ~ (R == 0)%Q -> ~ (sh == 0)%Q ->
  fld a "yr1_g" = Fin y1 -> fld a "yr2_g" = Fin y2 -> fld a "yr3_g" = Fin y3 ->
  fld a "lt_g" = Fin lt -> fld a "terminal_g" = Fin g -> fld a "wacc" = Fin w ->
  fld a "capex_pct" = Fin cx -> fld a "proj_years_n" = Fin p ->
  array_length (Fin p) = Some (S n) -> (g < w)%Q -> (0 < 1 + w)%Q ->
  let gs := List.map (growth_rate_q y1 y2 y3 lt p) (seq 0 (S n)) in
  let fs := List.map (fun i => fcff_q R C SGA D T cx (R * compound_q (firstn (i + 1) gs) 1))
                     (seq 0 (S n)) in
  exists cv,
    computeAll pow_other B comps segments acquisitions histEPS a = Some cv /\
    CV.pps_fcff cv = Fin (fcff_price_q fs g w nd sh) /\
    List.map pf_fcff (CV.proforma cv) = List.map Fin fs.
Proof.
  intros HR HC HS HD HT Hnd Hsh HR0 Hsh0 H1 H2 H3 Hlt Hg Hw Hcx Hp Hn Hgw Hw1 gs fs.
  pose proof (buildGrowthSchedule_fin a y1 y2 y3 lt p (S n) H1 H2 H3 Hlt Hp Hn) as Hgs.
  fold gs in Hgs.
  assert (Hne : List.map Fin gs <> []) by (unfold gs; simpl; discriminate).
  destruct (computeAll_fcff pow_other B comps segments acquisitions histEPS a _ Hgs Hne)
    as (cv & last & Hcv & _ & Hpps & Hpf & _).
  pose proof (buildProforma_fcffs B a R C SGA D T cx HR HC HS HD HT Hcx HR0 gs) as Hfs.
  assert (Hlen : length gs = S n) by (unfold gs; rewrite length_map, length_seq; reflexivity).
  rewrite Hlen in Hfs. fold fs in Hfs.
  assert (Hfne : fs <> []) by (unfold fs; simpl; discriminate).
  exists cv. split; [exact Hcv|]. split.
  - rewrite Hpps.
    apply (fcff_dcf_fin B a _ _ fs g w nd sh Hfs Hfne Hw Hg Hgw Hw1 Hnd Hsh Hsh0).
  - rewrite Hpf. exact Hfs.
Qed.

(** C5, as the specification states it, fails for a baseline without
    diluted shares: the sample company with a share count of [0] has
    positive projected FCFFs under both presets, and its FCFF price is
    the sentinel [0] under both, so the Bear price is not strictly
    lower. *)
Lemma bear_price_zero_shares_counterexample :
  match computeAll (fun _ _ => NaN) (sampleWith (Fin 12) (Fin 0)) sampleComps [] [] []
          (applyScenario DEFAULT_ASSUMPTIONS Base),
        computeAll (fun _ _ => NaN) (sampleWith (Fin 12) (Fin 0)) sampleComps [] [] []
          (applyScenario DEFAULT_ASSUMPTIONS Bear) with
  | Some cv_base, Some cv_bear =>
      forallb (fun row => (pf_fcff row >? Fin 0)%js) (CV.proforma cv_base) = true /\
      forallb (fun row => (pf_fcff row >? Fin 0)%js) (CV.proforma cv_bear) = true /\
      CV.pps_fcff cv_base = Fin 0 /\ CV.pps_fcff cv_bear = Fin 0 /\
      (CV.pps_fcff cv_bear <? CV.pps_fcff cv_base)%js = false
  | _, _ => False
  end.
Proof. vm_compute. repeat split; reflexivity. Qed.

(** C5, amended.  For a fixed baseline with finite figures, positive
    revenue and a positive diluted share count, and a prior state that
    gives at least one projection year: if the projected free cash
    flows are positive under the Bear preset (they are then positive
    under the Base preset as well), [computeAll] returns under both
    presets and the FCFF-DCF price per share under the Bear preset is
    strictly lower than under the Base preset, every other input being
    equal. *)
Theorem bear_fcff_price_below_base (pow_other : number -> number -> number)
    (B : Baseline) (comps : list (string * Comp)) (segments : list (string * Segment))
    (acquisitions : list (string * Acquisition)) (histEPS : list number)
    (prev : Assumptions) (R C SGA D T nd sh : Q) (n : nat) :
  revenue B = Fin R -> cogs B = Fin C -> sga B = Fin SGA -> da_total B = Fin D ->
  tax_rate B = Fin T -> net_debt B = Fin nd -> shares_diluted B = Fin sh ->
  (0 < R)%Q -> (0 < sh)%Q ->
  array_length (fld prev "proj_years_n") = Some (S n) ->
  (forall cv, computeAll pow_other B comps segments acquisitions histEPS
                (applyScenario prev Bear) = Some cv ->
     Forall (fun row => (pf_fcff row >? Fin 0)%js = true) (CV.proforma cv)) ->
  exists cv_base cv_bear,
    computeAll pow_other B comps segments acquisitions histEPS (applyScenario prev Base)
      = Some cv_base /\
    computeAll pow_other B comps segments acquisitions histEPS (applyScenario prev Bear)
      = Some cv_bear /\
    Forall (fun row => (pf_fcff row >? Fin 0)%js = true) (CV.proforma cv_base) /\
    (CV.pps_fcff cv_bear <? CV.pps_fcff cv_base)%js = true.
Proof.
  intros HR HC HS HD HT Hnd Hsh HR0 Hsh0 Hn Hpos.
  destruct (array_length_pos _ _ Hn) as (p & Hp & Hpn).
  rewrite Hp in Hn.
  assert (Hyears : forall s, fld (applyScenario prev s) "proj_years_n" = Fin p)
    by (intros s; rewrite fld_applyScenario_years; exact Hp).
  destruct (computeAll_fcff_fin pow_other B comps segments acquisitions histEPS
              (applyScenario prev Base) R C SGA D T nd sh
              0.025 0.035 0.040 0.030 0.025 0.085 0.025 p n
              HR HC HS HD HT Hnd Hsh ltac:(lra) ltac:(lra)
              (fld_applyScenario_preset prev Base "yr1_g" _ eq_refl)
              (fld_applyScenario_preset prev Base "yr2_g" _ eq_refl)
              (fld_applyScenario_preset prev Base "yr3_g" _ eq_refl)
              (fld_applyScenario_preset prev Base "lt_g" _ eq_refl)
              (fld_applyScenario_preset prev Base "terminal_g" _ eq_refl)
              (fld_applyScenario_preset prev Base "wacc" _ eq_refl)
              (fld_applyScenario_preset prev Base "capex_pct" _ eq_refl)
              (Hyears Base) Hn eq_refl eq_refl)
    as (cvb & Hcvb & Hppsb & Hpfb).
  destruct (computeAll_fcff_fin pow_other B comps segments acquisitions histEPS
              (applyScenario prev Bear) R C SGA D T nd sh
              0.005 0.010 0.020 0.020 0.020 0.100 0.030 p n
              HR HC HS HD HT Hnd Hsh ltac:(lra) ltac:(lra)
              (fld_applyScenario_preset prev Bear "yr1_g" _ eq_refl)
              (fld_applyScenario_preset prev Bear "yr2_g" _ eq_refl)
              (fld_applyScenario_preset prev Bear "yr3_g" _ eq_refl)
              (fld_applyScenario_preset prev Bear "lt_g" _ eq_refl)
              (fld_applyScenario_preset prev Bear "terminal_g" _ eq_refl)
              (fld_applyScenario_preset prev Bear "wacc" _ eq_refl)
              (fld_applyScenario_preset prev Bear "capex_pct" _ eq_refl)
              (Hyears Bear) Hn eq_refl eq_refl)
    as (cvr & Hcvr & Hppsr & Hpfr).
  (* the Bear margin is positive: the first Bear cashflow is *)
  assert (Hmargin : (0 < fcff_margin_q R C SGA D T 0.030)%Q).
  { specialize (Hpos cvr Hcvr).
    destruct (CV.proforma cvr) as [|row rows]; [discriminate Hpfr|].
    apply Forall_inv in Hpos.
    cbn [seq List.map] in Hpfr.
    injection Hpfr as Hrow _. rewrite Hrow in Hpos.
    apply nlt_fin in Hpos.
    rewrite fcff_q_factor in Hpos by lra.
    cbn [Nat.add firstn] in Hpos.
    unfold compound_q, growth_rate_q in Hpos.
    cbn [fold_left Nat.eqb] in Hpos.
    nra. }
  pose proof (fcffs_base_above_bear R C SGA D T p (S n) HR0 Hpn Hmargin) as Hall.
  exists cvb, cvr. split; [exact Hcvb|]. split; [exact Hcvr|]. split.
  - (* the Base cashflows are positive too *)
    apply List.Forall_forall. intros row Hin.
    apply (in_map pf_fcff) in Hin. rewrite Hpfb in Hin.
    apply in_map_iff in Hin. destruct Hin as (q & Hq & Hqin).
    rewrite <- Hq. apply nlt_fin.
    exact (Forall2_above_pos _ _ Hall q Hqin).
  - rewrite Hppsb, Hppsr. apply nlt_fin.
    apply fcff_price_q_lt; [exact Hall | simpl; discriminate | exact Hsh0].
Qed.

(** The sample company with five projection years. *)
Lemma bear_fcff_price_below_base_witness :
  exists cv_base cv_bear,
    computeAll (fun _ _ => NaN) sampleBaseline sampleComps [] [] []
      (applyScenario DEFAULT_ASSUMPTIONS Base) = Some cv_base /\
    computeAll (fun _ _ => NaN) sampleBaseline sampleComps [] [] []
      (applyScenario DEFAULT_ASSUMPTIONS Bear) = Some cv_bear /\
    Forall (fun row => (pf_fcff row >? Fin 0)%js = true) (CV.proforma cv_base) /\
    (CV.pps_fcff cv_bear <? CV.pps_fcff cv_base)%js = true.
Proof.
  apply (bear_fcff_price_below_base (fun _ _ => NaN) sampleBaseline sampleComps [] [] []
           DEFAULT_ASSUMPTIONS 1000 500 200 50 0.21 200 100 4); try reflexivity.
  intros cv Hcv. vm_compute in Hcv. injection Hcv as <-.
  repeat constructor.
Defined.

(** * The signal table and the blended summary *)

(** Every row of the signal table carries a value above zero, taken
    from the list of model values, with the signal of that value. *)
Lemma signal_table_rows (B : Baseline) (signalValues : list (string * number)) (r : SignalRow) :
  In r (signal_table B signalValues) ->
  (intrinsicValue r >? Fin 0)%js = true /\
  In (method r, intrinsicValue r) signalValues /\
  signal r = assignSignal (intrinsicValue r) (current_price B).
Proof.
  unfold signal_table. intros Hin.
  apply in_map_iff in Hin. destruct Hin as ([m v] & <- & Hin).
  apply filter_In in Hin. destruct Hin as [Hin Hpos].
  cbn [intrinsicValue method signal]. repeat split; assumption.
Qed.

(** C1 (the code departs from the claim).  For the sample company
    without a book value ([bvps] = 0) under the default assumptions the
    P/B model has no data: its value is 0 and the signal table leaves
    it out.  The blended summary of the dashboard still divides the sum
    of the five multiple-based values by five: the multiples average is
    (33 + 18 + 30 + 15 + 0) / 5 = 19.2, not the mean 24 of the four
    models that have a value, and the blended figure moves with it. *)
Theorem summary_blend_counts_missing_model_as_zero (pow_other : number -> number -> number) :
  match computeAll pow_other (sampleWith (Fin 0) (Fin 100)) sampleComps [] [] []
          DEFAULT_ASSUMPTIONS with
  | Some cv =>
      let sd := summaryData (sampleWith (Fin 0) (Fin 100)) cv in
      num_eqb (CV.pps_pb cv) (Fin 0) = true /\
      existsb (fun r => String.eqb (method r) "P/B") (CV.signalRows cv) = false /\
      forallb (fun r => (intrinsicValue r >? Fin 0)%js) (CV.signalRows cv) = true /\
      num_eqb (CV.pps_ebitda cv) (Fin 33) = true /\
      num_eqb (CV.pps_rev cv) (Fin 18) = true /\
      num_eqb (CV.pps_pe cv) (Fin 30) = true /\
      num_eqb (CV.pps_peg cv) (Fin 15) = true /\
      num_eqb (sd_multiplesAvg sd) (Fin 19.2) = true /\
      num_eqb (sd_multiplesAvg sd) (Fin 24) = false /\
      num_eqb (sd_intrinsicValue sd)
        (CV.pps_fcff cv * Fin 0.35 + Fin 19.2 * Fin 0.45 + CV.pps_sotp cv * Fin 0.20)%js = true
  | None => False
  end.
Proof. vm_compute. repeat split; reflexivity. Qed.

(** * The result of [computeAll]: signal table, votes and consensus *)

(** Opens a hypothesis [computeAll ... = Some cv] into the record that
    [computeAll] builds. *)
Ltac computeAll_inv H :=
  unfold computeAll in H;
  destruct (buildGrowthSchedule _) as [?gs|] in H; [|discriminate H];
  cbv zeta in H;
  destruct (arr_get (buildProforma _ _ _) _) as [?lastRow|] in H; [|discriminate H];
  destruct (computeRI _ _ _) as [[?pps_ri ?riRows]|] in H; [|discriminate H];
  destruct (computeJustifiedPE _ _ _) as [?pps_jpe ?jpe] in H;
  destruct (computeJustifiedPB _ _ _) as [?pps_jpb ?jpb] in H;
  destruct (computePCF _ _) as [?pps_pcf ?cfo] in H;
  injection H as H; subst.

Section ComputeAllShape.

Variable pow_other : number -> number -> number.
Variables (B : Baseline) (comps : list (string * Comp))
  (segments : list (string * Segment)) (acquisitions : list (string * Acquisition))
  (histEPS : list number) (a : Assumptions) (cv : CV.t).
Hypothesis Hcv : computeAll pow_other B comps segments acquisitions histEPS a = Some cv.

(** The signal table is built from the fourteen model values of the
    result, in this order. *)
Lemma computeAll_signalRows :
  CV.signalRows cv = signal_table B
    [ ("FCFF (DCF)", CV.pps_fcff cv); ("FCFE (DCF)", CV.pps_fcfe cv);
      ("Residual Income", CV.pps_ri cv); ("DDM (2-Stage)", CV.pps_ddm cv);
      ("H-Model DDM", CV.pps_hddm cv); ("EBITDA Multiple", CV.pps_ebitda cv);
      ("Revenue Multiple", CV.pps_rev cv); ("P/E Multiple", CV.pps_pe cv);
      ("Justified P/E", CV.pps_jpe cv); ("Justified P/B", CV.pps_jpb cv);
      ("PEG", CV.pps_peg cv); ("P/B", CV.pps_pb cv);
      ("P/CF", CV.pps_pcf cv); ("SOTP", CV.pps_sotp cv) ].
Proof using Hcv. computeAll_inv Hcv. reflexivity. Qed.

Lemma computeAll_counts :
  CV.buys cv = default 0%nat (count_get BUY (count_votes (CV.signalRows cv))) /\
  CV.holds cv = default 0%nat (count_get HOLD (count_votes (CV.signalRows cv))) /\
  CV.sells cv = default 0%nat (count_get SELL (count_votes (CV.signalRows cv))) /\
  CV.finalSignal cv =
    match js_sort (fun x y => (of_nat (snd y) - of_nat (snd x))%js)
            (count_votes (CV.signalRows cv)) with
    | (s, _) :: _ => s
    | [] => HOLD
    end.
Proof using Hcv. computeAll_inv Hcv. repeat split; reflexivity. Qed.

End ComputeAllShape.

Section VoteFacts.

Lemma count_get_bump_same (s : Signal) (acc : list (Signal * nat)) :
  count_get s (count_bump s acc) = Some (S (default 0%nat (count_get s acc))).
Proof.
  induction acc as [|[s' n] acc IH]; simpl.
  - destruct (decide (s = s)); [reflexivity | contradiction].
  - destruct (decide (s' = s)) as [-> | Hne]; simpl.
    + destruct (decide (s = s)); [reflexivity | contradiction].
    + destruct (decide (s' = s)); [contradiction | exact IH].
Qed.

Lemma count_get_bump_other (s s' : Signal) (acc : list (Signal * nat)) :
  s <> s' -> count_get s (count_bump s' acc) = count_get s acc.
Proof.
  intros Hne. induction acc as [|[t n] acc IH]; simpl.
  - destruct (decide (s' = s)); [congruence | reflexivity].
  - destruct (decide (t = s')) as [-> | Ht]; simpl.
    + destruct (decide (s' = s)); [congruence | reflexivity].
    + destruct (decide (t = s)); [reflexivity | exact IH].
Qed.

(** The loop of votes adds to each signal the number of rows that
    carry it. *)
Lemma count_votes_from (s : Signal) (rows : list SignalRow) :
  s <> NA ->
  forall acc,
    default 0%nat (count_get s (fold_left (fun acc r =>
        if decide (signal r = NA) then acc else count_bump (signal r) acc) rows acc))
    = (default 0%nat (count_get s acc) + count_signal s rows)%nat.
Proof.
  intros Hs. unfold count_signal.
  induction rows as [|r rows IH]; intros acc; simpl; [lia|].
  rewrite IH. destruct (decide (signal r = NA)) as [Hna | Hna].
  - rewrite bool_decide_eq_false_2 by congruence. reflexivity.
  - destruct (decide (signal r = s)) as [Heq | Hne].
    + rewrite bool_decide_eq_true_2 by exact Heq. rewrite Heq.
      rewrite count_get_bump_same. simpl. lia.
    + rewrite bool_decide_eq_false_2 by exact Hne.
      rewrite count_get_bump_other by congruence. reflexivity.
Qed.

Lemma count_votes_count (s : Signal) (rows : list SignalRow) :
  s <> NA -> default 0%nat (count_get s (count_votes rows)) = count_signal s rows.
Proof. intros Hs. unfold count_votes. rewrite count_votes_from by exact Hs. reflexivity. Qed.

Lemma count_bump_keys (s : Signal) (acc : list (Signal * nat)) :
  List.NoDup (List.map fst acc) -> List.NoDup (List.map fst (count_bump s acc)).
Proof.
  induction acc as [|[t n] acc IH]; simpl; intros Hnd.
  - constructor; [intros [] | constructor].
  - destruct (decide (t = s)) as [-> | Hne]; simpl; [exact Hnd|].
    apply List.NoDup_cons_iff in Hnd. destruct Hnd as [Hin Hnd].
    constructor; [|exact (IH Hnd)].
    intros Hin'. apply Hin. clear IH Hnd Hin.
    induction acc as [|[u m] acc IH]; simpl in *.
    + destruct Hin' as [H | []]. congruence.
    + destruct (decide (u = s)); simpl in Hin'; [exact Hin'|].
      destruct Hin' as [H | H]; [left; exact H | right; exact (IH H)].
Qed.

Lemma count_votes_keys (rows : list SignalRow) :
  List.NoDup (List.map fst (count_votes rows)).
Proof.
  unfold count_votes.
  assert (H : forall acc, List.NoDup (List.map fst acc) ->
    List.NoDup (List.map fst (fold_left (fun acc r =>
       if decide (signal r = NA) then acc else count_bump (signal r) acc) rows acc))).
  { induction rows as [|r rows IH]; intros acc Hacc; simpl; [exact Hacc|].
    apply IH. destruct (decide (signal r = NA)); [exact Hacc | apply count_bump_keys; exact Hacc]. }
  apply H. constructor.
Qed.

Lemma count_get_In (s : Signal) (n : nat) (acc : list (Signal * nat)) :
  List.NoDup (List.map fst acc) -> In (s, n) acc -> count_get s acc = Some n.
Proof.
  induction acc as [|[t m] acc IH]; simpl; [tauto|].
  intros Hnd [Heq | Hin].
  - injection Heq as -> ->. destruct (decide (s = s)); [reflexivity | contradiction].
  - apply List.NoDup_cons_iff in Hnd. destruct Hnd as [Hnotin Hnd].
    destruct (decide (t = s)) as [-> | Hne]; [|exact (IH Hnd Hin)].
    exfalso. apply Hnotin. exact (in_map fst _ _ Hin).
Qed.

Lemma count_get_Some_In (s : Signal) (n : nat) (acc : list (Signal * nat)) :
  count_get s acc = Some n -> In (s, n) acc.
Proof.
  induction acc as [|[t m] acc IH]; simpl; [discriminate|].
  destruct (decide (t = s)) as [-> | Hne].
  - intros [= ->]. left. reflexivity.
  - intros H. right. exact (IH H).
Qed.

Lemma of_nat_sub_pos (x y : nat) :
  ((of_nat y - of_nat x)%js >? Fin 0)%js = true <-> (x < y)%nat.
Proof.
  unfold of_nat. rewrite nsub_fin. unfold ngt. rewrite nlt_fin.
  unfold Qminus. rewrite <- inject_Z_opp, <- inject_Z_plus.
  change 0%Q with (inject_Z 0). rewrite <- Zlt_Qlt. lia.
Qed.

(** Sorting the vote counts in descending order puts an entry with
    the largest count first. *)
Lemma sort_votes_head (l : list (Signal * nat)) :
  match js_sort (fun x y => (of_nat (snd y) - of_nat (snd x))%js) l with
  | [] => l = []
  | (s, n) :: _ => In (s, n) l /\ forall s' n', In (s', n') l -> (n' <= n)%nat
  end.
Proof.
  induction l as [|[s n] l IH]; cbn [js_sort fold_right]; [reflexivity|].
  fold (js_sort (fun x y : Signal * nat => (of_nat (snd y) - of_nat (snd x))%js) l).
  destruct (js_sort _ l) as [|[h m] t] eqn:E.
  - subst l. cbn [sort_insert]. split; [left; reflexivity|].
    intros s' n' [[= <- <-] | []]. lia.
  - destruct IH as [Hin Hmax]. cbn [sort_insert].
    destruct (_ >? Fin 0)%js eqn:Ec.
    + apply of_nat_sub_pos in Ec. cbn [snd] in Ec.
      split; [right; exact Hin|].
      intros s' n' [[= <- <-] | H]; [lia | exact (Hmax s' n' H)].
    + assert (Hge : (m <= n)%nat).
      { destruct (Nat.le_gt_cases m n) as [H | H]; [exact H|].
        apply (of_nat_sub_pos n m) in H. cbn [snd] in Ec. congruence. }
      split; [left; reflexivity|].
      intros s' n' [[= <- <-] | H]; [lia|].
      specialize (Hmax s' n' H). lia.
Qed.

Lemma assignSignal_no_market (intrinsic market : number) :
  (market >? Fin 0)%js = false -> assignSignal intrinsic market = NA.
Proof.
  intros H. unfold assignSignal.
  destruct market as [m| | |]; simpl in *; try reflexivity; try discriminate.
  apply Qltb_ge in H. destruct (Qis0 m); simpl; [reflexivity|].
  apply Qle_bool_iff in H. rewrite H. reflexivity.
Qed.

Lemma assignSignal_market_not_NA (intrinsic market : number) :
  (market >? Fin 0)%js = true -> assignSignal intrinsic market <> NA.
Proof.
  intros H. rewrite (assignSignal_market_pos _ _ H).
  destruct (intrinsic >? market * Fin 1.15)%js; [discriminate|].
  destruct (intrinsic <? market * Fin 0.85)%js; discriminate.
Qed.

End VoteFacts.

Lemma count_signal_total (rows : list SignalRow) :
  (count_signal BUY rows + count_signal HOLD rows + count_signal SELL rows
   + count_signal NA rows = length rows)%nat.
Proof.
  unfold count_signal. induction rows as [|r rows IH]; simpl; [reflexivity|].
  destruct (signal r); simpl; lia.
Qed.

Lemma count_signal_none (s : Signal) (rows : list SignalRow) :
  (forall r, In r rows -> signal r <> s) -> count_signal s rows = 0%nat.
Proof.
  unfold count_signal. induction rows as [|r rows IH]; intros H; simpl; [reflexivity|].
  rewrite bool_decide_eq_false_2 by (apply H; left; reflexivity).
  apply IH. intros r' Hr'. apply H. right. exact Hr'.
Qed.

Lemma count_votes_all_NA (rows : list SignalRow) :
  (forall r, In r rows -> signal r = NA) -> count_votes rows = [].
Proof.
  unfold count_votes. induction rows as [|r rows IH]; intros H; simpl; [reflexivity|].
  destruct (decide (signal r = NA)) as [_ | Hne].
  - apply IH. intros r' Hr'. apply H. right. exact Hr'.
  - exfalso. apply Hne. apply H. left. reflexivity.
Qed.

Lemma count_votes_no_NA (rows : list SignalRow) (n : nat) :
  ~ In (NA, n) (count_votes rows).
Proof.
  assert (H : forall acc, count_get NA (fold_left (fun acc r =>
      if decide (signal r = NA) then acc else count_bump (signal r) acc) rows acc)
      = count_get NA acc).
  { induction rows as [|r rows IH]; intros acc; simpl; [reflexivity|].
    rewrite IH. destruct (decide (signal r = NA)); [reflexivity|].
    apply count_get_bump_other. congruence. }
  intros Hin.
  apply (count_get_In NA n _ (count_votes_keys rows)) in Hin.
  unfold count_votes in Hin. rewrite H in Hin. discriminate Hin.
Qed.

Lemma count_bump_positive (t : Signal) (acc : list (Signal * nat)) :
  (forall s m, In (s, m) acc -> (1 <= m)%nat) ->
  forall s m, In (s, m) (count_bump t acc) -> (1 <= m)%nat.
Proof.
  induction acc as [|[u k] acc IH]; simpl; intros Hacc s m Hin.
  - destruct Hin as [[= <- <-] | []]. lia.
  - destruct (decide (u = t)); simpl in Hin.
    + destruct Hin as [[= <- <-] | H]; [lia|].
      apply (Hacc s m). right. exact H.
    + destruct Hin as [[= <- <-] | H].
      * apply (Hacc u k). left. reflexivity.
      * apply (IH (fun s' m' H' => Hacc s' m' (or_intror H')) s m H).
Qed.

Lemma count_votes_positive (rows : list SignalRow) (s : Signal) (m : nat) :
  In (s, m) (count_votes rows) -> (1 <= m)%nat.
Proof.
  unfold count_votes.
  assert (H : forall acc, (forall s m, In (s, m) acc -> (1 <= m)%nat) ->
    forall s m, In (s, m) (fold_left (fun acc r =>
       if decide (signal r = NA) then acc else count_bump (signal r) acc) rows acc) ->
    (1 <= m)%nat).
  { induction rows as [|r rows IH]; intros acc Hacc s' m'; simpl; [apply Hacc|].
    apply IH. destruct (decide (signal r = NA)); [exact Hacc|].
    apply count_bump_positive. exact Hacc. }
  apply H. intros s' m' [].
Qed.

(** [computeAll] returns for every company at the default assumptions
    (five projection years). *)
Lemma computeAll_default_defined (B : Baseline) :
  exists cv, computeAll (fun _ _ => NaN) B sampleComps [] [] [] DEFAULT_ASSUMPTIONS = Some cv.
Proof.
  destruct (buildGrowthSchedule DEFAULT_ASSUMPTIONS) as [gs|] eqn:Hgs;
    [|vm_compute in Hgs; discriminate Hgs].
  assert (Hne : gs <> []).
  { intros ->. vm_compute in Hgs. discriminate Hgs. }
  destruct (computeAll_fcff (fun _ _ => NaN) B sampleComps [] [] [] DEFAULT_ASSUMPTIONS
              gs Hgs Hne) as (cv & _ & Hcv & _).
  exists cv. exact Hcv.
Qed.

(** X1.  The signal table of every result of [computeAll] holds
    exactly the models whose value is above zero: every row carries a
    value [> 0] (so never zero, a negative value or [NaN]), under the
    name of its model and with the signal [assignSignal] gives that
    value at the current price; every model value above zero has its
    row; and there are at most fourteen rows. *)
Theorem computeAll_signal_rows_positive (pow_other : number -> number -> number)
    (B : Baseline) (comps : list (string * Comp)) (segments : list (string * Segment))
    (acquisitions : list (string * Acquisition)) (histEPS : list number)
    (a : Assumptions) (cv : CV.t) :
  computeAll pow_other B comps segments acquisitions histEPS a = Some cv ->
  (forall r, In r (CV.signalRows cv) ->
     (intrinsicValue r >? Fin 0)%js = true /\
     In (method r, intrinsicValue r) (model_values cv) /\
     signal r = assignSignal (intrinsicValue r) (current_price B)) /\
  (forall m v, In (m, v) (model_values cv) -> (v >? Fin 0)%js = true ->
     exists r, In r (CV.signalRows cv) /\ method r = m /\ intrinsicValue r = v) /\
  (length (CV.signalRows cv) <= 14)%nat.
Proof.
  intros Hcv.
  pose proof (computeAll_signalRows pow_other B comps segments acquisitions histEPS a cv Hcv)
    as Hrows.
  change (CV.signalRows cv = signal_table B (model_values cv)) in Hrows.
  rewrite Hrows. split; [|split].
  - intros r Hr. exact (signal_table_rows B _ r Hr).
  - intros m v Hin Hpos. unfold signal_table.
    eexists. split.
    + apply in_map_iff. exists (m, v). split; [reflexivity|].
      apply filter_In. split; [exact Hin | exact Hpos].
    + split; reflexivity.
  - unfold signal_table. rewrite length_map.
    etransitivity; [apply filter_length_le|]. simpl. lia.
Qed.

Lemma computeAll_signal_rows_positive_witness :
  exists cv,
    computeAll (fun _ _ => NaN) (sampleWith (Fin 0) (Fin 100)) sampleComps [] [] []
      DEFAULT_ASSUMPTIONS = Some cv /\
    (forall r, In r (CV.signalRows cv) -> (intrinsicValue r >? Fin 0)%js = true) /\
    (length (CV.signalRows cv) <= 14)%nat.
Proof.
  destruct (computeAll_default_defined (sampleWith (Fin 0) (Fin 100))) as [cv E].
  exists cv. split; [exact E|].
  destruct (computeAll_signal_rows_positive _ _ _ _ _ _ _ cv E) as (H1 & _ & H3).
  split; [|exact H3]. intros r Hr. exact (proj1 (H1 r Hr)).
Defined.

(** X2.  The votes of a result count the rows of its signal table:
    [buys], [holds] and [sells] are the numbers of rows with that
    signal.  At a current price above zero every row votes, so the
    three counts add up to the number of rows; at a price that is not
    above zero (zero, negative or [NaN]) every row is ["N/A"], nothing
    is counted and the consensus falls back to ["HOLD"]. *)
Theorem computeAll_vote_counts (pow_other : number -> number -> number)
    (B : Baseline) (comps : list (string * Comp)) (segments : list (string * Segment))
    (acquisitions : list (string * Acquisition)) (histEPS : list number)
    (a : Assumptions) (cv : CV.t) :
  computeAll pow_other B comps segments acquisitions histEPS a = Some cv ->
  CV.buys cv = count_signal BUY (CV.signalRows cv) /\
  CV.holds cv = count_signal HOLD (CV.signalRows cv) /\
  CV.sells cv = count_signal SELL (CV.signalRows cv) /\
  ((current_price B >? Fin 0)%js = true ->
     (CV.buys cv + CV.holds cv + CV.sells cv = length (CV.signalRows cv))%nat) /\
  ((current_price B >? Fin 0)%js = false ->
     CV.buys cv = 0%nat /\ CV.holds cv = 0%nat /\ CV.sells cv = 0%nat /\
     CV.finalSignal cv = HOLD).
Proof.
  intros Hcv.
  destruct (computeAll_counts pow_other B comps segments acquisitions histEPS a cv Hcv)
    as (Hb & Hh & Hs & Hf).
  assert (Hsig : forall r, In r (CV.signalRows cv) ->
            signal r = assignSignal (intrinsicValue r) (current_price B)).
  { intros r Hr.
    rewrite (computeAll_signalRows pow_other B comps segments acquisitions histEPS a cv Hcv)
      in Hr.
    exact (proj2 (proj2 (signal_table_rows B _ r Hr))). }
  rewrite count_votes_count in Hb, Hh, Hs by discriminate.
  split; [exact Hb|]. split; [exact Hh|]. split; [exact Hs|]. split.
  - intros Hp. rewrite Hb, Hh, Hs.
    pose proof (count_signal_total (CV.signalRows cv)) as Htot.
    rewrite (count_signal_none NA) in Htot; [lia|].
    intros r Hr. rewrite (Hsig r Hr). apply assignSignal_market_not_NA. exact Hp.
  - intros Hp.
    assert (Hna : forall r, In r (CV.signalRows cv) -> signal r = NA).
    { intros r Hr. rewrite (Hsig r Hr). apply assignSignal_no_market. exact Hp. }
    rewrite Hb, Hh, Hs, Hf.
    rewrite !count_signal_none by (intros r Hr; rewrite (Hna r Hr); discriminate).
    rewrite (count_votes_all_NA _ Hna). repeat split; reflexivity.
Qed.

Lemma computeAll_vote_counts_witness :
  exists cv,
    computeAll (fun _ _ => NaN) sampleBaseline sampleComps [] [] []
      DEFAULT_ASSUMPTIONS = Some cv /\
    (CV.buys cv + CV.holds cv + CV.sells cv = length (CV.signalRows cv))%nat.
Proof.
  destruct (computeAll_default_defined sampleBaseline) as [cv E].
  exists cv. split; [exact E|].
  destruct (computeAll_vote_counts _ _ _ _ _ _ _ cv E) as (_ & _ & _ & H & _).
  apply H. reflexivity.
Defined.

(** X3.  The consensus signal of a result is never ["N/A"] and is a
    signal with the most votes: no signal has more votes than the
    consensus.  (Without any vote it is ["HOLD"].) *)
Theorem computeAll_finalSignal_plurality (pow_other : number -> number -> number)
    (B : Baseline) (comps : list (string * Comp)) (segments : list (string * Segment))
    (acquisitions : list (string * Acquisition)) (histEPS : list number)
    (a : Assumptions) (cv : CV.t) :
  computeAll pow_other B comps segments acquisitions histEPS a = Some cv ->
  CV.finalSignal cv <> NA /\
  (forall s : Signal, (votes cv s <= votes cv (CV.finalSignal cv))%nat) /\
  ((CV.buys cv = 0 /\ CV.holds cv = 0 /\ CV.sells cv = 0)%nat -> CV.finalSignal cv = HOLD).
Proof.
  intros Hcv.
  destruct (computeAll_counts pow_other B comps segments acquisitions histEPS a cv Hcv)
    as (Hb & Hh & Hs & Hf).
  set (counts := count_votes (CV.signalRows cv)) in *.
  assert (Hvotes : forall s, s <> NA -> votes cv s = default 0%nat (count_get s counts)).
  { intros s Hs'. destruct s; simpl; try assumption. contradiction. }
  pose proof (count_votes_keys (CV.signalRows cv)) as Hnd. fold counts in Hnd.
  pose proof (sort_votes_head counts) as Hhead.
  destruct (js_sort _ counts) as [|[h n] t].
  - (* no vote at all *)
    rewrite Hf. split; [discriminate|]. split; [|intros _; reflexivity].
    intros s. destruct s; simpl; rewrite ?Hb, ?Hh, ?Hs, Hhead; simpl; lia.
  - destruct Hhead as [Hin Hmax]. rewrite Hf.
    assert (Hh_na : h <> NA).
    { intros ->. exact (count_votes_no_NA _ n Hin). }
    pose proof (count_get_In h n counts Hnd Hin) as Hget.
    assert (Hvh : votes cv h = n) by (rewrite (Hvotes h Hh_na), Hget; reflexivity).
    split; [exact Hh_na|]. split.
    + intros s. rewrite Hvh. destruct (decide (s = NA)) as [-> | Hs'']; [simpl; lia|].
      rewrite (Hvotes s Hs'').
      destruct (count_get s counts) as [m|] eqn:Es; simpl; [|lia].
      exact (Hmax s m (count_get_Some_In _ _ _ Es)).
    + intros (H1 & H2 & H3).
      pose proof (count_votes_positive _ h n Hin) as Hn.
      exfalso. destruct h; simpl in Hvh; try contradiction; lia.
Qed.

Lemma computeAll_finalSignal_plurality_witness :
  exists cv,
    computeAll (fun _ _ => NaN) sampleBaseline sampleComps [] [] []
      DEFAULT_ASSUMPTIONS = Some cv /\
    CV.finalSignal cv <> NA /\
    (CV.sells cv <= votes cv (CV.finalSignal cv))%nat.
Proof.
  destruct (computeAll_default_defined sampleBaseline) as [cv E].
  exists cv. split; [exact E|].
  destruct (computeAll_finalSignal_plurality _ _ _ _ _ _ _ cv E) as (H1 & H2 & _).
  split; [exact H1 | exact (H2 SELL)].
Defined.

Lemma buildGrowthSchedule_length (a : Assumptions) :
  match array_length (fld a "proj_years_n") with
  | Some n => exists gs, buildGrowthSchedule a = Some gs /\ length gs = n
  | None => buildGrowthSchedule a = None
  end.
Proof.
  unfold buildGrowthSchedule. cbv zeta.
  destruct (array_length (fld a "proj_years_n")) as [n|]; [|reflexivity].
  eexists. split; [reflexivity|]. rewrite length_map, length_seq. reflexivity.
Qed.

(** X4.  [computeAll] returns a result exactly when the assumptions
    give at least one projection year, that is, when [proj_years_n]
    is a finite number from 1 up to (but excluding) 2^32.  For any
    other value (below 1, [NaN], an infinity, 2^32 or more) it throws:
    with no year the last pro-forma row that it reads does not exist,
    and a length of 2^32 or more cannot be allocated. *)
Theorem computeAll_returns_iff_projection_year (pow_other : number -> number -> number)
    (B : Baseline) (comps : list (string * Comp)) (segments : list (string * Segment))
    (acquisitions : list (string * Acquisition)) (histEPS : list number)
    (a : Assumptions) :
  ((exists cv, computeAll pow_other B comps segments acquisitions histEPS a = Some cv) <->
   (exists n, array_length (fld a "proj_years_n") = Some (S n))) /\
  ((exists n, array_length (fld a "proj_years_n") = Some (S n)) <->
   (exists p : Q, fld a "proj_years_n" = Fin p /\ (1 <= p)%Q /\ (p < inject_Z (2 ^ 32))%Q)).
Proof.
  split.
  - pose proof (buildGrowthSchedule_length a) as Hlen.
    split.
    + intros (cv & Hcv). unfold computeAll in Hcv.
      destruct (array_length (fld a "proj_years_n")) as [n|].
      * destruct Hlen as (gs & Hgs & Hn). rewrite Hgs in Hcv. cbv zeta in Hcv.
        destruct n as [|n]; [|exists n; reflexivity].
        destruct gs; [|discriminate Hn].
        discriminate Hcv.
      * rewrite Hlen in Hcv. discriminate Hcv.
    + intros (n & Hn). rewrite Hn in Hlen. destruct Hlen as (gs & Hgs & Hl).
      assert (Hne : gs <> []) by (destruct gs; [discriminate Hl | discriminate]).
      destruct (computeAll_fcff pow_other B comps segments acquisitions histEPS a gs Hgs Hne)
        as (cv & _ & Hcv & _).
      exists cv. exact Hcv.
  - split.
    + intros (n & Hn). destruct (fld a "proj_years_n") as [p| | |]; simpl in Hn;
        try discriminate.
      exists p. split; [reflexivity|].
      destruct (Qfloor p <=? 0)%Z eqn:E0; [discriminate|].
      destruct (Qfloor p <? 2 ^ 32)%Z eqn:E1; [|discriminate].
      apply Z.leb_gt in E0. apply Z.ltb_lt in E1.
      split.
      * apply Qle_trans with (inject_Z (Qfloor p)); [|apply Qfloor_le].
        change 1%Q with (inject_Z 1). rewrite <- Zle_Qle. lia.
      * apply Qlt_le_trans with (inject_Z (Qfloor p + 1)); [apply Qlt_floor|].
        rewrite <- Zle_Qle. lia.
    + intros (p & Hp & H1 & H2). rewrite Hp. simpl.
      assert (Hf1 : (1 <= Qfloor p)%Z).
      { change 1%Z with (Qfloor (inject_Z 1)). apply Qfloor_resp_le. exact H1. }
      assert (Hf2 : (Qfloor p < 2 ^ 32)%Z).
      { rewrite Zlt_Qlt. apply Qle_lt_trans with p; [apply Qfloor_le | exact H2]. }
      destruct (Qfloor p <=? 0)%Z eqn:E0; [apply Z.leb_le in E0; lia|].
      destruct (Qfloor p <? 2 ^ 32)%Z eqn:E1; [|apply Z.ltb_ge in E1; lia].
      exists (Nat.pred (Z.to_nat (Qfloor p))). f_equal. lia.
Qed.

(** X5.  Without acquisitions the sum-of-the-parts enterprise value
    falls back to adjusted EBITDA times the peer median EV/EBITDA, so
    the SOTP price per share is the EBITDA-multiple price.  The signal
    table then counts that one estimate twice: whenever it has the row
    ["SOTP"] it also has the row ["EBITDA Multiple"] with the same
    value and the same signal. *)
Theorem computeAll_sotp_fallback (pow_other : number -> number -> number)
    (B : Baseline) (comps : list (string * Comp)) (segments : list (string * Segment))
    (histEPS : list number) (a : Assumptions) (cv : CV.t) :
  computeAll pow_other B comps segments [] histEPS a = Some cv ->
  CV.sotvEV cv = (adj_ebitda B * CV.medianEvm cv)%js /\
  CV.pps_sotp cv = CV.pps_ebitda cv /\
  (forall r, In r (CV.signalRows cv) -> method r = "SOTP" ->
     exists r', In r' (CV.signalRows cv) /\ method r' = "EBITDA Multiple" /\
       intrinsicValue r' = intrinsicValue r /\ signal r' = signal r).
Proof.
  intros Hcv.
  pose proof (computeAll_signalRows pow_other B comps segments [] histEPS a cv Hcv) as Hrows.
  assert (Hev : CV.sotvEV cv = (adj_ebitda B * CV.medianEvm cv)%js /\
                CV.pps_sotp cv = CV.pps_ebitda cv).
  { clear Hrows. computeAll_inv Hcv. split; reflexivity. }
  destruct Hev as [Hev Hpps]. split; [exact Hev|]. split; [exact Hpps|].
  intros r Hr Hm. rewrite Hrows in Hr.
  destruct (signal_table_rows B _ r Hr) as (Hpos & Hin & Hsig).
  assert (Hv : intrinsicValue r = CV.pps_ebitda cv).
  { rewrite Hm in Hin. rewrite <- Hpps.
    repeat (destruct Hin as [Hin | Hin]; [inversion Hin; try reflexivity|]);
      destruct Hin. }
  rewrite Hrows. unfold signal_table.
  eexists. split.
  - apply in_map_iff. exists ("EBITDA Multiple", CV.pps_ebitda cv).
    split; [reflexivity|]. apply filter_In. split.
    + simpl. tauto.
    + rewrite <- Hv. exact Hpos.
  - cbn [method intrinsicValue signal]. rewrite Hsig, Hv. repeat split; reflexivity.
Qed.

Lemma computeAll_sotp_fallback_witness :
  exists cv,
    computeAll (fun _ _ => NaN) sampleBaseline sampleComps [] [] []
      DEFAULT_ASSUMPTIONS = Some cv /\
    CV.pps_sotp cv = CV.pps_ebitda cv.
Proof.
  destruct (computeAll_default_defined sampleBaseline) as [cv E].
  exists cv. split; [exact E|].
  exact (proj1 (proj2 (computeAll_sotp_fallback _ _ _ _ _ _ cv E))).
Defined.

Lemma nmax_zero_not_negative (x : number) : (nmax (Fin 0) x <? Fin 0)%js = false.
Proof.
  destruct x as [q| | |]; try reflexivity.
  rewrite nmax_fin. destruct (Qltb 0 q) eqn:E.
  - apply nlt_fin_false. apply Qltb_lt in E. lra.
  - apply nlt_fin_false. lra.
Qed.

(** X6.  The H-model price is never below zero.  It is [0] when the
    dividend is [<= 0] or the cost of equity is [<=] the long-run
    growth rate.  When neither comparison holds it is
    [Math.max(0, D0*(1+gL)/(r-gL) + D0*H*(gS-gL)/(r-gL))] with
    [H = a.hl ?? 2.5], so a negative H-model value (short-term growth
    far below long-run growth) is floored at zero.  A dividend that is
    [NaN] (a missing one) passes the guard: with a cost of equity above
    the long-run growth rate the result is then [NaN], not [0]. *)
Theorem computeHModelDDM_floor (B : Baseline) (a : Assumptions) (ke : number) :
  (computeHModelDDM B a ke <? Fin 0)%js = false /\
  ((dps B <=? Fin 0)%js = true \/ (ke <=? fld a "terminal_g")%js = true ->
     computeHModelDDM B a ke = Fin 0) /\
  ((dps B <=? Fin 0)%js = false -> (ke <=? fld a "terminal_g")%js = false ->
     computeHModelDDM B a ke
     = nmax (Fin 0)
         ((dps B * (Fin 1 + fld a "terminal_g")) / (ke - fld a "terminal_g")
          + (dps B * fld_or a "hl" (Fin 2.5) * (fld a "yr1_g" - fld a "terminal_g"))
            / (ke - fld a "terminal_g"))%js) /\
  (a !! "hl" = None -> fld_or a "hl" (Fin 2.5) = Fin 2.5) /\
  (dps B = NaN -> (ke <=? fld a "terminal_g")%js = false ->
     computeHModelDDM B a ke = NaN).
Proof.
  split; [|split; [|split; [|split]]].
  - unfold computeHModelDDM. cbv zeta.
    destruct (_ || _); [reflexivity|]. apply nmax_zero_not_negative.
  - intros H. unfold computeHModelDDM. cbv zeta.
    destruct H as [-> | ->]; [reflexivity|]. rewrite orb_true_r. reflexivity.
  - intros H1 H2. unfold computeHModelDDM. cbv zeta. rewrite H1, H2. reflexivity.
  - intros H. unfold fld_or. rewrite H. reflexivity.
  - intros Hd Hk. unfold computeHModelDDM. cbv zeta. rewrite Hd, Hk. reflexivity.
Qed.



Lemma ri_loop_unfold (ke plowback : number) (gs : list number) :
  forall (k : nat) (st : RiLoop),
    let st' := reduce_from (ri_loop_body ke plowback) k gs st in
    riRows_acc st' = riRows_acc st ++ ri_rows_from ke plowback k (bvps_t st) (eps_t st) gs /\
    sumPvRi st' = fold_left (fun acc r => (acc + pv_ri r)%js)
                    (ri_rows_from ke plowback k (bvps_t st) (eps_t st) gs) (sumPvRi st).
Proof.
  induction gs as [|g gs IH]; intros k st; cbn [reduce_from ri_rows_from fold_left].
  - rewrite app_nil_r. split; reflexivity.
  - destruct (IH (S k) (ri_loop_body ke plowback st g k)) as [IH1 IH2].
    cbv zeta in IH1, IH2. split.
    + rewrite IH1. unfold ri_loop_body at 1. cbn [riRows_acc bvps_t eps_t].
      rewrite <- app_assoc. reflexivity.
    + rewrite IH2. reflexivity.
Qed.

Lemma ri_rows_from_length (ke plowback : number) (gs : list number) :
  forall k bv ep, length (ri_rows_from ke plowback k bv ep gs) = length gs.
Proof.
  induction gs as [|g gs IH]; intros k bv ep; simpl; [reflexivity|].
  rewrite IH. reflexivity.
Qed.

Lemma ri_rows_from_row (ke plowback : number) (gs : list number) :
  forall k bv ep i r,
    nth_error (ri_rows_from ke plowback k bv ep gs) i = Some r ->
    ri_year r = (Fin 2025 + of_nat (k + i))%js /\
    required_return r = (ke * bvps_start r)%js /\
    ri r = (eps_proj r - required_return r)%js /\
    pv_ri r = (ri r / npow_int (Fin 1 + ke) (Z.of_nat (k + i + 1)))%js.
Proof.
  induction gs as [|g gs IH]; intros k bv ep i r H.
  - destruct i; discriminate H.
  - destruct i as [|i]; cbn [ri_rows_from nth_error] in H.
    + injection H as <-. cbn [ri_year required_return ri pv_ri bvps_start eps_proj].
      rewrite Nat.add_0_r. repeat split; reflexivity.
    + specialize (IH _ _ _ _ _ H). rewrite Nat.add_succ_r. exact IH.
Qed.

Lemma ri_rows_from_head (ke plowback : number) (gs : list number) (k : nat)
    (bv ep : number) (r : RIProjectionRow) :
  nth_error (ri_rows_from ke plowback k bv ep gs) 0 = Some r ->
  bvps_start r = bv /\
  exists g, nth_error gs 0 = Some g /\ eps_proj r = (ep * (Fin 1 + g))%js.
Proof.
  destruct gs as [|g gs]; [discriminate|].
  cbn [ri_rows_from nth_error]. intros [= <-]. split; [reflexivity|].
  exists g. split; reflexivity.
Qed.

Lemma ri_rows_from_step (ke plowback : number) (gs : list number) :
  forall k bv ep i r r',
    nth_error (ri_rows_from ke plowback k bv ep gs) i = Some r ->
    nth_error (ri_rows_from ke plowback k bv ep gs) (S i) = Some r' ->
    bvps_start r' = (bvps_start r + eps_proj r * plowback)%js /\
    exists g, nth_error gs (S i) = Some g /\ eps_proj r' = (eps_proj r * (Fin 1 + g))%js.
Proof.
  induction gs as [|g gs IH]; intros k bv ep i r r' H H'.
  - destruct i; discriminate H.
  - destruct i as [|i].
    + cbn [ri_rows_from nth_error] in H, H'. injection H as <-.
      apply ri_rows_from_head in H'. cbn [bvps_start eps_proj]. exact H'.
    + cbn [ri_rows_from nth_error] in H. 
      change (nth_error (ri_rows_from ke plowback k bv ep (g :: gs)) (S (S i)))
        with (nth_error (ri_rows_from ke plowback (S k) (bv + ep * (Fin 1 + g) * plowback)%js
                           (ep * (Fin 1 + g))%js gs) (S i)) in H'.
      exact (IH _ _ _ _ _ _ H H').
Qed.

(** X9.  The residual-income table follows the clean-surplus relation.
    When earnings, book value and the cost of equity pass the guard
    and the schedule has a year, [computeRI] returns one row per year;
    the first row starts from the baseline book value and grows the
    baseline EPS by the first rate; each later row starts from the
    book value of the row before plus its retained earnings
    ([B_t = B_(t-1) + EPS_t * plowback]) and grows the EPS of the row
    before by the rate of its year; in every row the charge is
    [ke * B_(t-1)], the residual income is EPS minus the charge, and
    its present value is discounted by [(1 + ke)^t]; the price is the
    baseline book value plus the present values plus the discounted
    terminal residual income. *)
Theorem computeRI_clean_surplus (B : Baseline) (a : Assumptions) (ke : number)
    (gs : list number) :
  (eps B <=? Fin 0)%js = false -> (bvps B <=? Fin 0)%js = false ->
  (ke <=? Fin 0)%js = false ->
  buildGrowthSchedule a = Some gs -> gs <> [] ->
  let plowback := if (plowback_ratio B >? Fin 0)%js then plowback_ratio B
                  else (Fin 1 - payout_ratio B)%js in
  let g := fld a "terminal_g" in
  exists (price : number) (rows : list RIProjectionRow) (last : RIProjectionRow),
    computeRI B a ke = Some (price, rows) /\
    length rows = length gs /\
    (forall r, nth_error rows 0 = Some r ->
       bvps_start r = bvps B /\
       exists g0, nth_error gs 0 = Some g0 /\ eps_proj r = (eps B * (Fin 1 + g0))%js) /\
    (forall i r r', nth_error rows i = Some r -> nth_error rows (S i) = Some r' ->
       bvps_start r' = (bvps_start r + eps_proj r * plowback)%js /\
       exists gi, nth_error gs (S i) = Some gi /\
                  eps_proj r' = (eps_proj r * (Fin 1 + gi))%js) /\
    (forall i r, nth_error rows i = Some r ->
       ri_year r = (Fin 2025 + of_nat i)%js /\
       required_return r = (ke * bvps_start r)%js /\
       ri r = (eps_proj r - required_return r)%js /\
       pv_ri r = (ri r / npow_int (Fin 1 + ke) (Z.of_nat (i + 1)))%js) /\
    nth_error rows (length gs - 1) = Some last /\
    price = (bvps B + fold_left (fun acc r => (acc + pv_ri r)%js) rows (Fin 0)
             + (if (ke >? g)%js then (ri last * (Fin 1 + g)) / (ke - g) else Fin 0)
               / npow_int (Fin 1 + ke) (Z.of_nat (length gs)))%js.
Proof.
  intros He Hb Hk Hgs Hne plowback g.
  set (rows := ri_rows_from ke plowback 0 (bvps B) (eps B) gs).
  assert (Hlen : length rows = length gs) by apply ri_rows_from_length.
  assert (Hlast : exists last, nth_error rows (length gs - 1) = Some last).
  { destruct (nth_error rows (length gs - 1)) as [r|] eqn:E; [exists r; reflexivity|].
    apply nth_error_None in E. destruct gs; [contradiction|]. simpl in *. lia. }
  destruct Hlast as (last & Hlast).
  pose proof (ri_loop_unfold ke plowback gs 0
                {| bvps_t := bvps B; sumPvRi := Fin 0; eps_t := eps B; riRows_acc := [] |})
    as [Hrows Hsum].
  cbv zeta in Hrows, Hsum. cbn [riRows_acc bvps_t eps_t sumPvRi app] in Hrows, Hsum.
  fold rows in Hrows, Hsum.
  exists (bvps B + fold_left (fun acc r => (acc + pv_ri r)%js) rows (Fin 0)
          + (if (ke >? g)%js then (ri last * (Fin 1 + g)) / (ke - g) else Fin 0)
            / npow_int (Fin 1 + ke) (Z.of_nat (length gs)))%js, rows, last.
  split; [|split; [exact Hlen|split; [|split; [|split; [|split; [exact Hlast|reflexivity]]]]]].
  - unfold computeRI. rewrite He, Hb, Hk. cbn [orb]. rewrite Hgs. cbv zeta.
    fold plowback g. unfold reduce_i. rewrite Hrows, Hsum.
    replace (Z.of_nat (length gs) - 1)%Z with (Z.of_nat (length gs - 1))
      by (destruct gs; [contradiction | simpl; lia]).
    rewrite arr_get_nat, Hlast.
    destruct (ke >? g)%js; reflexivity.
  - intros r Hr. exact (ri_rows_from_head _ _ _ _ _ _ _ Hr).
  - intros i r r' Hr Hr'. exact (ri_rows_from_step _ _ _ _ _ _ _ _ _ Hr Hr').
  - intros i r Hr. exact (ri_rows_from_row _ _ _ _ _ _ _ _ Hr).
Qed.

Lemma computeRI_clean_surplus_witness :
  exists (price : number) (rows : list RIProjectionRow),
    computeRI sampleBaseline DEFAULT_ASSUMPTIONS (Fin 0.1) = Some (price, rows) /\
    length rows = 5%nat.
Proof.
  destruct (buildGrowthSchedule DEFAULT_ASSUMPTIONS) as [gs|] eqn:Hgs;
    [|vm_compute in Hgs; discriminate Hgs].
  assert (Hl : length gs = 5%nat).
  { vm_compute in Hgs. injection Hgs as <-. reflexivity. }
  assert (Hne : gs <> []) by (intros ->; discriminate Hl).
  destruct (computeRI_clean_surplus sampleBaseline DEFAULT_ASSUMPTIONS (Fin 0.1) gs
              eq_refl eq_refl eq_refl Hgs Hne) as (price & rows & last & H & Hlen & _).
  exists price, rows. split; [exact H|]. rewrite Hlen. exact Hl.
Defined.

(** [computeRI] at the guard: earnings, book value or a cost of equity
    that is not above zero give the price [0] and no rows. *)
Lemma computeRI_guard (B : Baseline) (a : Assumptions) (ke : number) :
  (eps B <=? Fin 0)%js = true \/ (bvps B <=? Fin 0)%js = true \/ (ke <=? Fin 0)%js = true ->
  computeRI B a ke = Some (Fin 0, []).
Proof.
  intros H. unfold computeRI.
  destruct H as [-> | [-> | ->]]; rewrite ?orb_true_r; reflexivity.
Qed.
Lemma array_length_of_nat (n : nat) :
  (Z.of_nat n < 2 ^ 32)%Z -> array_length (of_nat n) = Some n.
Proof.
  intros Hn. unfold array_length, of_nat. rewrite Qfloor_Z.
  destruct (Z.of_nat n <=? 0)%Z eqn:E0.
  - apply Z.leb_le in E0. f_equal. lia.
  - destruct (Z.of_nat n <? 2 ^ 32)%Z eqn:E1; [|apply Z.ltb_ge in E1; lia].
    rewrite Nat2Z.id. reflexivity.
Qed.

(** X10.  The growth schedule for a whole number [n] of projection
    years (finite rates) has [n] entries: the rates of years 1, 2 and
    3 as given, then a linear fade from the year-3 rate towards the
    long-run rate: at index [i >= 3] the rate is
    [yr3_g + f * (lt_g - yr3_g)] with the weight
    [f = (i - 2) / (n - 3)].  The weight is above 0 and at most 1, and
    it is exactly 1 in the last year ([n >= 4]), whose rate is
    therefore [yr3_g + 1 * (lt_g - yr3_g)]. *)
Theorem buildGrowthSchedule_fade (a : Assumptions) (y1 y2 y3 lt : Q) (n : nat) :
  fld a "yr1_g" = Fin y1 -> fld a "yr2_g" = Fin y2 -> fld a "yr3_g" = Fin y3 ->
  fld a "lt_g" = Fin lt -> fld a "proj_years_n" = of_nat n ->
  (Z.of_nat n < 2 ^ 32)%Z ->
  exists gs : list number,
    buildGrowthSchedule a = Some gs /\ length gs = n /\
    ((1 <= n)%nat -> nth_error gs 0 = Some (Fin y1)) /\
    ((2 <= n)%nat -> nth_error gs 1 = Some (Fin y2)) /\
    ((3 <= n)%nat -> nth_error gs 2 = Some (Fin y3)) /\
    (forall i, (3 <= i < n)%nat ->
       exists f : Q,
         nth_error gs i = Some (Fin y3 + Fin f * (Fin lt - Fin y3))%js /\
         (f == (inject_Z (Z.of_nat i) - 2) / (inject_Z (Z.of_nat n) - 3))%Q /\
         (0 < f <= 1)%Q /\
         (i = (n - 1)%nat -> (f == 1)%Q)).
Proof.
  intros H1 H2 H3 Hl Hp Hn.
  pose proof (buildGrowthSchedule_fin a y1 y2 y3 lt (inject_Z (Z.of_nat n)) n
                H1 H2 H3 Hl Hp (array_length_of_nat n Hn)) as Hgs.
  eexists. split; [exact Hgs|].
  assert (Hnth : forall i, (i < n)%nat ->
            nth_error (List.map Fin (List.map
              (growth_rate_q y1 y2 y3 lt (inject_Z (Z.of_nat n))) (seq 0 n))) i
            = Some (Fin (growth_rate_q y1 y2 y3 lt (inject_Z (Z.of_nat n)) i))).
  { intros i Hi. rewrite map_map. rewrite nth_error_map.
    rewrite nth_error_seq. destruct (i <? n)%nat eqn:E; [reflexivity|].
    apply Nat.ltb_ge in E. lia. }
  split; [rewrite !length_map, length_seq; reflexivity|].
  split; [intros Hi; apply Hnth; lia|].
  split; [intros Hi; apply Hnth; lia|].
  split; [intros Hi; apply Hnth; lia|].
  intros i [Hi3 Hin].
  destruct i as [|[|[|i]]]; try lia.
  set (I := inject_Z (Z.of_nat (S (S (S i))))).
  set (N := inject_Z (Z.of_nat n)).
  assert (HI : (3 <= I)%Q).
  { unfold I. change 3%Q with (inject_Z 3). rewrite <- Zle_Qle. lia. }
  assert (HIN : (I + 1 <= N)%Q).
  { unfold I, N. change 1%Q with (inject_Z 1). rewrite <- inject_Z_plus, <- Zle_Qle. lia. }
  assert (E : Qltb (N - 3) 1 = false) by (apply Qltb_ge; lra).
  exists ((I - 2) / (N - 3))%Q. split; [|split; [reflexivity|split; [split|]]].
  - unfold N. rewrite (Hnth _ Hin). unfold growth_rate_q. cbn [Nat.eqb]. fold I N.
    rewrite E. reflexivity.
  - apply Qlt_shift_div_l; lra.
  - apply Qle_shift_div_r; lra.
  - intros Hlast.
    assert (HN : (N == I + 1)%Q).
    { unfold I, N. change 1%Q with (inject_Z 1). rewrite <- inject_Z_plus.
      apply inject_Z_injective. lia. }
    rewrite HN. field. lra.
Qed.

Lemma buildGrowthSchedule_fade_witness :
  exists gs : list number,
    buildGrowthSchedule DEFAULT_ASSUMPTIONS = Some gs /\ length gs = 5%nat /\
    exists f : Q,
      nth_error gs 4 = Some (Fin 0.040 + Fin f * (Fin 0.030 - Fin 0.040))%js /\ (f == 1)%Q.
Proof.
  destruct (buildGrowthSchedule_fade DEFAULT_ASSUMPTIONS 0.025 0.035 0.040 0.030 5
              eq_refl eq_refl eq_refl eq_refl eq_refl ltac:(reflexivity))
    as (gs & H & Hl & _ & _ & _ & Hf).
  exists gs. split; [exact H|]. split; [exact Hl|].
  destruct (Hf 4%nat ltac:(lia)) as (f & Hq & _ & _ & Hlast).
  exists f. split; [exact Hq | apply Hlast; reflexivity].
Defined.
Section MedianFacts.

Lemma nle_trans (x y z : number) :
  (x <=? y)%js = true -> (y <=? z)%js = true -> (x <=? z)%js = true.
Proof.
  destruct x as [a| | |], y as [b| | |], z as [c| | |]; simpl;
    try discriminate; try reflexivity.
  intros H1 H2. apply Qle_bool_iff in H1, H2. apply Qle_bool_iff.
  exact (Qle_trans _ _ _ H1 H2).
Qed.

Lemma cmp_sub_fin (x y : number) :
  isFinite x = true -> isFinite y = true ->
  if ((x - y) >? Fin 0)%js then (y <=? x)%js = true else (x <=? y)%js = true.
Proof.
  destruct x as [a| | |], y as [b| | |]; try discriminate. intros _ _.
  rewrite nsub_fin. destruct (Fin (a - b) >? Fin 0)%js eqn:E.
  - apply nlt_fin in E. apply nle_fin. lra.
  - apply nlt_fin_false in E. apply nle_fin. lra.
Qed.

Lemma sort_insert_ascending (x : number) (l : list number) :
  isFinite x = true -> List.Forall (fun y => isFinite y = true) l -> ascending l ->
  ascending (sort_insert (fun x y => (x - y)%js) x l).
Proof.
  intros Hx. induction l as [|y l IH]; intros Hfin Hasc.
  - simpl. split; [constructor | exact I].
  - apply List.Forall_cons_iff in Hfin. destruct Hfin as [Hy Hfin].
    destruct Hasc as [Hyl Hasc]. cbn [sort_insert].
    pose proof (cmp_sub_fin x y Hx Hy) as Hc.
    destruct ((x - y) >? Fin 0)%js.
    + cbn [ascending]. split; [|exact (IH Hfin Hasc)].
      apply List.Forall_forall. intros z Hz.
      apply (Permutation_in _ (sort_insert_perm _ x l)) in Hz.
      destruct Hz as [<- | Hz]; [exact Hc|].
      rewrite List.Forall_forall in Hyl. exact (Hyl z Hz).
    + cbn [ascending]. split; [|split; assumption].
      constructor; [exact Hc|].
      apply List.Forall_forall. intros z Hz.
      rewrite List.Forall_forall in Hyl. exact (nle_trans _ _ _ Hc (Hyl z Hz)).
Qed.

Lemma js_sort_ascending (l : list number) :
  List.Forall (fun y => isFinite y = true) l ->
  ascending (js_sort (fun x y => (x - y)%js) l).
Proof.
  induction l as [|x l IH]; intros Hfin; [exact I|].
  apply List.Forall_cons_iff in Hfin. destruct Hfin as [Hx Hfin].
  cbn [js_sort fold_right]. apply sort_insert_ascending; [exact Hx| |exact (IH Hfin)].
  apply List.Forall_forall. intros z Hz.
  apply (Permutation_in _ (js_sort_perm _ l)) in Hz.
  rewrite List.Forall_forall in Hfin. exact (Hfin z Hz).
Qed.

Lemma filter_length_perm {A : Type} (f : A -> bool) (l l' : list A) :
  Permutation l l' -> length (List.filter f l) = length (List.filter f l').
Proof.
  induction 1 as [|x l l' _ IH|x y l|l l' l'' _ IH1 _ IH2]; simpl.
  - reflexivity.
  - destruct (f x); simpl; rewrite IH; reflexivity.
  - destruct (f x), (f y); reflexivity.
  - rewrite IH1. exact IH2.
Qed.

(** In an ascending list the entries up to index [i] are at most any
    value at or above the entry at [i] ... *)
Lemma ascending_count_below (s : list number) :
  ascending s ->
  forall i x y, nth_error s i = Some x -> (x <=? y)%js = true ->
    (i + 1 <= length (List.filter (fun z => (z <=? y)%js) s))%nat.
Proof.
  induction s as [|a s IH]; intros Hasc i x y Hi Hxy.
  - destruct i; discriminate Hi.
  - destruct Hasc as [Ha Hasc]. destruct i as [|i]; cbn [nth_error] in Hi.
    + injection Hi as ->. cbn [List.filter]. rewrite Hxy. simpl. lia.
    + assert (Hax : (a <=? x)%js = true).
      { rewrite List.Forall_forall in Ha. apply Ha. exact (nth_error_In _ _ Hi). }
      cbn [List.filter]. rewrite (nle_trans _ _ _ Hax Hxy). cbn [length].
      specialize (IH Hasc i x y Hi Hxy). lia.
Qed.

(** ... and the entries from index [i] on are at least any value at or
    below the entry at [i]. *)
Lemma ascending_count_above (s : list number) :
  ascending s ->
  forall i x y, nth_error s i = Some x -> (y <=? x)%js = true ->
    (length s - i <= length (List.filter (fun z => (y <=? z)%js) s))%nat.
Proof.
  induction s as [|a s IH]; intros Hasc i x y Hi Hyx.
  - destruct i; discriminate Hi.
  - destruct Hasc as [Ha Hasc]. destruct i as [|i]; cbn [nth_error] in Hi.
    + injection Hi as ->.
      assert (Hall : List.filter (fun z => (y <=? z)%js) (x :: s) = x :: s).
      { apply forallb_filter_id. cbn [forallb]. rewrite Hyx. cbn [andb].
        apply forallb_forall. intros z Hz. rewrite List.Forall_forall in Ha.
        exact (nle_trans _ _ _ Hyx (Ha z Hz)). }
      rewrite Hall. lia.
    + specialize (IH Hasc i x y Hi Hyx). cbn [List.filter length].
      destruct (y <=? a)%js; cbn [length]; lia.
Qed.

Lemma filter_isFinite_all (arr : list number) :
  List.Forall (fun y => isFinite y = true) (List.filter isFinite arr).
Proof.
  apply List.Forall_forall. intros z Hz. apply filter_In in Hz. exact (proj2 Hz).
Qed.

End MedianFacts.

(** X11.  The peer median looks only at the finite entries.  Without a
    finite entry it is [0]; otherwise it is a finite number that
    splits the finite entries in halves: at least half of them are at
    or below it and at least half are at or above it; it lies between
    two of them, and for an odd number of finite entries it is one of
    them. *)
Theorem median_splits (arr : list number) :
  (List.filter isFinite arr = [] -> median arr = Fin 0) /\
  (List.filter isFinite arr <> [] ->
     exists q : Q,
       median arr = Fin q /\
       (length (List.filter isFinite arr)
        <= 2 * length (List.filter (fun x => (x <=? Fin q)%js) (List.filter isFinite arr)))%nat /\
       (length (List.filter isFinite arr)
        <= 2 * length (List.filter (fun x => (Fin q <=? x)%js) (List.filter isFinite arr)))%nat /\
       (exists lo hi, In lo (List.filter isFinite arr) /\ In hi (List.filter isFinite arr) /\
                      (lo <=? Fin q)%js = true /\ (Fin q <=? hi)%js = true) /\
       (Nat.odd (length (List.filter isFinite arr)) = true ->
          In (Fin q) (List.filter isFinite arr))).
Proof.
  set (fin := List.filter isFinite arr).
  unfold median. cbv zeta. fold fin.
  set (s := js_sort (fun x y => (x - y)%js) fin).
  pose proof (js_sort_perm (fun x y => (x - y)%js) fin) as Hperm. fold s in Hperm.
  assert (Hlen : length s = length fin) by (apply Permutation_length; exact Hperm).
  split.
  - intros Hnil. rewrite Hlen, Hnil. reflexivity.
  - intros Hne.
    assert (Hpos : (0 < length fin)%nat) by (destruct fin; [contradiction | simpl; lia]).
    assert (Hasc : ascending s) by (apply js_sort_ascending, filter_isFinite_all).
    assert (Hfin : forall x, In x s -> exists q, x = Fin q).
    { intros x Hx. apply (Permutation_in _ Hperm) in Hx.
      apply filter_In in Hx. destruct Hx as [_ Hx]. destruct x; try discriminate.
      eexists; reflexivity. }
    assert (Hin : forall x, In x s -> In x fin).
    { intros x Hx. exact (Permutation_in _ Hperm Hx). }
    assert (Hcnt : forall f, length (List.filter f s) = length (List.filter f fin)).
    { intros f. apply filter_length_perm. exact Hperm. }
    rewrite Hlen.
    destruct (length fin =? 0)%nat eqn:E0; [apply Nat.eqb_eq in E0; lia|].
    set (m := (length fin / 2)%nat).
    pose proof (Nat.div_mod_eq (length fin) 2) as Hdm. fold m in Hdm.
    pose proof (Nat.mod_upper_bound (length fin) 2 ltac:(lia)) as Hmod.
    assert (Hm : exists xm, nth_error s m = Some xm).
    { destruct (nth_error s m) as [xm|] eqn:E; [exists xm; reflexivity|].
      apply nth_error_None in E. lia. }
    destruct Hm as (xm & Hxm).
    destruct (Hfin xm (nth_error_In _ _ Hxm)) as (qm & ->).
    rewrite arr_get_nat, Hxm. cbn [to_number].
    destruct (length fin mod 2 =? 0)%nat eqn:Ev.
    + (* an even number of finite entries *)
      apply Nat.eqb_eq in Ev.
      assert (Hm1 : (1 <= m)%nat) by lia.
      replace (Z.of_nat m - 1)%Z with (Z.of_nat (m - 1)) by lia.
      assert (Hl : exists xl, nth_error s (m - 1) = Some xl).
      { destruct (nth_error s (m - 1)) as [xl|] eqn:E; [exists xl; reflexivity|].
        apply nth_error_None in E. lia. }
      destruct Hl as (xl & Hxl).
      destruct (Hfin xl (nth_error_In _ _ Hxl)) as (ql & ->).
      rewrite arr_get_nat, Hxl. cbn [to_number].
      rewrite nadd_fin, ndiv_fin by lra.
      assert (Hlm : (ql <= qm)%Q).
      { apply nle_fin.
        assert (Hsplit : s = firstn (m - 1) s ++ Fin ql :: skipn (S (m - 1)) s).
        { symmetry. rewrite <- (firstn_skipn (m - 1) s) at 3. f_equal.
          clear - Hxl. revert Hxl. generalize (m - 1)%nat. induction s as [|a s IH]; intros [|k] H;
            try discriminate.
          - injection H as ->. reflexivity.
          - cbn [skipn]. apply IH. exact H. }
        assert (Hasc' : ascending (Fin ql :: skipn (S (m - 1)) s)).
        { clear - Hasc Hsplit. rewrite Hsplit in Hasc. revert Hasc.
          generalize (firstn (m - 1) s). intros pre. induction pre as [|a pre IH]; intros H.
          - exact H.
          - apply IH. exact (proj2 H). }
        destruct Hasc' as [Hall _]. rewrite List.Forall_forall in Hall. apply Hall.
        replace (S (m - 1)) with m by lia.
        clear - Hxm. revert Hxm. generalize m. induction s as [|a s IH]; intros [|k] H;
          try discriminate.
        - injection H as ->. left. reflexivity.
        - cbn [skipn]. apply IH. exact H. }
      exists ((ql + qm) / 2)%Q. split; [reflexivity|].
      assert (H1 : (Fin ql <=? Fin ((ql + qm) / 2))%js = true).
      { apply nle_fin. apply Qle_shift_div_l; lra. }
      assert (H2 : (Fin ((ql + qm) / 2) <=? Fin qm)%js = true).
      { apply nle_fin. apply Qle_shift_div_r; lra. }
      split; [|split; [|split]].
      * rewrite <- Hcnt.
        pose proof (ascending_count_below s Hasc _ _ _ Hxl H1). lia.
      * rewrite <- Hcnt.
        pose proof (ascending_count_above s Hasc _ _ _ Hxm H2). lia.
      * exists (Fin ql), (Fin qm).
        split; [exact (Hin _ (nth_error_In _ _ Hxl))|].
        split; [exact (Hin _ (nth_error_In _ _ Hxm))|]. split; assumption.
      * intros Hodd. apply Nat.odd_spec in Hodd. destruct Hodd as [k Hk]. lia.
    + (* an odd number of finite entries *)
      apply Nat.eqb_neq in Ev.
      exists qm. split; [reflexivity|].
      assert (Hrefl : (Fin qm <=? Fin qm)%js = true) by (apply nle_fin; lra).
      split; [|split; [|split]].
      * rewrite <- Hcnt.
        pose proof (ascending_count_below s Hasc _ _ _ Hxm Hrefl). lia.
      * rewrite <- Hcnt.
        pose proof (ascending_count_above s Hasc _ _ _ Hxm Hrefl). lia.
      * exists (Fin qm), (Fin qm).
        split; [exact (Hin _ (nth_error_In _ _ Hxm))|].
        split; [exact (Hin _ (nth_error_In _ _ Hxm))|]. split; assumption.
      * intros _. exact (Hin _ (nth_error_In _ _ Hxm)).
Qed.

(** * Scenario state: how the updates compose *)

(** The three presets carry the same fields. *)
Lemma preset_same_fields (s1 s2 : ScenarioKey) (k : string) :
  SCENARIO_PRESETS s1 !! k = None -> SCENARIO_PRESETS s2 !! k = None.
Proof.
  destruct s1, s2; unfold SCENARIO_PRESETS, obj;
    rewrite <- !not_elem_of_list_to_map; exact id.
Qed.

Lemma applyScenario_lookup (prev : Assumptions) (s : ScenarioKey) (k : string) :
  applyScenario prev s !! k =
    if decide (k = "scenario") then Some (JStr (scenario_label s))
    else match SCENARIO_PRESETS s !! k with
         | Some v => Some v
         | None => prev !! k
         end.
Proof.
  unfold applyScenario, spread. destruct (decide (k = "scenario")) as [-> | Hk].
  - apply lookup_insert_eq.
  - rewrite lookup_insert_ne by congruence. rewrite lookup_union.
    destruct (SCENARIO_PRESETS s !! k), (prev !! k); reflexivity.
Qed.

(** X12.  Applying a scenario after another one leaves no trace of the
    first: the state is the one that the second scenario gives on the
    original state, so applying a scenario twice changes nothing more.
    Applying ["Base"] to the default assumptions gives the default
    assumptions back. *)
Theorem applyScenario_last_wins (prev : Assumptions) (s1 s2 : ScenarioKey) :
  applyScenario (applyScenario prev s1) s2 = applyScenario prev s2 /\
  applyScenario DEFAULT_ASSUMPTIONS Base = DEFAULT_ASSUMPTIONS.
Proof.
  split.
  - apply map_eq. intros k. rewrite !applyScenario_lookup.
    destruct (decide (k = "scenario")) as [_ | Hk]; [reflexivity|].
    destruct (SCENARIO_PRESETS s2 !! k) eqn:E2; [reflexivity|].
    rewrite (preset_same_fields s2 s1 k E2). reflexivity.
  - apply map_eq. intros k. rewrite applyScenario_lookup.
    unfold DEFAULT_ASSUMPTIONS, spread. rewrite lookup_union.
    destruct (decide (k = "scenario")) as [-> | Hk]; [reflexivity|].
    destruct (SCENARIO_PRESETS Base !! k) eqn:E.
    + destruct (obj _ !! k) eqn:E'; [|reflexivity].
      exfalso. unfold obj in E'. apply elem_of_list_to_map_2 in E'.
      destruct (preset_omits Base) as (Hn & Hs & Hd & Hl).
      cbn [rev app] in E'. rewrite !elem_of_cons in E'.
      destruct E' as [E' | [E' | [E' | [E' | E']]]];
        try (injection E' as -> _; congruence).
      apply elem_of_nil in E'. exact E'.
    + destruct (obj _ !! k); reflexivity.
Qed.

(** X13.  [setAssumption] stores the value under its key and leaves
    every other field alone.  A later [applyScenario] discards the edit
    when the key is a field of the presets or the scenario label, and
    keeps it otherwise (the two updates then commute). *)
Theorem setAssumption_then_applyScenario (prev : Assumptions) (key : string)
    (value : jsval) (s : ScenarioKey) :
  setAssumption prev key value !! key = Some value /\
  (forall k, k <> key -> setAssumption prev key value !! k = prev !! k) /\
  (key = "scenario" \/ SCENARIO_PRESETS s !! key <> None ->
     applyScenario (setAssumption prev key value) s = applyScenario prev s) /\
  (key <> "scenario" -> SCENARIO_PRESETS s !! key = None ->
     applyScenario (setAssumption prev key value) s
     = setAssumption (applyScenario prev s) key value).
Proof.
  unfold setAssumption. split; [apply lookup_insert_eq|].
  split; [intros k Hk; apply lookup_insert_ne; congruence|].
  split.
  - intros Hkey. apply map_eq. intros k. rewrite !applyScenario_lookup.
    destruct (decide (k = "scenario")) as [_ | Hk]; [reflexivity|].
    destruct (SCENARIO_PRESETS s !! k) eqn:E; [reflexivity|].
    apply lookup_insert_ne. intros ->. destruct Hkey as [-> | Hkey]; congruence.
  - intros Hkey Hnone. apply map_eq. intros k.
    destruct (decide (k = key)) as [-> | Hne].
    + rewrite lookup_insert_eq, applyScenario_lookup.
      rewrite decide_False by exact Hkey. rewrite Hnone. apply lookup_insert_eq.
    + rewrite lookup_insert_ne by congruence. rewrite !applyScenario_lookup.
      destruct (decide (k = "scenario")); [reflexivity|].
      destruct (SCENARIO_PRESETS s !! k); [reflexivity|].
      apply lookup_insert_ne. congruence.
Qed.

(** * The headline signal of the dashboard *)

(** X14.  In exact arithmetic (the rationals of the number model; in
    binary64 a comparison can fall the other way exactly at a
    threshold, as for the value 115 at the price 100), the headline
    signal of the dashboard and [assignSignal] agree on ["BUY"] but not
    on ["SELL"].  At a price [p > 0] and a finite blended value [v],
    the headline is ["BUY"] exactly when [assignSignal v p] is (above
    [1.15 p]); it is ["SELL"] exactly when [v < 0.90 p], whereas
    [assignSignal] sells only below [0.85 p]: from [0.85 p] up to
    [0.90 p] the headline says ["SELL"] and [assignSignal] says
    ["HOLD"].  At a price that is not above zero the headline is
    ["HOLD"], where [assignSignal] gives ["N/A"]. *)
Theorem summarySignal_thresholds (B : Baseline) (computed : CV.t) :
  (forall p v : Q,
     current_price B = Fin p -> (0 < p)%Q ->
     sd_intrinsicValue (summaryData B computed) = Fin v ->
     (summarySignal B computed = BUY <-> (1.15 * p < v)%Q) /\
     (summarySignal B computed = BUY <-> assignSignal (Fin v) (Fin p) = BUY) /\
     (summarySignal B computed = SELL <-> (v < 0.90 * p)%Q) /\
     (assignSignal (Fin v) (Fin p) = SELL <-> (v < 0.85 * p)%Q) /\
     ((0.85 * p <= v)%Q -> (v < 0.90 * p)%Q ->
        summarySignal B computed = SELL /\ assignSignal (Fin v) (Fin p) = HOLD)) /\
  ((current_price B >? Fin 0)%js = false ->
     summarySignal B computed = HOLD /\
     forall v, assignSignal v (current_price B) = NA) /\
  summarySignal B computed <> NA.
Proof.
  split; [|split].
  - intros p v Hp Hpos Hv.
    assert (Hup : sd_upsidePercent (summaryData B computed) = Fin ((v / p - 1) * 100)).
    { revert Hv. unfold summaryData. cbv zeta. cbn [sd_intrinsicValue sd_upsidePercent].
      intros ->. rewrite Hp.
      assert (E : (Fin p >? Fin 0)%js = true) by (apply nlt_fin; exact Hpos).
      rewrite E. rewrite ndiv_fin by lra. reflexivity. }
    unfold summarySignal, deriveSummarySignal. rewrite Hup.
    assert (Hu : ((v / p - 1) * 100 == (v - p) * 100 / p)%Q) by (field; lra).
    assert (Hgt : forall c : Q, (c < (v / p - 1) * 100)%Q <-> (c * p < (v - p) * 100)%Q).
    { intros c. rewrite Hu. split; intros H.
      - apply (Qmult_lt_r _ _ p Hpos) in H.
        assert (E : ((v - p) * 100 / p * p == (v - p) * 100)%Q) by (field; lra).
        rewrite E in H. exact H.
      - apply Qlt_shift_div_l; assumption. }
    assert (Hlt : forall c : Q, ((v / p - 1) * 100 < c)%Q <-> ((v - p) * 100 < c * p)%Q).
    { intros c. rewrite Hu. split; intros H.
      - apply (Qmult_lt_r _ _ p Hpos) in H.
        assert (E : ((v - p) * 100 / p * p == (v - p) * 100)%Q) by (field; lra).
        rewrite E in H. exact H.
      - apply Qlt_shift_div_r; assumption. }
    assert (Hmk : (truthy (Fin p) = true) /\ (Fin p <=? Fin 0)%js = false).
    { split; [|apply nle_fin_false; exact Hpos].
      cbn [truthy]. apply negb_true_iff. apply Qis0_false. lra. }
    destruct Hmk as [Ht Hle].
    assert (Hsum_buy : (if (Fin ((v / p - 1) * 100) >? Fin 15)%js then BUY
                        else if (Fin ((v / p - 1) * 100) <? Fin (-10))%js then SELL else HOLD)
                       = BUY <-> (1.15 * p < v)%Q).
    { destruct (Fin ((v / p - 1) * 100) >? Fin 15)%js eqn:E.
      - apply nlt_fin in E. apply Hgt in E. split; [intros _; lra | reflexivity].
      - apply nlt_fin_false in E. split.
        + destruct (Fin ((v / p - 1) * 100) <? Fin (-10))%js; intros H; discriminate H.
        + intros H. exfalso. assert (15 < (v / p - 1) * 100)%Q by (apply Hgt; lra). lra. }
    assert (Hsum_sell : (if (Fin ((v / p - 1) * 100) >? Fin 15)%js then BUY
                         else if (Fin ((v / p - 1) * 100) <? Fin (-10))%js then SELL else HOLD)
                        = SELL <-> (v < 0.90 * p)%Q).
    { destruct (Fin ((v / p - 1) * 100) >? Fin 15)%js eqn:E.
      - apply nlt_fin in E. apply Hgt in E. split; [discriminate | intros H; lra].
      - destruct (Fin ((v / p - 1) * 100) <? Fin (-10))%js eqn:E'.
        + apply nlt_fin in E'. apply Hlt in E'. split; [intros _; lra | reflexivity].
        + apply nlt_fin_false in E'. split; [discriminate|].
          intros H. exfalso. assert ((v / p - 1) * 100 < -10)%Q by (apply Hlt; lra). lra. }
    assert (Hasg_buy : assignSignal (Fin v) (Fin p) = BUY <-> (1.15 * p < v)%Q).
    { unfold assignSignal. rewrite Ht, Hle. cbn [negb orb]. rewrite !nmul_fin.
      destruct (Fin v >? Fin (p * 1.15))%js eqn:E.
      - apply nlt_fin in E. split; [intros _; lra | reflexivity].
      - apply nlt_fin_false in E. split; [|intros H; lra].
        destruct (Fin v <? Fin (p * 0.85))%js; intros H; discriminate H. }
    assert (Hasg_sell : assignSignal (Fin v) (Fin p) = SELL <-> (v < 0.85 * p)%Q).
    { unfold assignSignal. rewrite Ht, Hle. cbn [negb orb]. rewrite !nmul_fin.
      destruct (Fin v >? Fin (p * 1.15))%js eqn:E.
      - apply nlt_fin in E. split; [discriminate | intros H; lra].
      - destruct (Fin v <? Fin (p * 0.85))%js eqn:E'.
        + apply nlt_fin in E'. split; [intros _; lra | reflexivity].
        + apply nlt_fin_false in E'. split; [discriminate | intros H; lra]. }
    split; [exact Hsum_buy|]. split; [rewrite Hasg_buy; exact Hsum_buy|].
    split; [exact Hsum_sell|]. split; [exact Hasg_sell|].
    intros H1 H2. split; [apply Hsum_sell; exact H2|].
    unfold assignSignal. rewrite Ht, Hle. cbn [negb orb]. rewrite !nmul_fin.
    assert (E1 : (Fin v >? Fin (p * 1.15))%js = false) by (apply nlt_fin_false; lra).
    assert (E2 : (Fin v <? Fin (p * 0.85))%js = false) by (apply nlt_fin_false; lra).
    rewrite E1, E2. reflexivity.
  - intros Hp. split.
    + unfold summarySignal, summaryData. cbv zeta. cbn [sd_upsidePercent].
      rewrite Hp. reflexivity.
    + intros v. apply assignSignal_no_market. exact Hp.
  - unfold summarySignal, deriveSummarySignal.
    destruct (_ >? _)%js; [discriminate|]. destruct (_ <? _)%js; discriminate.
Qed.

(** * The order of a sorted array *)

Section SortOrder.

Context {A : Type} (cmp : A -> A -> number).
Hypothesis cmp_total : forall x y, (cmp x y >? Fin 0)%js = true -> (cmp y x >? Fin 0)%js = false.
Hypothesis cmp_trans : forall x y z,
  (cmp x y >? Fin 0)%js = false -> (cmp y z >? Fin 0)%js = false ->
  (cmp x z >? Fin 0)%js = false.

Lemma sort_insert_sorted (x : A) (l : list A) :
  sorted_by cmp l -> sorted_by cmp (sort_insert cmp x l).
Proof using cmp_total cmp_trans.
  induction l as [|y l IH]; intros Hs.
  - simpl. split; [constructor | exact I].
  - destruct Hs as [Hy Hs]. cbn [sort_insert].
    destruct (cmp x y >? Fin 0)%js eqn:E.
    + cbn [sorted_by]. split; [|exact (IH Hs)].
      apply List.Forall_forall. intros z Hz.
      apply (Permutation_in _ (sort_insert_perm cmp x l)) in Hz.
      destruct Hz as [<- | Hz]; [exact (cmp_total _ _ E)|].
      rewrite List.Forall_forall in Hy. exact (Hy z Hz).
    + cbn [sorted_by]. split; [|split; assumption].
      constructor; [exact E|].
      apply List.Forall_forall. intros z Hz.
      rewrite List.Forall_forall in Hy. exact (cmp_trans _ _ _ E (Hy z Hz)).
Qed.

Lemma js_sort_sorted (l : list A) : sorted_by cmp (js_sort cmp l).
Proof using cmp_total cmp_trans.
  induction l as [|x l IH]; [exact I|].
  cbn [js_sort fold_right]. apply sort_insert_sorted. exact IH.
Qed.

Lemma sorted_by_nth (l : list A) :
  sorted_by cmp l ->
  forall i j a b, (i < j)%nat -> nth_error l i = Some a -> nth_error l j = Some b ->
    (cmp a b >? Fin 0)%js = false.
Proof.
  induction l as [|x l IH]; intros Hs i j a b Hij Ha Hb.
  - destruct i; discriminate Ha.
  - destruct Hs as [Hx Hs]. destruct j as [|j]; [lia|].
    cbn [nth_error] in Hb. destruct i as [|i]; cbn [nth_error] in Ha.
    + injection Ha as ->. rewrite List.Forall_forall in Hx.
      apply Hx. exact (nth_error_In _ _ Hb).
    + apply (IH Hs i j); [lia | exact Ha | exact Hb].
Qed.

End SortOrder.

Lemma NoDup_nth_distinct {A : Type} (l : list A) :
  List.NoDup l ->
  forall i j a b, (i < j)%nat -> nth_error l i = Some a -> nth_error l j = Some b -> a <> b.
Proof.
  intros Hnd i j a b Hij Ha Hb ->.
  assert (Hi : (i < length l)%nat) by (apply nth_error_Some; congruence).
  pose proof (proj1 (List.NoDup_nth_error l) Hnd i j Hi) as H.
  rewrite Ha, Hb in H. specialize (H eq_refl). lia.
Qed.

Lemma code_compare_gt (s t : string) :
  (code_compare s t >? Fin 0)%js = str_gt s t.
Proof.
  unfold code_compare, str_gt. destruct (String.compare s t); reflexivity.
Qed.

Lemma str_gt_asym (s t : string) : str_gt s t = true -> str_gt t s = false.
Proof.
  intros H. destruct (str_gt t s) eqn:E; [|reflexivity].
  apply str_gt_lt in H, E.
  pose proof (OrderedTypeEx.String_as_OT.lt_trans _ _ _ H E) as Hss.
  exfalso. exact (OrderedTypeEx.String_as_OT.lt_not_eq _ _ Hss eq_refl).
Qed.

Lemma str_le_trans (s t u : string) :
  str_gt s t = false -> str_gt t u = false -> str_gt s u = false.
Proof.
  intros Hst Htu. destruct (str_gt u t) eqn:E.
  - exact (str_le_lt_trans s t u Hst E).
  - (* t = u *)
    assert (Heq : t = u).
    { destruct (OrderedTypeEx.String_as_OT.compare t u) as [Hlt | Heq | Hgt].
      - apply str_gt_lt in Hlt. congruence.
      - exact Heq.
      - apply str_gt_lt in Hgt. congruence. }
    subst u. exact Hst.
Qed.

(** X15.  [pickAnnual] returns its entries oldest first: when
    [localeCompare] orders the period ends (it is total and
    transitive), no entry of the result has a period end above that of
    a later entry, and the two period ends differ.  So the last entry
    is the one of the latest period. *)
Theorem pickAnnual_oldest_first (date_getTime : string -> number)
    (localeCompare : string -> string -> number) (values : list XbrlUnit) :
  (forall s t, (localeCompare s t >? Fin 0)%js = true ->
               (localeCompare t s >? Fin 0)%js = false) ->
  (forall s t u, (localeCompare s t >? Fin 0)%js = false ->
                 (localeCompare t u >? Fin 0)%js = false ->
                 (localeCompare s u >? Fin 0)%js = false) ->
  forall i j a b, (i < j)%nat ->
    nth_error (pickAnnual date_getTime localeCompare values) i = Some a ->
    nth_error (pickAnnual date_getTime localeCompare values) j = Some b ->
    (localeCompare (end_ a) (end_ b) >? Fin 0)%js = false /\ end_ a <> end_ b.
Proof.
  intros Htot Htr i j a b Hij Ha Hb. split.
  - refine (sorted_by_nth (fun a b => localeCompare (end_ a) (end_ b)) _ _ i j a b Hij Ha Hb).
    unfold pickAnnual. cbv zeta. apply js_sort_sorted.
    + intros x y. apply Htot.
    + intros x y z. apply Htr.
  - pose proof (pickAnnual_dedup date_getTime values) as Hinv.
    set (m := fold_left dedup_step (List.filter (annual_entry date_getTime) values) []) in *.
    assert (Hnd : List.NoDup (List.map end_ (pickAnnual date_getTime localeCompare values))).
    { apply (Permutation_NoDup (l := List.map end_ (List.map snd m))).
      - apply Permutation_map. symmetry. apply js_sort_perm.
      - rewrite (dedup_values_ends _ m Hinv). destruct Hinv as (H & _). exact H. }
    apply (NoDup_nth_distinct _ Hnd i j); [exact Hij | |];
      rewrite nth_error_map; [rewrite Ha | rewrite Hb]; reflexivity.
Qed.

Lemma pickAnnual_oldest_first_witness :
  nth_error (pickAnnual iso_getTime code_compare filings_by_year) 0
  = Some (annualEntry 3000000 "2021-01-01" "2021-12-31" "10-K" "2022-02-15") /\
  nth_error (pickAnnual iso_getTime code_compare filings_by_year) 2
  = Some (annualEntry 3600000 "2023-01-01" "2023-12-31" "10-K" "2024-02-15") /\
  str_gt "2021-12-31" "2023-12-31" = false /\ "2021-12-31" <> "2023-12-31".
Proof.
  assert (H0 : nth_error (pickAnnual iso_getTime code_compare filings_by_year) 0
               = Some (annualEntry 3000000 "2021-01-01" "2021-12-31" "10-K" "2022-02-15"))
    by (vm_compute; reflexivity).
  assert (H2 : nth_error (pickAnnual iso_getTime code_compare filings_by_year) 2
               = Some (annualEntry 3600000 "2023-01-01" "2023-12-31" "10-K" "2024-02-15"))
    by (vm_compute; reflexivity).
  split; [exact H0|]. split; [exact H2|].
  rewrite <- code_compare_gt.
  refine (pickAnnual_oldest_first iso_getTime code_compare filings_by_year _ _
            0%nat 2%nat _ _ ltac:(lia) H0 H2).
  - intros s t. rewrite !code_compare_gt. apply str_gt_asym.
  - intros s t u. rewrite !code_compare_gt. apply str_le_trans.
Defined.

(** X16.  [firstConcept] returns the annual series of the first name,
    in the order given, whose concept has a non-empty annual series in
    the unit asked for; names without a concept, without the unit,
    without entries or with quarterly entries only are passed over.
    When no name has one the result is empty. *)
Theorem firstConcept_first_match (date_getTime : string -> number)
    (localeCompare : string -> string -> number)
    (gaap : gmap string XbrlConcept) (names : list string) (unit : string) :
  let series (name : string) : list XbrlUnit :=
    match gaap !! name with
    | Some concept =>
        match units concept !! unit with
        | Some vals => pickAnnual date_getTime localeCompare vals
        | None => []
        end
    | None => []
    end in
  (firstConcept date_getTime localeCompare gaap names unit = [] /\
   forall name, In name names -> series name = []) \/
  (exists pre name post,
     names = pre ++ name :: post /\
     firstConcept date_getTime localeCompare gaap names unit = series name /\
     series name <> [] /\
     forall n, In n pre -> series n = []).
Proof.
  intros series.
  induction names as [|name names IH].
  - left. split; [reflexivity | intros name []].
  - assert (Hskip : series name = [] ->
              firstConcept date_getTime localeCompare gaap (name :: names) unit
              = firstConcept date_getTime localeCompare gaap names unit).
    { unfold series. cbn [firstConcept].
      destruct (gaap !! name) as [concept|]; [|reflexivity].
      destruct (units concept !! unit) as [vals|]; [|reflexivity].
      destruct (length vals =? 0)%nat; [reflexivity|]. cbv zeta.
      intros ->. reflexivity. }
    assert (Hhit : series name <> [] ->
              firstConcept date_getTime localeCompare gaap (name :: names) unit = series name).
    { unfold series. cbn [firstConcept].
      destruct (gaap !! name) as [concept|]; [|contradiction].
      destruct (units concept !! unit) as [vals|]; [|contradiction].
      destruct (length vals =? 0)%nat eqn:E0.
      - apply Nat.eqb_eq in E0. destruct vals; [|discriminate E0].
        intros H. exfalso. apply H. reflexivity.
      - cbv zeta. destruct (pickAnnual date_getTime localeCompare vals); [contradiction|].
        reflexivity. }
    destruct (series name) as [|r rs] eqn:Es.
    + rewrite (Hskip eq_refl).
      destruct IH as [[H0 Hall] | (pre & n & post & Hn & Hr & Hne & Hpre)].
      * left. split; [exact H0|]. intros n [<- | Hn]; [exact Es | exact (Hall n Hn)].
      * right. exists (name :: pre), n, post.
        split; [rewrite Hn; reflexivity|]. split; [exact Hr|]. split; [exact Hne|].
        intros n' [<- | Hn']; [exact Es | exact (Hpre n' Hn')].
    + right. exists [], name, names. split; [reflexivity|].
      rewrite Es. split; [apply Hhit; discriminate|]. split; [discriminate|].
      intros n [].
Qed.
(** * Alignment of the series to the master timeline *)

Section OrderFacts.

Lemma nlt_trans (x y z : number) :
  (x <? y)%js = true -> (y <? z)%js = true -> (x <? z)%js = true.
Proof.
  destruct x as [a| | |], y as [b| | |], z as [c| | |]; simpl;
    try discriminate; try reflexivity.
  intros H1 H2. apply Qltb_lt in H1, H2. apply Qltb_lt. lra.
Qed.

Lemma nlt_nle_trans (x y z : number) :
  (x <? y)%js = true -> (y <=? z)%js = true -> (x <=? z)%js = true.
Proof.
  destruct x as [a| | |], y as [b| | |], z as [c| | |]; simpl;
    try discriminate; try reflexivity.
  intros H1 H2. apply Qltb_lt in H1. apply Qle_bool_iff in H2. apply Qle_bool_iff. lra.
Qed.

Lemma nle_fin_lt_inf (x : number) (t : Q) :
  (x <=? Fin t)%js = true -> (x <? PInf)%js = true.
Proof. destruct x; simpl; try discriminate; reflexivity. Qed.

(** Below a value that is not below [w], and [w] within a finite
    bound: strictly below [w]. *)
Lemma nlt_below_not_below (d c w : number) (t : Q) :
  (d <? c)%js = true -> (w <? c)%js = false -> (w <=? Fin t)%js = true ->
  (c <=? Fin t)%js = true -> (d <? w)%js = true.
Proof.
  destruct d as [a| | |], c as [b| | |], w as [e| | |]; simpl;
    try discriminate; try reflexivity.
  intros H1 H2 _ _. apply Qltb_lt in H1. apply Qltb_ge in H2. apply Qltb_lt. lra.
Qed.

End OrderFacts.

Section AlignFacts.

Variable date_getTime : string -> number.
Variables (target : number) (t : Q).

Lemma align_inv_step (seen : list XbrlUnit) (st : AlignLoop) (v : XbrlUnit) :
  align_inv date_getTime target t seen st ->
  align_inv date_getTime target t (seen ++ [v]) (align_step date_getTime target (Fin t) st v).
Proof.
  unfold align_inv, align_step. cbv zeta. intros Hinv.
  set (d := end_diff date_getTime target v) in *.
  set (tol := (Fin t * Fin 86400000)%js) in *.
  assert (Htol : tol = Fin (t * 86400000)) by reflexivity.
  destruct ((d <? minDiff st)%js && (d <=? tol)%js) eqn:E.
  - apply andb_true_iff in E. destruct E as [Elt Etol]. cbn [closest minDiff].
    split; [reflexivity|]. split; [exact Etol|]. split.
    + intros w Hw. apply in_app_or in Hw. destruct Hw as [Hw | [<- | []]];
        [|apply nlt_irrefl].
      destruct (end_diff date_getTime target w <? d)%js eqn:Ew; [|exact Ew].
      exfalso. destruct (closest st) as [c|].
      * destruct Hinv as (Hmin & _ & Hall & _). rewrite Hmin in Elt.
        pose proof (nlt_trans _ _ _ Ew Elt) as H. rewrite (Hall w Hw) in H. discriminate H.
      * destruct Hinv as (_ & Hall).
        pose proof (nlt_nle_trans _ _ _ Ew Etol) as H. rewrite (Hall w Hw) in H. discriminate H.
    + exists seen, []. split; [reflexivity|].
      intros w Hw Hwtol. destruct (closest st) as [c|].
      * destruct Hinv as (Hmin & Hctol & Hall & _). rewrite Hmin in Elt.
        rewrite Htol in Hwtol, Hctol.
        exact (nlt_below_not_below _ _ _ _ Elt (Hall w Hw) Hwtol Hctol).
      * destruct Hinv as (_ & Hall). rewrite (Hall w Hw) in Hwtol. discriminate Hwtol.
  - destruct (closest st) as [c|] eqn:Ec.
    + destruct Hinv as (Hmin & Hctol & Hall & pre & post & Hseen & Hpre).
      split; [exact Hmin|]. split; [exact Hctol|]. split.
      * intros w Hw. apply in_app_or in Hw.
        destruct Hw as [Hw | [<- | []]]; [exact (Hall w Hw)|].
        fold d. rewrite Hmin in E. apply andb_false_iff in E. destruct E as [E | E]; [exact E|].
        destruct (d <? end_diff date_getTime target c)%js eqn:Ed; [|reflexivity].
        pose proof (nlt_nle_trans _ _ _ Ed Hctol) as H. fold tol in H. congruence.
      * exists pre, (post ++ [v]). split; [|exact Hpre].
        rewrite Hseen, <- app_assoc. reflexivity.
    + destruct Hinv as (Hmin & Hall). split; [exact Hmin|].
      intros w Hw. apply in_app_or in Hw. destruct Hw as [Hw | [<- | []]]; [exact (Hall w Hw)|].
      fold d tol. rewrite Hmin in E. apply andb_false_iff in E. destruct E as [E | E]; [|exact E].
      destruct (d <=? tol)%js eqn:Ed; [|reflexivity].
      rewrite Htol in Ed.
      rewrite (nle_fin_lt_inf _ _ Ed) in E. discriminate E.
Qed.

Lemma align_inv_fold (arr : list XbrlUnit) :
  forall seen st, align_inv date_getTime target t seen st ->
    align_inv date_getTime target t (seen ++ arr)
      (fold_left (align_step date_getTime target (Fin t)) arr st).
Proof.
  induction arr as [|v arr IH]; intros seen st Hinv; cbn [fold_left].
  - rewrite app_nil_r. exact Hinv.
  - replace (seen ++ v :: arr) with ((seen ++ [v]) ++ arr)
      by (rewrite <- app_assoc; reflexivity).
    apply IH. apply align_inv_step. exact Hinv.
Qed.

End AlignFacts.

(** X17.  [alignToMaster] gives one value per date of the master
    timeline.  With the distance of an entry from a date being
    [|getTime(entry.end) - getTime(date)|], the value for a date is
    that of the first entry of the series among those nearest to the
    date, provided it lies within the tolerance (in days of
    86 400 000 ms): no entry of the series is nearer, and the entries
    before it that are within the tolerance are strictly farther.
    When no entry is within the tolerance the value is [0]. *)
Theorem alignToMaster_closest (date_getTime : string -> number)
    (masterDates : list string) (arr : list XbrlUnit) (t : Q) :
  let diff (d : string) (v : XbrlUnit) : number :=
    nabs (date_getTime (end_ v) - date_getTime d)%js in
  length (alignToMaster date_getTime masterDates arr (Fin t)) = length masterDates /\
  forall i d x,
    nth_error masterDates i = Some d ->
    nth_error (alignToMaster date_getTime masterDates arr (Fin t)) i = Some x ->
    (exists pre c post,
       arr = pre ++ c :: post /\ x = val c /\
       (diff d c <=? Fin t * Fin 86400000)%js = true /\
       (forall w, In w arr -> (diff d w <? diff d c)%js = false) /\
       (forall w, In w pre -> (diff d w <=? Fin t * Fin 86400000)%js = true ->
          (diff d c <? diff d w)%js = true)) \/
    (x = Fin 0 /\
     forall w, In w arr -> (diff d w <=? Fin t * Fin 86400000)%js = false).
Proof.
  intros diff. unfold alignToMaster. split; [apply length_map|].
  intros i d x Hd Hx. rewrite nth_error_map, Hd in Hx. cbn [option_map] in Hx.
  injection Hx as <-. cbv zeta.
  pose proof (align_inv_fold date_getTime (date_getTime d) t arr []
                {| closest := None; minDiff := PInf |}) as Hinv.
  cbn [app] in Hinv. unfold align_inv at 1 in Hinv. cbn [closest minDiff] in Hinv.
  specialize (Hinv (conj eq_refl (fun w (H : In w []) => match H with end))).
  unfold align_inv in Hinv.
  destruct (closest _) as [c|].
  - left. destruct Hinv as (_ & Htol & Hall & pre & post & Harr & Hpre).
    exists pre, c, post. repeat split; assumption.
  - right. destruct Hinv as (_ & Hall). split; [reflexivity | exact Hall].
Qed.

(** * Instant facts *)

Lemma instant_candidate_explicit (date_getTime : string -> number) (fyDate : number)
    (v : XbrlUnit) :
  instant_candidate date_getTime fyDate v = true <->
  (form v = Some "10-K" \/ form v = Some "10-K/A" \/
   form v = Some "20-F" \/ form v = Some "40-F") /\
  end_ v <> "" /\
  (nabs (date_getTime (end_ v) - fyDate) <=? Fin 7 * Fin 86400000)%js = true.
Proof.
  unfold instant_candidate, end_diff. rewrite <- isAnnualForm_forms.
  assert (Hend : str_truthy (Some (end_ v)) = true <-> end_ v <> "").
  { simpl. rewrite negb_true_iff. apply String.eqb_neq. }
  rewrite <- Hend.
  destruct (isAnnualForm (form v)), (str_truthy (Some (end_ v))); cbn [negb];
    intuition congruence.
Qed.

Lemma pickInstant_length (date_getTime : string -> number)
    (sort_with : (XbrlUnit -> XbrlUnit -> number) -> list XbrlUnit -> list XbrlUnit)
    (values : list XbrlUnit) (fyEnds : list string) :
  length (pickInstant date_getTime sort_with values fyEnds) = length fyEnds.
Proof. apply length_map. Qed.

(** X18.  Whatever order the engine's sort gives the candidates (it
    only reorders them), [pickInstant] returns one entry per fiscal
    year end, in the order of the year ends and carrying that year end
    as its period end.  The entry is a copy of an input entry from an
    annual form (10-K, 10-K/A, 20-F, 40-F) whose period end is within
    seven days of the year end, with only the period end replaced; or,
    exactly when the input has no such entry, the placeholder with the
    value [0] and no form.  [firstConceptInstant] therefore always
    returns one value per fiscal year end. *)
Theorem pickInstant_aligned (date_getTime : string -> number)
    (sort_with : (XbrlUnit -> XbrlUnit -> number) -> list XbrlUnit -> list XbrlUnit)
    (values : list XbrlUnit) (fyEnds : list string) (gaap : gmap string XbrlConcept)
    (names : list string) (unit : string) :
  (forall cmp l, Permutation (sort_with cmp l) l) ->
  let candidate (fyEnd : string) (v : XbrlUnit) : Prop :=
    (form v = Some "10-K" \/ form v = Some "10-K/A" \/
     form v = Some "20-F" \/ form v = Some "40-F") /\
    end_ v <> "" /\
    (nabs (date_getTime (end_ v) - date_getTime fyEnd) <=? Fin 7 * Fin 86400000)%js = true in
  length (pickInstant date_getTime sort_with values fyEnds) = length fyEnds /\
  (forall i fyEnd r,
     nth_error fyEnds i = Some fyEnd ->
     nth_error (pickInstant date_getTime sort_with values fyEnds) i = Some r ->
     end_ r = fyEnd /\
     ((exists c, In c values /\ candidate fyEnd c /\
         r = {| accn := accn c; cik := cik c; entityName := entityName c; loc := loc c;
                end_ := fyEnd; val := val c; form := form c; filed := filed c;
                fy := fy c; fp := fp c; frame := frame c; start := start c |}) \/
      (r = {| accn := ""; cik := Fin 0; entityName := ""; loc := "";
              end_ := fyEnd; val := Fin 0; form := None; filed := None;
              fy := None; fp := None; frame := None; start := None |} /\
       forall v, In v values -> ~ candidate fyEnd v))) /\
  length (firstConceptInstant date_getTime sort_with gaap names fyEnds unit) = length fyEnds.
Proof.
  intros Hsort candidate.
  split; [apply pickInstant_length|]. split.
  - intros i fyEnd r Hf Hr. unfold pickInstant in Hr.
    rewrite nth_error_map, Hf in Hr. cbn [option_map] in Hr. injection Hr as <-.
    cbv zeta.
    set (cands := List.filter (instant_candidate date_getTime (date_getTime fyEnd)) values).
    set (cmp := fun a b : XbrlUnit =>
      if str_gt (filed_or_empty b) (filed_or_empty a) then Fin 1 else Fin (-1)).
    pose proof (Hsort cmp cands) as Hperm.
    destruct (0 <? length cands)%nat eqn:E.
    + destruct (sort_with cmp cands) as [|c rest] eqn:Es.
      * apply Permutation_length in Hperm. apply Nat.ltb_lt in E. simpl in Hperm. lia.
      * split; [reflexivity|]. left. exists c.
        assert (Hc : In c cands).
        { apply (Permutation_in _ Hperm). left. reflexivity. }
        apply filter_In in Hc. destruct Hc as [Hin Hcand].
        apply instant_candidate_explicit in Hcand.
        split; [exact Hin|]. split; [exact Hcand | reflexivity].
    + split; [reflexivity|]. right. split; [reflexivity|].
      intros v Hv Hcand. apply Nat.ltb_ge in E.
      apply instant_candidate_explicit in Hcand.
      assert (Hin : In v cands) by (apply filter_In; split; assumption).
      destruct cands; [destruct Hin | simpl in E; lia].
  - induction names as [|name names IH]; cbn [firstConceptInstant].
    + apply length_map.
    + destruct (gaap !! name) as [concept|]; [|exact IH].
      destruct (units concept !! unit) as [vals|]; [|exact IH].
      destruct (length vals =? 0)%nat; [exact IH|]. cbv zeta.
      destruct (existsb _ _); [|exact IH].
      rewrite length_map. apply pickInstant_length.
Qed.

(** Two year ends against balance-sheet entries dated 2023-12-29 and
    2022-06-30: the first year end finds the entry two days before it,
    the second finds nothing and gets the placeholder. *)
Lemma pickInstant_aligned_witness :
  exists r1 r2,
    pickInstant iso_getTime js_sort
      [ instantEntry 500 "2023-12-29" "2024-02-15";
        instantEntry 300 "2022-06-30" "2022-08-15" ]
      [ "2023-12-31"; "2022-12-31" ] = [r1; r2] /\
    end_ r1 = "2023-12-31" /\ val r1 = Fin 500 /\
    end_ r2 = "2022-12-31" /\ val r2 = Fin 0.
Proof.
  destruct (pickInstant_aligned iso_getTime js_sort
              [ instantEntry 500 "2023-12-29" "2024-02-15";
                instantEntry 300 "2022-06-30" "2022-08-15" ]
              [ "2023-12-31"; "2022-12-31" ] ∅ [] "USD"
              (fun cmp l => js_sort_perm cmp l)) as (Hlen & Hrows & _).
  destruct (pickInstant iso_getTime js_sort _ _) as [|r1 [|r2 [|r3 rest]]] eqn:E;
    try discriminate Hlen.
  exists r1, r2. split; [reflexivity|].
  destruct (Hrows 0%nat "2023-12-31" r1 eq_refl eq_refl) as [He1 Hr1].
  destruct (Hrows 1%nat "2022-12-31" r2 eq_refl eq_refl) as [He2 Hr2].
  split; [exact He1|]. split; [|split; [exact He2|]].
  - destruct Hr1 as [(c & Hin & Hcand & ->) | [_ Hnone]].
    + destruct Hin as [<- | [<- | []]]; [reflexivity|].
      destruct Hcand as (_ & _ & Hnear). vm_compute in Hnear. discriminate Hnear.
    + exfalso. apply (Hnone (instantEntry 500 "2023-12-29" "2024-02-15")).
      * left. reflexivity.
      * split; [left; reflexivity|]. split; [discriminate|]. vm_compute. reflexivity.
  - destruct Hr2 as [(c & Hin & Hcand & ->) | [-> _]]; [|reflexivity].
    destruct Hcand as (_ & _ & Hnear).
    destruct Hin as [<- | [<- | []]]; vm_compute in Hnear; discriminate Hnear.
Defined.

(** * The derived ratios of the current period *)

(** X19.  For finite figures the derived tax rate is always between
    0 and 50% (21% when the approximate pre-tax income [ebit - interest]
    is not above zero), and the payout ratio is always between 0 and 1
    (0 unless both EPS and the dividend are above zero).  The book
    value per share of a year is [0] or the equity of the year divided
    by a share count above zero, which is the diluted count of the
    year, else (when that is zero or missing) the count outstanding,
    else 1: it never divides by zero. *)
Theorem xbrl_ratios_bounded (ebit int_ tax eps_ dps_ : Q)
    (equityVals sdDilVals sharesInstVals : list number) :
  (exists r : Q, tax_rate_curr (Fin ebit) (Fin int_) (Fin tax) = Fin r /\ (0 <= r <= 0.5)%Q) /\
  ((ebit - int_ <= 0)%Q -> tax_rate_curr (Fin ebit) (Fin int_) (Fin tax) = Fin 0.21) /\
  (exists p : Q, payout_curr (Fin eps_) (Fin dps_) = Fin p /\ (0 <= p <= 1)%Q) /\
  ((eps_ <= 0)%Q \/ (dps_ <= 0)%Q -> payout_curr (Fin eps_) (Fin dps_) = Fin 0) /\
  length (bvpsVals equityVals sdDilVals sharesInstVals) = length equityVals /\
  (forall i eq x,
     nth_error equityVals i = Some eq ->
     nth_error (bvpsVals equityVals sdDilVals sharesInstVals) i = Some x ->
     x = Fin 0 \/
     exists sh, (sh >? Fin 0)%js = true /\ x = (eq / sh)%js /\
       (nth_error sdDilVals i = Some sh \/
        (truthy (to_number (nth_error sdDilVals i)) = false /\
         nth_error sharesInstVals i = Some sh) \/
        (truthy (to_number (nth_error sdDilVals i)) = false /\
         truthy (to_number (nth_error sharesInstVals i)) = false /\ sh = Fin 1))).
Proof.
  split; [|split; [|split; [|split; [|split]]]].
  - unfold tax_rate_curr. cbv zeta. rewrite nsub_fin.
    destruct (Fin (ebit - int_) >? Fin 0)%js eqn:E.
    + apply nlt_fin in E. rewrite ndiv_fin by lra. rewrite nmax_fin, nmin_fin.
      eexists. split; [reflexivity|].
      destruct (Qltb 0 (tax / (ebit - int_))) eqn:E1.
      * apply Qltb_lt in E1.
        destruct (Qltb (tax / (ebit - int_)) 0.5) eqn:E2.
        -- apply Qltb_lt in E2. lra.
        -- lra.
      * destruct (Qltb 0 0.5) eqn:E2; [lra|]. apply Qltb_ge in E2. lra.
    + exists 0.21%Q. split; [reflexivity | lra].
  - intros H. unfold tax_rate_curr. cbv zeta. rewrite nsub_fin.
    assert (E : (Fin (ebit - int_) >? Fin 0)%js = false) by (apply nlt_fin_false; exact H).
    rewrite E. reflexivity.
  - unfold payout_curr.
    destruct ((Fin eps_ >? Fin 0)%js && (Fin dps_ >? Fin 0)%js) eqn:E.
    + apply andb_true_iff in E. destruct E as [E1 E2].
      apply nlt_fin in E1, E2. rewrite ndiv_fin by lra. rewrite nmin_fin.
      eexists. split; [reflexivity|].
      assert (Hq : (0 < dps_ / eps_)%Q) by (apply Qlt_shift_div_l; lra).
      destruct (Qltb (dps_ / eps_) 1) eqn:E3.
      * apply Qltb_lt in E3. lra.
      * lra.
    + exists 0%Q. split; [reflexivity | lra].
  - intros H. unfold payout_curr.
    assert (E : (Fin eps_ >? Fin 0)%js && (Fin dps_ >? Fin 0)%js = false).
    { apply andb_false_iff. destruct H as [H | H]; [left | right];
        apply nlt_fin_false; exact H. }
    rewrite E. reflexivity.
  - unfold bvpsVals, map_i. apply map_from_length.
  - intros i eq x He Hx. unfold bvpsVals, map_i in Hx.
    rewrite map_from_nth, He in Hx. unfold option_map in Hx.
    change (0 + i)%nat with i in Hx. rewrite !arr_get_nat in Hx.
    apply (inj Some) in Hx. subst x.
    destruct (truthy (to_number (nth_error sdDilVals i))) eqn:E1.
    + destruct (to_number (nth_error sdDilVals i) >? Fin 0)%js eqn:Ep; [|left; reflexivity].
      right. exists (to_number (nth_error sdDilVals i)).
      split; [exact Ep|]. split; [reflexivity|]. left.
      destruct (nth_error sdDilVals i); [reflexivity | discriminate E1].
    + destruct (truthy (to_number (nth_error sharesInstVals i))) eqn:E2.
      * destruct (to_number (nth_error sharesInstVals i) >? Fin 0)%js eqn:Ep;
          [|left; reflexivity].
        right. exists (to_number (nth_error sharesInstVals i)).
        split; [exact Ep|]. split; [reflexivity|]. right. left.
        split; [reflexivity|].
        destruct (nth_error sharesInstVals i); [reflexivity | discriminate E2].
      * right. exists (Fin 1). split; [reflexivity|]. split; [reflexivity|].
        right. right. repeat split; reflexivity.
Qed.
